(** * Identity Map: the similarity engine ([lib/similarity.ts])

    A shallow embedding of the similarity engine and the proofs of its
    documented properties.

    Conventions of the embedding.
    - A JavaScript string is a [string]: a sequence of code units below 256
      (the Latin-1 range, which [toLowerCase] maps into itself).
    - A JavaScript [number] is read twice.  In the exact model it is a
      rational ([Q]), and [==] on numbers is [Qeq]: this reading is what
      the bounds, the formulas and the explanations are proved on.  In
      module [Doubles] the same functions run on IEEE 754 doubles
      ([spec_float], 53 bits, round to nearest even), with NaN for 0/0
      and the sums formed in loop order.  For the integer weights 1 to 3
      of the data model the two readings have the same maps, key sets and
      sums (doubles add whole numbers below 2^53 exactly), and differ
      only in the rounding of the quotients and of the blends; outside
      them the order of a sum can change the double, and symmetry is
      lost.
    - [Map] and [Set] keep insertion order, so they are association lists
      and duplicate-free lists, updated the way [Map.set] and [Set.add] do.
    - [for ... of] and [forEach] loops are left folds over an explicit
      loop state. *)

From Stdlib Require Import String Ascii List Bool Arith PeanoNat ZArith Lia.
From Stdlib Require Import QArith Qminmax Lqa Permutation Sorted SpecFloat.
From Stdlib Require Import Qround.
Import ListNotations.

Open Scope string_scope.

(** ** Strings *)

Module JsString.

Definition code (c : ascii) : nat := nat_of_ascii c.

Definition inRange (lo hi n : nat) : bool := (lo <=? n)%nat && (n <=? hi)%nat.

(** The class [\s] of regular expressions, which is also what
    [String.prototype.trim] strips: TAB, LF, VT, FF, CR, SP, NBSP. *)
Definition isSpace (c : ascii) : bool :=
  let n := code c in inRange 9 13 n || (n =? 32)%nat || (n =? 160)%nat.

(** The class [[a-z0-9]]. *)
Definition isLowerAlnum (c : ascii) : bool :=
  let n := code c in inRange 97 122 n || inRange 48 57 n.

Definition lowerChar (c : ascii) : ascii :=
  let n := code c in
  if inRange 65 90 n || (inRange 192 222 n && negb (n =? 215)%nat)
  then ascii_of_nat (n + 32) else c.

(** [s.toLowerCase()] *)
Fixpoint toLowerCase (s : string) : string :=
  match s with
  | EmptyString => EmptyString
  | String c r => String (lowerChar c) (toLowerCase r)
  end.

Fixpoint mapChars (f : ascii -> ascii) (s : string) : string :=
  match s with
  | EmptyString => EmptyString
  | String c r => String (f c) (mapChars f r)
  end.

Fixpoint trimStart (s : string) : string :=
  match s with
  | EmptyString => EmptyString
  | String c r => if isSpace c then trimStart r else s
  end.

Fixpoint trimEnd (s : string) : string :=
  match s with
  | EmptyString => EmptyString
  | String c r =>
      match trimEnd r with
      | EmptyString => if isSpace c then EmptyString else String c EmptyString
      | r' => String c r'
      end
  end.

(** [s.trim()] *)
Definition trim (s : string) : string := trimEnd (trimStart s).

(** [s.endsWith(suffix)] *)
Definition endsWith (s suffix : string) : bool :=
  (String.length suffix <=? String.length s)%nat
  && (substring (String.length s - String.length suffix) (String.length suffix) s =? suffix).

(** [s.slice(0, -n)] for [n > 0]: all but the last [n] code units. *)
Definition sliceEnd (s : string) (n : nat) : string :=
  substring 0 (String.length s - n) s.

Definition snoc (s : string) (c : ascii) : string := s ++ String c EmptyString.

(** [s.split(/\s+/)]: the pieces between maximal whitespace runs, the
    empty pieces at both ends included; [cur] is the piece being read and
    [inRun] tells whether the previous code unit was whitespace. *)
Fixpoint splitLoop (s : string) (cur : string) (inRun : bool) : list string :=
  match s with
  | EmptyString => [cur]
  | String c r =>
      if isSpace c then
        if inRun then splitLoop r cur true
        else cur :: splitLoop r EmptyString true
      else splitLoop r (snoc cur c) false
  end.

Definition splitWhitespace (s : string) : list string :=
  splitLoop s EmptyString false.

End JsString.

(** ** The tokenizer *)

Definition STOP_WORDS : list string :=
  [ "the"; "a"; "an"; "and"; "or"; "but"; "if"; "on"; "in"; "with"; "to";
    "for"; "of"; "by"; "is"; "are"; "am"; "be"; "was"; "were"; "this"; "that" ].

(** [STOP_WORDS.has(t)] *)
Definition isStopWord (t : string) : bool :=
  existsb (String.eqb t) STOP_WORDS.

Definition simpleStem (token : string) : string :=
  if JsString.endsWith token "ing" && (4 <? String.length token)%nat then
    JsString.sliceEnd token 3
  else if JsString.endsWith token "ed" && (3 <? String.length token)%nat then
    JsString.sliceEnd token 2
  else if JsString.endsWith token "s" && (3 <? String.length token)%nat then
    JsString.sliceEnd token 1
  else token.

(** [text.toLowerCase().replace(/[^a-z0-9\s]/g, ' ')] *)
Definition cleanChar (c : ascii) : ascii :=
  if JsString.isLowerAlnum c || JsString.isSpace c then c else " "%char.

Definition tokenize (text : string) : list string :=
  let cleaned := JsString.mapChars cleanChar (JsString.toLowerCase text) in
  let rawTokens :=
    filter (fun t => (0 <? String.length t)%nat) (JsString.splitWhitespace cleaned) in
  let processed :=
    map simpleStem (filter (fun t => negb (isStopWord t)) rawTokens) in
  processed.

(** ** Insertion-ordered collections *)

(** [Set<string>]: a duplicate-free list in insertion order. *)
Module JsSet.

Definition t := list string.

Definition has (s : t) (x : string) : bool := existsb (String.eqb x) s.

Definition add (s : t) (x : string) : t := if has s x then s else (s ++ [x])%list.

(** [new Set(iterable)] *)
Definition ofList (l : list string) : t := fold_left add l [].

Definition size (s : t) : nat := List.length s.

End JsSet.

(** [Map<string, V>]: an association list in insertion order; [set] on a
    key already present overwrites its value in place. *)
Module JsMap.

Section WithValue.
Context {V : Type}.

Definition t := list (string * V).

Fixpoint get (m : t) (k : string) : option V :=
  match m with
  | [] => None
  | (k', v) :: r => if k' =? k then Some v else get r k
  end.

Fixpoint set (m : t) (k : string) (v : V) : t :=
  match m with
  | [] => [(k, v)]
  | (k', v') :: r => if k' =? k then (k', v) :: r else (k', v') :: set r k v
  end.

Definition keys (m : t) : list string := map fst m.

Definition entries (m : t) : list (string * V) := m.

End WithValue.

Arguments t : clear implicits.

End JsMap.

(** [x ?? d] *)
Definition nullish {T : Type} (x : option T) (d : T) : T :=
  match x with Some v => v | None => d end.

(** [Array.prototype.sort(cmp)]: the stable sort; [a] stays in front of a
    later [b] unless [cmp(a, b) > 0]. *)
Section Sort.
Context {A : Type} (cmp : A -> A -> Q).

Fixpoint sortInsert (x : A) (l : list A) : list A :=
  match l with
  | [] => [x]
  | y :: r => if Qle_bool (cmp x y) 0 then x :: l else y :: sortInsert x r
  end.

Fixpoint sortBy (l : list A) : list A :=
  match l with
  | [] => []
  | x :: r => sortInsert x (sortBy r)
  end.
End Sort.

(** ** The data model *)

(** [number] *)
Abbreviation number := Q (only parsing).

Inductive Lens := GIVEN | CHOSEN | CORE.

Record TagItem := mkTagItem { value : string; weight : number }.

(** [Record<Lens, T>] *)
Record PerLens (T : Type) := mkPerLens { given : T; chosen : T; core : T }.
Arguments mkPerLens {T}.
Arguments given {T}.
Arguments chosen {T}.
Arguments core {T}.

Definition getLens {T} (r : PerLens T) (l : Lens) : T :=
  match l with GIVEN => given r | CHOSEN => chosen r | CORE => core r end.

Definition setLens {T} (r : PerLens T) (l : Lens) (v : T) : PerLens T :=
  match l with
  | GIVEN => mkPerLens v (chosen r) (core r)
  | CHOSEN => mkPerLens (given r) v (core r)
  | CORE => mkPerLens (given r) (chosen r) v
  end.

(** The fields are read through [?? []], so a lens may be absent. *)
Record Identity := mkIdentity {
  tags : PerLens (option (list TagItem));
  texts : PerLens (option (list string))
}.

Record LensSimilarityResult := mkLensSimilarityResult {
  score : number;
  overlapTags : list string;
  uniqueToA : list string;
  uniqueToB : list string;
  topWeights : list string
}.

Record SimilarityResult := mkSimilarityResult {
  scores : PerLens number;
  scoreOverall : number;
  explanations : PerLens LensSimilarityResult
}.

(** ** Weighted Jaccard over tags *)

Open Scope Q_scope.

(** [item.value.trim().toLowerCase()] *)
Definition tagKey (item : TagItem) : string :=
  JsString.toLowerCase (JsString.trim (value item)).

(** One turn of the loop that fills [mapA] or [mapB]. *)
Definition collapseStep (m : JsMap.t number) (item : TagItem) : JsMap.t number :=
  let key := tagKey item in
  JsMap.set m key (Qmax (nullish (JsMap.get m key) 0) (weight item)).

Definition collapse (items : list TagItem) : JsMap.t number :=
  fold_left collapseStep items [].

(** [new Set([...mapA.keys(), ...mapB.keys()])] *)
Definition allKeysOf (mapA mapB : JsMap.t number) : JsSet.t :=
  JsSet.ofList (JsMap.keys mapA ++ JsMap.keys mapB).

(** [mapX.get(key) ?? 0] *)
Definition weightIn (m : JsMap.t number) (key : string) : number :=
  nullish (JsMap.get m key) 0.

(** One turn of the loop over [allKeys]; the state is
    [(numerator, denominator)]. *)
Definition jaccardStep (mapA mapB : JsMap.t number)
    (st : number * number) (key : string) : number * number :=
  let wA := weightIn mapA key in
  let wB := weightIn mapB key in
  (fst st + Qmin wA wB, snd st + Qmax wA wB).

Definition weightedJaccard (a b : list TagItem) : number :=
  let mapA := collapse a in
  let mapB := collapse b in
  let allKeys := allKeysOf mapA mapB in
  if (JsSet.size allKeys =? 0)%nat then 0 else
  let '(numerator, denominator) :=
    fold_left (jaccardStep mapA mapB) allKeys (0, 0) in
  if Qeq_bool denominator 0 then 0 else numerator / denominator.

(** ** Jaccard over tokens *)

Definition ofNat (n : nat) : number := inject_Z (Z.of_nat n).

Definition textJaccard (aTokens bTokens : list string) : number :=
  let setA := JsSet.ofList aTokens in
  let setB := JsSet.ofList bTokens in
  if (JsSet.size setA =? 0)%nat && (JsSet.size setB =? 0)%nat then 0 else
  let intersection :=
    fold_left (fun n t => if JsSet.has setB t then S n else n) setA 0%nat in
  let unionSize := JsSet.size (JsSet.ofList (setA ++ setB)) in
  if (unionSize =? 0)%nat then 0 else ofNat intersection / ofNat unionSize.

(** ** One lens *)

Definition computeLensSimilarity
    (a : list TagItem) (aTexts : list string)
    (b : list TagItem) (bTexts : list string) : number :=
  let jw := weightedJaccard a b in
  let tj := textJaccard aTexts bTexts in
  0.7 * jw + 0.3 * tj.

Record Explanation := mkExplanation {
  overlap : list string;
  uniqueA : list string;
  uniqueB : list string;
  expTopWeights : list string
}.

(** The state of the classification loop of [explainLens]. *)
Record ExplainState := mkExplainState {
  es_overlap : list string;
  es_uniqueA : list string;
  es_uniqueB : list string;
  es_weightMap : JsMap.t number
}.

Definition Qpositive (x : number) : bool := negb (Qle_bool x 0).

Definition explainStep (mapA mapB : JsMap.t number)
    (st : ExplainState) (key : string) : ExplainState :=
  let wA := weightIn mapA key in
  let wB := weightIn mapB key in
  let st' :=
    if Qpositive wA && Qpositive wB then
      mkExplainState (es_overlap st ++ [key]) (es_uniqueA st) (es_uniqueB st)
                     (es_weightMap st)
    else if Qpositive wA then
      mkExplainState (es_overlap st) (es_uniqueA st ++ [key]) (es_uniqueB st)
                     (es_weightMap st)
    else
      mkExplainState (es_overlap st) (es_uniqueA st) (es_uniqueB st ++ [key])
                     (es_weightMap st) in
  mkExplainState (es_overlap st') (es_uniqueA st') (es_uniqueB st')
                 (JsMap.set (es_weightMap st') key (Qmax wA wB)).

(** The comparator [([, w1], [, w2]) => w2 - w1]. *)
Definition byWeightDesc (e1 e2 : string * number) : number := snd e2 - snd e1.

Definition explainLens (a b : list TagItem) : Explanation :=
  let mapA := collapse a in
  let mapB := collapse b in
  let allKeys := allKeysOf mapA mapB in
  let st := fold_left (explainStep mapA mapB) allKeys
                      (mkExplainState [] [] [] []) in
  let topWeights :=
    map fst (firstn 3 (sortBy byWeightDesc (JsMap.entries (es_weightMap st)))) in
  mkExplanation (es_overlap st) (es_uniqueA st) (es_uniqueB st) topWeights.

(** ** All three lenses *)

Definition lensWeights : PerLens number := mkPerLens 0.8 1.0 1.2.

(** What the [forEach] callback of [computeSimilarity] updates. *)
Record LoopState := mkLoopState {
  ls_scores : PerLens number;
  ls_explanations : PerLens LensSimilarityResult;
  weightedSum : number;
  weightTotal : number
}.

Definition emptyLensResult : LensSimilarityResult :=
  mkLensSimilarityResult 0 [] [] [] [].

Definition initialLoopState : LoopState :=
  mkLoopState (mkPerLens 0 0 0)
              (mkPerLens emptyLensResult emptyLensResult emptyLensResult)
              0 0.

(** [a.tags[lens] ?? []] *)
Definition tagsOf (a : Identity) (lens : Lens) : list TagItem :=
  nullish (getLens (tags a) lens) [].

(** [a.texts[lens] ?? []] *)
Definition textsOf (a : Identity) (lens : Lens) : list string :=
  nullish (getLens (texts a) lens) [].

(** [(a.texts[lens] ?? []).flatMap((t) => tokenize(t))] *)
Definition tokensOf (a : Identity) (lens : Lens) : list string :=
  flat_map tokenize (textsOf a lens).

Definition lensStep (a b : Identity) (st : LoopState) (lens : Lens) : LoopState :=
  let aTags := tagsOf a lens in
  let bTags := tagsOf b lens in
  let aTexts := tokensOf a lens in
  let bTexts := tokensOf b lens in
  let score := computeLensSimilarity aTags aTexts bTags bTexts in
  let exp := explainLens aTags bTags in
  mkLoopState
    (setLens (ls_scores st) lens score)
    (setLens (ls_explanations st) lens
       (mkLensSimilarityResult score (overlap exp) (uniqueA exp) (uniqueB exp)
                               (expTopWeights exp)))
    (weightedSum st + score * getLens lensWeights lens)
    (weightTotal st + getLens lensWeights lens).

Definition computeSimilarity (a b : Identity) : SimilarityResult :=
  let st := fold_left (lensStep a b) [GIVEN; CHOSEN; CORE] initialLoopState in
  let scoreOverall :=
    if Qeq_bool (weightTotal st) 0 then 0 else weightedSum st / weightTotal st in
  mkSimilarityResult (ls_scores st) scoreOverall (ls_explanations st).

(** ** The data model's invariant

    A tag weight is an integer from 1 to 3; the engine does not check it.
    [validWeight] keeps the bounds only, which is all that the bounds of
    the scores and the explanations depend on; [integerWeight] below is
    the invariant itself, for what depends on sums being exact. *)

Definition validWeight (w : number) : Prop := 1 <= w /\ w <= 3.

Definition validTags (l : list TagItem) : Prop :=
  Forall (fun item => validWeight (weight item)) l.

Definition validIdentity (a : Identity) : Prop :=
  forall lens, validTags (tagsOf a lens).

(** In the data model a weight is one of the integers 1, 2 and 3.  Sums of
    such weights are whole numbers far below 2^53, which doubles hold
    exactly, in whatever order they are formed. *)
Definition integerWeight (w : number) : Prop := w = 1 \/ w = 2 \/ w = 3.

Definition integerTags (l : list TagItem) : Prop :=
  Forall (fun item => integerWeight (weight item)) l.

Definition integerIdentity (a : Identity) : Prop :=
  forall lens, integerTags (tagsOf a lens).

(** ** The documented behaviour, written from the specification

    These definitions follow the wording of the specification and use
    nothing of the embedding of the code above: the character classes are
    listed, lowercasing is a table of letters, trimming drops whitespace
    from both ends of the list of characters.  The theorems below compare
    the code with them. *)

Module Spec.

(** *** Characters *)

Definition smallLetters : list ascii :=
  list_ascii_of_string "abcdefghijklmnopqrstuvwxyz".

Definition capitalLetters : list ascii :=
  list_ascii_of_string "ABCDEFGHIJKLMNOPQRSTUVWXYZ".

Definition digits : list ascii := list_ascii_of_string "0123456789".

(** The accented capital letters of Latin-1 (192 to 214 and 216 to 222)
    and their small letters (224 to 246 and 248 to 254), in the same
    order. *)
Definition accentedCapitals : list ascii :=
  map ascii_of_nat (seq 192 23 ++ seq 216 7)%list.

Definition accentedSmalls : list ascii :=
  map ascii_of_nat (seq 224 23 ++ seq 248 7)%list.

(** Every capital letter with its small letter. *)
Definition letterCase : list (ascii * ascii) :=
  combine (capitalLetters ++ accentedCapitals)%list
          (smallLetters ++ accentedSmalls)%list.

Definition isCapital (c : ascii) : bool :=
  existsb (fun p => Ascii.eqb (fst p) c) letterCase.

Definition lowerOf (c : ascii) : ascii :=
  match find (fun p => Ascii.eqb (fst p) c) letterCase with
  | Some p => snd p
  | None => c
  end.

(** Whitespace: TAB, LF, VT, FF, CR, the space and the no-break space. *)
Definition whitespace : list ascii :=
  map ascii_of_nat [9; 10; 11; 12; 13; 32; 160]%nat.

Definition isWhitespace (c : ascii) : bool := existsb (Ascii.eqb c) whitespace.

(** The class [[a-z0-9]]. *)
Definition isAlnum (c : ascii) : bool :=
  existsb (Ascii.eqb c) (smallLetters ++ digits)%list.

(** *** Strings *)

(** The string with every capital letter replaced by its small letter. *)
Fixpoint lowercase (s : string) : string :=
  match s with
  | EmptyString => EmptyString
  | String c r => String (lowerOf c) (lowercase r)
  end.

(** A string is lowercase when it holds no capital letter. *)
Fixpoint isLowercase (s : string) : bool :=
  match s with
  | EmptyString => true
  | String c r => negb (isCapital c) && isLowercase r
  end.

Fixpoint dropWhitespace (l : list ascii) : list ascii :=
  match l with
  | [] => []
  | c :: r => if isWhitespace c then dropWhitespace r else l
  end.

(** The string without the whitespace at its two ends. *)
Definition trimmed (s : string) : string :=
  string_of_list_ascii
    (rev (dropWhitespace (rev (dropWhitespace (list_ascii_of_string s))))).

(** *** Tokenizer *)

(** A character outside [[a-z0-9]] and whitespace becomes a space. *)
Definition blank (c : ascii) : ascii :=
  if isAlnum c then c
  else if isWhitespace c then c
  else " "%char.

Fixpoint blanked (s : string) : string :=
  match s with
  | EmptyString => EmptyString
  | String c r => String (blank c) (blanked r)
  end.

(** The maximal runs of non-whitespace of a string, left to right. *)
Fixpoint words (s : string) : list string :=
  match s with
  | EmptyString => []
  | String c r =>
      if isWhitespace c then words r
      else
        match r with
        | EmptyString => [String c EmptyString]
        | String c' _ =>
            if isWhitespace c' then String c EmptyString :: words r
            else
              match words r with
              | w :: ws => String c w :: ws
              | [] => [String c EmptyString]
              end
        end
  end.

(** [stripSuffix suf t] is [Some p] exactly when [t] is [p] followed by
    [suf]. *)
Fixpoint stripSuffix (suf t : string) : option string :=
  if (t =? suf)%string then Some EmptyString
  else
    match t with
    | EmptyString => None
    | String c r => option_map (String c) (stripSuffix suf r)
    end.

(** One stemming rule: strip the trailing [suf] of a token longer than
    [minLen]. *)
Definition rule (suf : string) (minLen : nat) (t : string) : option string :=
  if (minLen <? String.length t)%nat then stripSuffix suf t else None.

Definition stem (t : string) : string :=
  match rule "ing" 4 t with
  | Some p => p
  | None =>
      match rule "ed" 3 t with
      | Some p => p
      | None =>
          match rule "s" 3 t with
          | Some p => p
          | None => t
          end
      end
  end.

Definition stopwords : list string :=
  [ "the"; "a"; "an"; "and"; "or"; "but"; "if"; "on"; "in"; "with"; "to";
    "for"; "of"; "by"; "is"; "are"; "am"; "be"; "was"; "were"; "this";
    "that" ]%string.

Definition isStop (t : string) : bool :=
  if in_dec string_dec t stopwords then true else false.

Definition tokens (text : string) : list string :=
  map stem
    (filter (fun t => negb (isStop t)) (words (blanked (lowercase text)))).

(** *** Weighted Jaccard *)

(** The key of a tag: its value, trimmed and lowercased. *)
Definition key (item : TagItem) : string := lowercase (trimmed (value item)).

(** The weights a tag list gives to the key [k], in order. *)
Definition weightsOf (k : string) (l : list TagItem) : list number :=
  map weight (filter (fun item => (key item =? k)%string) l).

Definition maximum (ws : list number) : option number :=
  match ws with
  | [] => None
  | w :: r => Some (fold_left Qmax r w)
  end.

(** The collapsed map: the maximum weight among the duplicates of [k],
    nothing when [k] does not occur. *)
Definition maxWeight (l : list TagItem) (k : string) : option number :=
  maximum (weightsOf k l).

(** An absent key counts as weight 0. *)
Definition weightOrZero (l : list TagItem) (k : string) : number :=
  match maxWeight l k with Some w => w | None => 0 end.

(** The union of the keys of both sides. *)
Definition unionKeys (a b : list TagItem) : list string :=
  nodup string_dec (map key a ++ map key b).

Definition sumOver (f : string -> number) (ks : list string) : number :=
  fold_right (fun k s => f k + s) 0 ks.

Definition numerator (a b : list TagItem) : number :=
  sumOver (fun k => Qmin (weightOrZero a k) (weightOrZero b k)) (unionKeys a b).

Definition denominator (a b : list TagItem) : number :=
  sumOver (fun k => Qmax (weightOrZero a k) (weightOrZero b k)) (unionKeys a b).

Definition weightedJaccard (a b : list TagItem) : number :=
  match unionKeys a b with
  | [] => 0
  | _ => numerator a b / denominator a b
  end.

End Spec.

(** ** Sample data *)

Module Sample.

(** The worked example: A = {music:3, sports:2}, B = {music:1, travel:2}. *)
Definition tagsA : list TagItem :=
  [mkTagItem "music" 3; mkTagItem "sports" 2].
Definition tagsB : list TagItem :=
  [mkTagItem "music" 1; mkTagItem "travel" 2].

(** An identity with tags in every lens and no text at all. *)
Definition tagsOnly : Identity :=
  mkIdentity
    (mkPerLens (Some [mkTagItem "music" 2]) (Some [mkTagItem "runner" 3])
               (Some [mkTagItem "kind" 1]))
    (mkPerLens (Some []) (Some []) (Some [])).

(** Two identities from the test suite of the repository. *)
Definition identityA : Identity :=
  mkIdentity
    (mkPerLens (Some [mkTagItem "music" 2; mkTagItem "art" 1])
               (Some [mkTagItem "runner" 3]) (Some []))
    (mkPerLens (Some ["Loves jazz and painting"%string])
               (Some ["Runs marathons every year"%string]) (Some [])).

Definition identityB : Identity :=
  mkIdentity
    (mkPerLens (Some [mkTagItem "music" 1; mkTagItem "sports" 2])
               (Some [mkTagItem "reader" 2]) (Some []))
    (mkPerLens (Some ["Enjoys music and painting"%string])
               (Some ["Reading fiction"%string]) (Some [])).

(** Two identities whose three lens scores are all one half: the tag
    weights 1 and 2 on one shared key, and one shared token out of two. *)
Definition halfA : Identity :=
  let t := Some [mkTagItem "x" 1] in
  let s := Some ["jazz"%string] in
  mkIdentity (mkPerLens t t t) (mkPerLens s s s).

Definition halfB : Identity :=
  let t := Some [mkTagItem "x" 2] in
  let s := Some ["jazz piano"%string] in
  mkIdentity (mkPerLens t t t) (mkPerLens s s s).

(** Tag values that agree only once trimmed and lowercased, one of them
    twice: again {music:3, sports:2} against {music:1, travel:2}. *)
Definition rawA : list TagItem :=
  [mkTagItem "  Music " 1; mkTagItem "MUSIC" 3; mkTagItem "Sports" 2].
Definition rawB : list TagItem :=
  [mkTagItem "music" 1; mkTagItem " travel" 2].

(** Tag lists outside the data model: a negative weight, and a weight 0. *)
Definition negativeA : list TagItem :=
  [mkTagItem "x" (-1 # 1); mkTagItem "y" 2].
Definition negativeB : list TagItem := [mkTagItem "y" 2].

Definition zeroA : list TagItem := [mkTagItem "x" 0].
Definition zeroB : list TagItem := [mkTagItem "y" 2].

(** An identity with nothing in the CORE lens. *)
Definition emptyCore : Identity :=
  mkIdentity (mkPerLens (Some [mkTagItem "music" 2]) None (Some []))
             (mkPerLens (Some ["Loves jazz"%string]) None (Some [])).

End Sample.

(** ** Binary64

    The arithmetic of IEEE 754 doubles, rounding to nearest even, and the
    closed arithmetic of the engine on the literals 0.7, 0.3, 0.8, 1.0
    and 1.2. *)

Module Binary64.

Definition prec : Z := 53.
Definition emax : Z := 1024.

Definition add : spec_float -> spec_float -> spec_float := SFadd prec emax.
Definition mul : spec_float -> spec_float -> spec_float := SFmul prec emax.
Definition div : spec_float -> spec_float -> spec_float := SFdiv prec emax.

Definition ofZ (n : Z) : spec_float := binary_normalize prec emax n 0 false.

(** The double a decimal literal [n/d] denotes: the one nearest to it. *)
Definition literal (n d : Z) : spec_float := div (ofZ n) (ofZ d).

(** [0.7 * jw + 0.3 * tj] *)
Definition blend (jw tj : spec_float) : spec_float :=
  add (mul (literal 7 10) jw) (mul (literal 3 10) tj).

(** The accumulation of [weightTotal] over GIVEN, CHOSEN, CORE. *)
Definition weightTotal : spec_float :=
  add (add (add (ofZ 0) (literal 8 10)) (literal 10 10)) (literal 12 10).

(** The accumulation of [weightedSum] and the final quotient. *)
Definition overall (sGiven sChosen sCore : spec_float) : spec_float :=
  let weightedSum :=
    add (add (add (ofZ 0) (mul sGiven (literal 8 10)))
             (mul sChosen (literal 10 10)))
        (mul sCore (literal 12 10)) in
  if SFeqb weightTotal (ofZ 0) then ofZ 0 else div weightedSum weightTotal.

End Binary64.

(** ** The engine in binary64

    The same functions with [number] read as an IEEE 754 double: every
    [+], [*] and [/] rounds to nearest even, [0 / 0] is NaN, and a sum is
    formed in the order in which its loop visits the keys.  The
    explanations are left to the model above: [Math.max], the comparison
    with 0 and the sign of a difference are exact in doubles. *)

Module Doubles.

(** The literal [0]. *)
Definition zero : spec_float := S754_zero false.

(** [Math.max(x, y)] and [Math.min(x, y)]: NaN when an argument is NaN,
    and [-0] counts as smaller than [+0]. *)
Definition max (x y : spec_float) : spec_float :=
  match SFcompare x y with
  | None => S754_nan
  | Some Lt => y
  | Some Gt => x
  | Some Eq => match x with S754_zero true => y | _ => x end
  end.

Definition min (x y : spec_float) : spec_float :=
  match SFcompare x y with
  | None => S754_nan
  | Some Lt => x
  | Some Gt => y
  | Some Eq => match x with S754_zero false => y | _ => x end
  end.

Record TagItem := mkTagItem { value : string; weight : spec_float }.

Record Identity := mkIdentity {
  tags : PerLens (option (list TagItem));
  texts : PerLens (option (list string))
}.

(** The numbers of a [SimilarityResult]. *)
Record SimilarityResult := mkSimilarityResult {
  scores : PerLens spec_float;
  scoreOverall : spec_float
}.

Definition tagKey (item : TagItem) : string :=
  JsString.toLowerCase (JsString.trim (value item)).

Definition collapseStep (m : JsMap.t spec_float) (item : TagItem)
    : JsMap.t spec_float :=
  let key := tagKey item in
  JsMap.set m key (max (nullish (JsMap.get m key) zero) (weight item)).

Definition collapse (items : list TagItem) : JsMap.t spec_float :=
  fold_left collapseStep items [].

Definition allKeysOf (mapA mapB : JsMap.t spec_float) : JsSet.t :=
  JsSet.ofList (JsMap.keys mapA ++ JsMap.keys mapB).

Definition weightIn (m : JsMap.t spec_float) (key : string) : spec_float :=
  nullish (JsMap.get m key) zero.

Definition jaccardStep (mapA mapB : JsMap.t spec_float)
    (st : spec_float * spec_float) (key : string) : spec_float * spec_float :=
  let wA := weightIn mapA key in
  let wB := weightIn mapB key in
  (Binary64.add (fst st) (min wA wB), Binary64.add (snd st) (max wA wB)).

Definition weightedJaccard (a b : list TagItem) : spec_float :=
  let mapA := collapse a in
  let mapB := collapse b in
  let allKeys := allKeysOf mapA mapB in
  if (JsSet.size allKeys =? 0)%nat then zero else
  let '(numerator, denominator) :=
    fold_left (jaccardStep mapA mapB) allKeys (zero, zero) in
  if SFeqb denominator zero then zero
  else Binary64.div numerator denominator.

(** A count, as a double. *)
Definition ofNat (n : nat) : spec_float := Binary64.ofZ (Z.of_nat n).

Definition textJaccard (aTokens bTokens : list string) : spec_float :=
  let setA := JsSet.ofList aTokens in
  let setB := JsSet.ofList bTokens in
  if (JsSet.size setA =? 0)%nat && (JsSet.size setB =? 0)%nat then zero else
  let intersection :=
    fold_left (fun n t => if JsSet.has setB t then S n else n) setA 0%nat in
  let unionSize := JsSet.size (JsSet.ofList (setA ++ setB)) in
  if (unionSize =? 0)%nat then zero
  else Binary64.div (ofNat intersection) (ofNat unionSize).

Definition computeLensSimilarity
    (a : list TagItem) (aTexts : list string)
    (b : list TagItem) (bTexts : list string) : spec_float :=
  let jw := weightedJaccard a b in
  let tj := textJaccard aTexts bTexts in
  Binary64.add (Binary64.mul (Binary64.literal 7 10) jw)
               (Binary64.mul (Binary64.literal 3 10) tj).

Definition lensWeights : PerLens spec_float :=
  mkPerLens (Binary64.literal 8 10) (Binary64.literal 10 10)
            (Binary64.literal 12 10).

Record LoopState := mkLoopState {
  ls_scores : PerLens spec_float;
  weightedSum : spec_float;
  weightTotal : spec_float
}.

Definition initialLoopState : LoopState :=
  mkLoopState (mkPerLens zero zero zero) zero zero.

Definition tagsOf (a : Identity) (lens : Lens) : list TagItem :=
  nullish (getLens (tags a) lens) [].

Definition textsOf (a : Identity) (lens : Lens) : list string :=
  nullish (getLens (texts a) lens) [].

Definition tokensOf (a : Identity) (lens : Lens) : list string :=
  flat_map tokenize (textsOf a lens).

Definition lensStep (a b : Identity) (st : LoopState) (lens : Lens) : LoopState :=
  let aTags := tagsOf a lens in
  let bTags := tagsOf b lens in
  let aTexts := tokensOf a lens in
  let bTexts := tokensOf b lens in
  let score := computeLensSimilarity aTags aTexts bTags bTexts in
  mkLoopState
    (setLens (ls_scores st) lens score)
    (Binary64.add (weightedSum st)
                  (Binary64.mul score (getLens lensWeights lens)))
    (Binary64.add (weightTotal st) (getLens lensWeights lens)).

Definition computeSimilarity (a b : Identity) : SimilarityResult :=
  let st := fold_left (lensStep a b) [GIVEN; CHOSEN; CORE] initialLoopState in
  let scoreOverall :=
    if SFeqb (weightTotal st) zero then zero
    else Binary64.div (weightedSum st) (weightTotal st) in
  mkSimilarityResult (ls_scores st) scoreOverall.

(** [x == y] on numbers. *)
Definition equal (x y : spec_float) : bool := SFeqb x y.

(** The double a rational literal denotes: the nearest one. *)
Definition ofQ (q : Q) : spec_float :=
  Binary64.literal (Qnum q) (Zpos (Qden q)).

End Doubles.

(** An identity of the model above, as the doubles the engine receives. *)
Definition tagInDoubles (item : TagItem) : Doubles.TagItem :=
  Doubles.mkTagItem (value item) (Doubles.ofQ (weight item)).

Definition inDoubles (a : Identity) : Doubles.Identity :=
  Doubles.mkIdentity
    (mkPerLens (option_map (map tagInDoubles) (given (tags a)))
               (option_map (map tagInDoubles) (chosen (tags a)))
               (option_map (map tagInDoubles) (core (tags a))))
    (texts a).

(** Two identities whose weights are not whole numbers: 3 and 2.2 against
    1.6 and 1.3, in the GIVEN lens. *)
Module FractionalSample.

Definition identityA : Identity :=
  mkIdentity
    (mkPerLens (Some [mkTagItem "x" 3; mkTagItem "y" 2.2]) (Some []) (Some []))
    (mkPerLens (Some []) (Some []) (Some [])).

Definition identityB : Identity :=
  mkIdentity
    (mkPerLens (Some [mkTagItem "z" 1.6; mkTagItem "x" 1.3]) (Some []) (Some []))
    (mkPerLens (Some []) (Some []) (Some [])).

End FractionalSample.

(** ** Auxiliary definitions of the proofs *)

(** The maximal runs of non-whitespace of a string, in terms of the class
    [\s] of the code. *)
Fixpoint runs (s : string) : list string :=
  match s with
  | EmptyString => []
  | String c r =>
      if JsString.isSpace c then runs r
      else
        match r with
        | EmptyString => [String c EmptyString]
        | String c' _ =>
            if JsString.isSpace c' then String c EmptyString :: runs r
            else
              match runs r with
              | w :: ws => String c w :: ws
              | [] => [String c EmptyString]
              end
        end
  end.

Definition nonEmpty (t : string) : bool := (0 <? String.length t)%nat.

Definition flush (cur : string) : list string :=
  if nonEmpty cur then [cur] else [].

Definition prependHead (cur : string) (l : list string) : list string :=
  match l with
  | w :: ws => (cur ++ w)%string :: ws
  | [] => [cur]
  end.

(** What the scan of [split] yields from the piece [cur] onwards, in terms
    of [runs]. *)
Definition joined (cur s : string) : list string :=
  match s with
  | EmptyString => flush cur
  | String c _ =>
      if JsString.isSpace c then (flush cur ++ runs s)%list
      else prependHead cur (runs s)
  end.

(** The sum [acc + f k1 + ... + f kn], in the order a loop forms it. *)
Definition sumFrom (acc : number) (ks : list string) (f : string -> number) : number :=
  fold_left (fun s k => s + f k) ks acc.

(** The summands of the numerator and of the denominator. *)
Definition minW (mapA mapB : JsMap.t number) (key : string) : number :=
  Qmin (weightIn mapA key) (weightIn mapB key).

Definition maxW (mapA mapB : JsMap.t number) (key : string) : number :=
  Qmax (weightIn mapA key) (weightIn mapB key).

(** The numerator and the denominator [weightedJaccard] reaches after its
    loop, as sums over the key set. *)
Definition numeratorOf (a b : list TagItem) : number :=
  Spec.sumOver (minW (collapse a) (collapse b))
               (allKeysOf (collapse a) (collapse b)).

Definition denominatorOf (a b : list TagItem) : number :=
  Spec.sumOver (maxW (collapse a) (collapse b))
               (allKeysOf (collapse a) (collapse b)).

(** The members of the first token set that the second one has. *)
Definition common (aTokens bTokens : list string) : list string :=
  filter (JsSet.has (JsSet.ofList bTokens)) (JsSet.ofList aTokens).

Definition unionSet (aTokens bTokens : list string) : JsSet.t :=
  JsSet.ofList (JsSet.ofList aTokens ++ JsSet.ofList bTokens).

(** The score [computeSimilarity] gives to one lens. *)
Definition lensScore (a b : Identity) (lens : Lens) : number :=
  computeLensSimilarity (tagsOf a lens) (tokensOf a lens)
                        (tagsOf b lens) (tokensOf b lens).

(** The three classes [explainLens] sorts the keys into, and the entry it
    records in [weightMap]. *)
Definition inBoth (mapA mapB : JsMap.t number) (key : string) : bool :=
  Qpositive (weightIn mapA key) && Qpositive (weightIn mapB key).

Definition onlyInA (mapA mapB : JsMap.t number) (key : string) : bool :=
  negb (inBoth mapA mapB key) && Qpositive (weightIn mapA key).

Definition notInA (mapA mapB : JsMap.t number) (key : string) : bool :=
  negb (inBoth mapA mapB key) && negb (Qpositive (weightIn mapA key)).

Definition weightEntry (mapA mapB : JsMap.t number) (key : string) : string * number :=
  (key, maxW mapA mapB key).

(** The order [byWeightDesc] sorts into. *)
Definition heavierFirst (e1 e2 : string * number) : Prop := snd e2 <= snd e1.

(** What is documented of [weightedJaccard a b]: each side collapses to
    the map from the trimmed, lowercased value to the maximum weight among
    the duplicates; the result is 0 when the union of the keys is empty
    and otherwise the sum of the minima over the sum of the maxima, an
    absent key weighing 0. *)
Definition weightedJaccardDocumented (a b : list TagItem) : Prop :=
  (forall k, JsMap.get (collapse a) k = Spec.maxWeight a k)
  /\ (forall k, JsMap.get (collapse b) k = Spec.maxWeight b k)
  /\ (Spec.unionKeys a b = [] -> weightedJaccard a b = 0)
  /\ (Spec.unionKeys a b <> [] ->
      weightedJaccard a b == Spec.numerator a b / Spec.denominator a b).

(** What is documented of [explainLens a b], with each side collapsed to
    its key -> maximum-weight map: the overlap is the keys present with
    positive weight on both sides; the keys unique to a side are the keys
    present on that side only; the top weights are at most 3 keys of the
    union, in descending order of the larger of the two weights; every
    list is duplicate-free and holds lowercase keys. *)
Definition explainLensDocumented (a b : list TagItem) : Prop :=
  let e := explainLens a b in
  let heaviest k := Qmax (Spec.weightOrZero a k) (Spec.weightOrZero b k) in
  (forall k, In k (overlap e) <->
             (exists wA, Spec.maxWeight a k = Some wA /\ 0 < wA)
             /\ (exists wB, Spec.maxWeight b k = Some wB /\ 0 < wB))
  /\ (forall k, In k (uniqueA e) <->
                Spec.maxWeight a k <> None /\ Spec.maxWeight b k = None)
  /\ (forall k, In k (uniqueB e) <->
                Spec.maxWeight b k <> None /\ Spec.maxWeight a k = None)
  /\ (length (expTopWeights e) <= 3)%nat
  /\ (forall k, In k (expTopWeights e) -> In k (Spec.unionKeys a b))
  /\ StronglySorted (fun k1 k2 => heaviest k2 <= heaviest k1) (expTopWeights e)
  /\ Forall (fun l => NoDup l /\ Forall (fun k => Spec.isLowercase k = true) l)
            [overlap e; uniqueA e; uniqueB e; expTopWeights e].

(** ** Auxiliary definitions of the comparison with binary64 *)

(** The double of a positive whole number below 2^53: its binary digits,
    shifted to fill the 53 bits of the mantissa. *)
Definition canon (q : positive) : spec_float :=
  let d := Zpos (digits2_pos q) in
  match (53 - d)%Z with
  | Zpos s => S754_finite false (Pos.iter xO q s) (d - 53)
  | _ => S754_finite false q 0
  end.

(** A map with [f] applied to every value. *)
Definition mapValues {V W : Type} (f : V -> W) (m : JsMap.t V) : JsMap.t W :=
  map (fun e => (fst e, f (snd e))) m.

(** One of the whole numbers 0 to 3: a collapsed weight of the data
    model, or the 0 of an absent key. *)
Definition whole (w : number) : Prop :=
  exists i : Z, (0 <= i <= 3)%Z /\ w = inject_Z i.

(** What the engine's guarded division returns, in doubles, for two whole
    numbers: 0 for a zero divisor, and the rounded quotient. *)
Definition quotientOf (n d : number) : spec_float :=
  if (Qfloor d =? 0)%Z then Doubles.zero
  else Binary64.div (Binary64.ofZ (Qfloor n)) (Binary64.ofZ (Qfloor d)).

(** Sizes for which counts and sums of weights stay below 2^53: fewer
    than 2^51 tags and fewer than 2^53 tokens in a lens. *)
Definition fewTags (a b : list TagItem) : Prop :=
  (Z.of_nat (length a) + Z.of_nat (length b) < 2 ^ 51)%Z.

Definition fewTokens (s t : list string) : Prop :=
  (Z.of_nat (length s) + Z.of_nat (length t) < 2 ^ 53)%Z.

Definition fewTagsIn (a b : Identity) : Prop :=
  forall lens, fewTags (tagsOf a lens) (tagsOf b lens).

Definition ordinarySize (a b : Identity) : Prop :=
  forall lens,
    fewTags (tagsOf a lens) (tagsOf b lens)
    /\ fewTokens (tokensOf a lens) (tokensOf b lens).

(** +0, a positive double or +infinity: not NaN, and not negative. *)
Definition nonNegative (x : spec_float) : Prop :=
  match x with
  | S754_zero false | S754_infinity false | S754_finite false _ _ => True
  | _ => False
  end.

(** The score [Doubles.computeSimilarity] gives to one lens. *)
Definition lensScoreInDoubles (a b : Doubles.Identity) (lens : Lens) : spec_float :=
  Doubles.computeLensSimilarity (Doubles.tagsOf a lens) (Doubles.tokensOf a lens)
                                (Doubles.tagsOf b lens) (Doubles.tokensOf b lens).

(** ** Auxiliary definitions of the further properties *)

(** Every code unit of [s] satisfies [p]. *)
Fixpoint allChars (p : ascii -> bool) (s : string) : bool :=
  match s with
  | EmptyString => true
  | String c r => p c && allChars p r
  end.

(** A token as the tokenizer leaves it: not empty, made of [[a-z0-9]]. *)
Definition cleanToken (t : string) : Prop :=
  t <> EmptyString /\ allChars JsString.isLowerAlnum t = true.

(** [texts.join(' ')] *)
Definition joinTexts (texts : list string) : string := String.concat " " texts.

(** The suffixes [simpleStem] can strip. *)
Definition stemSuffixes : list string := [ "ing"; "ed"; "s" ]%string.

(** A tag item with its value replaced by its key. *)
Definition normalizeTag (item : TagItem) : TagItem :=
  mkTagItem (tagKey item) (weight item).

(** A string that does not begin with whitespace. *)
Definition startsClean (s : string) : bool :=
  match s with
  | EmptyString => true
  | String c _ => negb (JsString.isSpace c)
  end.

(** A key in normal form: trimming and lowercasing leave it alone. *)
Definition isNormalKey (k : string) : Prop :=
  JsString.toLowerCase (JsString.trim k) = k.

(** [sub] lists some of the members of [l], in the order [l] has them. *)
Definition inOrderOf (sub l : list string) : Prop :=
  sub = filter (JsSet.has sub) l.

(** The entries whose weight equals [v]. *)
Definition tiedAt (v : number) (e : string * number) : bool := Qeq_bool (snd e) v.

(** ** The session code generator ([lib/codeGenerator.ts]) *)

Module CodeGenerator.

Definition alphabet : string := "ABCDEFGHJKLMNPQRSTUVWXYZ23456789".

(** [s.charAt(i)] at an integer position: the empty string out of range. *)
Definition charAt (s : string) (i : Z) : string :=
  if (i <? 0)%Z then EmptyString
  else
    match String.get (Z.to_nat i) s with
    | Some c => String c EmptyString
    | None => EmptyString
    end.

(** [x < y] on numbers. *)
Definition Qltb (x y : number) : bool := negb (Qle_bool y x).

(** The [for] loop.  [random i] is the value the [i]-th call of
    [Math.random()] returns; the loop makes one call per turn.  Since
    [safeLength] is at most 8 the loop leaves by its own test within 8
    turns, which is the fuel [generateSessionCode] gives it. *)
Fixpoint codeLoop (fuel : nat) (random : nat -> number) (safeLength : number)
    (i : nat) (code : string) : string :=
  match fuel with
  | O => code
  | S fuel' =>
      if Qltb (ofNat i) safeLength then
        codeLoop fuel' random safeLength (S i)
          (code ++ charAt alphabet
                     (Qfloor (random i * ofNat (String.length alphabet))))%string
      else code
  end.

(** [Math.min(Math.max(length, 6), 8)] *)
Definition safeLengthOf (length : number) : number := Qmin (Qmax length 6) 8.

(** [generateSessionCode(length = 6)]: [None] is the omitted argument. *)
Definition generateSessionCode (random : nat -> number) (length : option number) : string :=
  let length := nullish length 6 in
  let safeLength := safeLengthOf length in
  codeLoop 8 random safeLength 0 EmptyString.

(** [export const generateCode = generateSessionCode] *)
Definition generateCode := generateSessionCode.

(** The two lines of [POST /api/session] that pick the join code: one
    draw for the length, the following draws for the characters. *)
Definition routeSessionCode (random : nat -> number) : string :=
  let length := 6 + inject_Z (Qfloor (random 0%nat * 3)) in
  generateSessionCode (fun n => random (S n)) (Some length).

End CodeGenerator.

(** [Math.random()] returns a number in [[0,1)]. *)
Definition validRandom (random : nat -> number) : Prop :=
  forall n, 0 <= random n /\ random n < 1.

Definition inAlphabet (c : ascii) : bool :=
  existsb (Ascii.eqb c) (list_ascii_of_string CodeGenerator.alphabet).

(** The characters the generator is documented to avoid. *)
Definition ambiguousChars : list ascii := [ "0"; "O"; "1"; "I" ]%char.

(** A source of draws for the examples. *)
Definition sampleRandom (n : nat) : number := Qmake (Z.of_nat (n mod 7)) 7.

(** ** The People Map page ([app/map/page.tsx])

    The part of [load] that runs once both queries have answered, and
    [updateMatches].  The values handed to the state setters are the
    results; an exception ([TypeError] on a property of [undefined]) is the
    result [Thrown]. *)

Module MapPage.

Local Open Scope list_scope.

Record ParticipantInfo := mkParticipantInfo {
  id : string;
  display_name : string
}.

(** [{ participant, score: number | null }] *)
Record MatchResult := mkMatchResult {
  participant : ParticipantInfo;
  matchScore : option number
}.

Inductive Scope := overall | lensScope (lens : Lens).

(** A row of [identity_item]. *)
Record Item := mkItem {
  participant_id : string;
  item_lens : Lens;
  item_type : string;
  item_value : string;
  item_weight : number
}.

(** [{ overall, GIVEN, CHOSEN, CORE }] *)
Record SimEntry := mkSimEntry {
  simOverall : number;
  simLens : PerLens (option number)
}.

(** [participantRows.map((p) => p.id)], with [participantId] pushed when
    it is not included. *)
Definition idsOf (participantId : string) (participantRows : list ParticipantInfo)
    : list string :=
  let ids := map id participantRows in
  if existsb (String.eqb participantId) ids then ids else ids ++ [participantId].

Definition emptyIdentity : Identity :=
  mkIdentity (mkPerLens (Some []) (Some []) (Some []))
             (mkPerLens (Some []) (Some []) (Some [])).

(** [ids.forEach((id) => { identities[id] = {...} })] *)
Definition initIdentities (ids : list string) : JsMap.t Identity :=
  fold_left (fun identities i => JsMap.set identities i emptyIdentity) ids [].

(** One turn of [items.forEach]: the push into the participant's list.
    [None] is the [TypeError] of reading [identities[...]] when it is
    [undefined]. *)
Definition addItem (identities : JsMap.t Identity) (item : Item)
    : option (JsMap.t Identity) :=
  match JsMap.get identities (participant_id item) with
  | None => None
  | Some idn =>
      if (item_type item =? "tag")%string then
        match getLens (tags idn) (item_lens item) with
        | None => None
        | Some l =>
            Some (JsMap.set identities (participant_id item)
                    (mkIdentity
                       (setLens (tags idn) (item_lens item)
                          (Some (l ++ [mkTagItem (item_value item) (item_weight item)])))
                       (texts idn)))
        end
      else
        match getLens (texts idn) (item_lens item) with
        | None => None
        | Some l =>
            Some (JsMap.set identities (participant_id item)
                    (mkIdentity (tags idn)
                       (setLens (texts idn) (item_lens item)
                          (Some (l ++ [item_value item])))))
        end
  end.

Definition buildIdentities (ids : list string) (items : list Item)
    : option (JsMap.t Identity) :=
  fold_left
    (fun acc item =>
       match acc with Some identities => addItem identities item | None => None end)
    items (Some (initIdentities ids)).

(** [x && x.length > 0] *)
Definition nonEmptyArray {T} (x : option (list T)) : bool :=
  match x with Some l => (0 <? length l)%nat | None => false end.

(** [(i.tags[lens] && i.tags[lens].length > 0) ||
     (i.texts[lens] && i.texts[lens].length > 0)] *)
Definition hasItems (i : Identity) (lens : Lens) : bool :=
  nonEmptyArray (getLens (tags i) lens) || nonEmptyArray (getLens (texts i) lens).

(** The loop that fills [lensScores]. *)
Definition lensScoresOf (myIdentity other : Identity) (scores : PerLens number)
    : PerLens (option number) :=
  fold_left
    (fun lensScores lens =>
       let aHasItems := hasItems myIdentity lens in
       let bHasItems := hasItems other lens in
       if aHasItems || bHasItems
       then setLens lensScores lens (Some (getLens scores lens))
       else setLens lensScores lens None)
    [GIVEN; CHOSEN; CORE] (mkPerLens None None None).

Definition selectedScore (scope : Scope) (scoreOverall : number)
    (lensScores : PerLens (option number)) : option number :=
  match scope with
  | overall => Some scoreOverall
  | lensScope lens => getLens lensScores lens
  end.

(** One turn of [participantRows.forEach]; the state is
    [(simMap, matchList)]. *)
Definition rowStep (participantId : string) (scope : Scope)
    (identities : JsMap.t Identity) (myIdentity : Identity)
    (st : option (JsMap.t SimEntry * list MatchResult)) (p : ParticipantInfo)
    : option (JsMap.t SimEntry * list MatchResult) :=
  match st with
  | None => None
  | Some (simMap, matchList) =>
      if (id p =? participantId)%string then st
      else
        match JsMap.get identities (id p) with
        | None => None
        | Some other =>
            let r := computeSimilarity myIdentity other in
            let lensScores := lensScoresOf myIdentity other (scores r) in
            Some (JsMap.set simMap (id p) (mkSimEntry (scoreOverall r) lensScores),
                  matchList
                  ++ [mkMatchResult p (selectedScore scope (scoreOverall r) lensScores)])
        end
  end.

(** [null] counts as 0 in arithmetic. *)
Definition toNumber (x : option number) : number := nullish x 0.

Definition hasScore (m : MatchResult) : bool :=
  match matchScore m with Some _ => true | None => false end.

(** [(a, b) => b.score - a.score] and [(a, b) => a.score - b.score] *)
Definition byScoreDesc (a b : MatchResult) : number :=
  toNumber (matchScore b) - toNumber (matchScore a).

Definition byScoreAsc (a b : MatchResult) : number :=
  toNumber (matchScore a) - toNumber (matchScore b).

(** [updateMatches]: the lists given to [setTopSimilar] and
    [setTopDifferent]. *)
Definition updateMatches (list : Datatypes.list MatchResult)
    : Datatypes.list MatchResult * Datatypes.list MatchResult :=
  let valid := filter hasScore list in
  let sortedDesc := sortBy byScoreDesc valid in
  let sortedAsc := sortBy byScoreAsc valid in
  (firstn 3 sortedDesc, firstn 3 sortedAsc).

Inductive LoadResult :=
| Thrown
| NoIdentity
| Loaded (hasMyItems : PerLens bool) (similarities : JsMap.t SimEntry)
         (topSimilar topDifferent : list MatchResult).

Definition load (participantId : string) (scope : Scope)
    (participantRows : list ParticipantInfo) (items : list Item) : LoadResult :=
  let ids := idsOf participantId participantRows in
  match buildIdentities ids items with
  | None => Thrown
  | Some identities =>
      match JsMap.get identities participantId with
      | None => NoIdentity
      | Some myIdentity =>
          let myHas :=
            fold_left (fun myHas lens => setLens myHas lens (hasItems myIdentity lens))
                      [GIVEN; CHOSEN; CORE] (mkPerLens false false false) in
          match fold_left (rowStep participantId scope identities myIdentity)
                          participantRows (Some ([], [])) with
          | None => Thrown
          | Some (simMap, matchList) =>
              let '(topSimilar, topDifferent) := updateMatches matchList in
              Loaded myHas simMap topSimilar topDifferent
          end
      end
  end.

End MapPage.

Module MapSample.

Import MapPage.

Definition alice : ParticipantInfo := mkParticipantInfo "a" "Alice".
Definition bob : ParticipantInfo := mkParticipantInfo "b" "Bob".
Definition carol : ParticipantInfo := mkParticipantInfo "c" "Carol".

Definition rows : list ParticipantInfo := [alice; bob; carol].

(** The items of the seed script, with ids in place of the row ids. *)
Definition items : list Item :=
  [ mkItem "a" GIVEN "tag" "female" 2;
    mkItem "a" CHOSEN "text" "Alice loves hiking" 1;
    mkItem "a" CORE "tag" "introvert" 3;
    mkItem "b" GIVEN "tag" "male" 2;
    mkItem "b" CHOSEN "text" "Bob loves hiking" 1;
    mkItem "b" CORE "tag" "extrovert" 3;
    mkItem "c" GIVEN "tag" "female" 1 ]%string.

Definition matches : list MatchResult :=
  [ mkMatchResult alice (Some 0.5); mkMatchResult bob None;
    mkMatchResult carol (Some 0.25) ].

End MapSample.

Definition lensEqb (l1 l2 : Lens) : bool :=
  match l1, l2 with
  | GIVEN, GIVEN | CHOSEN, CHOSEN | CORE, CORE => true
  | _, _ => false
  end.

(** The rows of [items] that are tags, respectively texts, of participant
    [p] in [lens], in the order of the rows. *)
Definition isTagOf (p : string) (lens : Lens) (item : MapPage.Item) : bool :=
  (MapPage.participant_id item =? p)%string
  && lensEqb (MapPage.item_lens item) lens
  && (MapPage.item_type item =? "tag")%string.

Definition isTextOf (p : string) (lens : Lens) (item : MapPage.Item) : bool :=
  (MapPage.participant_id item =? p)%string
  && lensEqb (MapPage.item_lens item) lens
  && negb (MapPage.item_type item =? "tag")%string.

Definition tagsFor (p : string) (lens : Lens) (items : list MapPage.Item) : list TagItem :=
  map (fun item => mkTagItem (MapPage.item_value item) (MapPage.item_weight item))
      (filter (isTagOf p lens) items).

Definition textsFor (p : string) (lens : Lens) (items : list MapPage.Item) : list string :=
  map MapPage.item_value (filter (isTextOf p lens) items).

(** Every row belongs to one of the listed participants. *)
Definition itemsBelong (ids : list string) (items : list MapPage.Item) : Prop :=
  Forall (fun item => In (MapPage.participant_id item) ids) items.

(** What [identities] holds once the rows [done] are pushed. *)
Definition identitiesHold (ids : list string) (done : list MapPage.Item)
    (identities : JsMap.t Identity) : Prop :=
  forall p,
    (In p ids ->
     exists idn,
       JsMap.get identities p = Some idn
       /\ forall lens,
            getLens (tags idn) lens = Some (tagsFor p lens done)
            /\ getLens (texts idn) lens = Some (textsFor p lens done))
    /\ (~ In p ids -> JsMap.get identities p = None).

(** The rows other than the current participant's, and the entry the page
    makes for such a row. *)
Definition othersOf (participantId : string) (rows : list MapPage.ParticipantInfo)
    : list MapPage.ParticipantInfo :=
  filter (fun p => negb (MapPage.id p =? participantId)%string) rows.

Definition matchOf (scope : MapPage.Scope) (identities : JsMap.t Identity)
    (myIdentity : Identity) (p : MapPage.ParticipantInfo) : MapPage.MatchResult :=
  let other := nullish (JsMap.get identities (MapPage.id p)) MapPage.emptyIdentity in
  let r := computeSimilarity myIdentity other in
  MapPage.mkMatchResult p
    (MapPage.selectedScore scope (scoreOverall r)
       (MapPage.lensScoresOf myIdentity other (scores r))).

(** * Proofs *)

(** ** Strings and the tokenizer *)

Section StringFacts.

Local Open Scope string_scope.
Local Open Scope nat_scope.

Lemma substring_whole (s : string) : substring 0 (String.length s) s = s.
Proof. induction s as [|c r IH]; simpl; [reflexivity | now rewrite IH]. Qed.

Lemma substring_nothing (s : string) : substring 0 0 s = "".
Proof. destruct s; reflexivity. Qed.

Lemma append_snoc (cur w : string) (c : ascii) :
  JsString.snoc cur c ++ w = cur ++ String c w.
Proof.
  unfold JsString.snoc. induction cur as [|d r IH]; simpl;
    [reflexivity | now rewrite IH].
Qed.

Lemma snoc_nonempty (cur : string) (c : ascii) :
  (0 <? String.length (JsString.snoc cur c)) = true.
Proof. destruct cur; reflexivity. Qed.

(** [endsWith] and [slice] against suffix stripping. *)
Lemma stripSuffix_endsWith (suf t : string) :
  Spec.stripSuffix suf t =
  if JsString.endsWith t suf
  then Some (JsString.sliceEnd t (String.length suf)) else None.
Proof.
  induction t as [|c r IH].
  - simpl. unfold JsString.endsWith, JsString.sliceEnd. simpl.
    destruct suf as [|d suf']; reflexivity.
  - cbn [Spec.stripSuffix].
    destruct (String.eqb_spec (String c r) suf) as [E|NE].
    + subst suf. unfold JsString.endsWith, JsString.sliceEnd.
      rewrite Nat.leb_refl, Nat.sub_diag, substring_whole, String.eqb_refl.
      now rewrite substring_nothing.
    + rewrite IH. unfold JsString.endsWith, JsString.sliceEnd.
      cbn [String.length].
      destruct (Nat.leb_spec (String.length suf) (String.length r)) as [L|G].
      * assert (Ht : (String.length suf <=? S (String.length r)) = true)
          by (apply Nat.leb_le; lia).
        rewrite Ht. cbn [andb].
        replace (S (String.length r) - String.length suf)
          with (S (String.length r - String.length suf)) by lia.
        cbn [substring].
        destruct (substring (String.length r - String.length suf)
                    (String.length suf) r =? suf)%string; reflexivity.
      * cbn [andb option_map].
        destruct (Nat.leb_spec (String.length suf) (S (String.length r)))
          as [L'|G']; [|reflexivity].
        assert (Hlen : String.length suf = S (String.length r)) by lia.
        rewrite Hlen, Nat.sub_diag. cbn [andb].
        change (S (String.length r)) with (String.length (String c r)).
        rewrite substring_whole.
        apply String.eqb_neq in NE. now rewrite NE.
Qed.

Lemma rule_endsWith (suf : string) (n : nat) (t : string) :
  Spec.rule suf n t =
  if JsString.endsWith t suf && (n <? String.length t)%nat
  then Some (JsString.sliceEnd t (String.length suf)) else None.
Proof.
  unfold Spec.rule. rewrite stripSuffix_endsWith.
  destruct (n <? String.length t)%nat, (JsString.endsWith t suf); reflexivity.
Qed.

Lemma simpleStem_stem (t : string) : simpleStem t = Spec.stem t.
Proof.
  unfold simpleStem, Spec.stem. rewrite !rule_endsWith.
  destruct (JsString.endsWith t "ing" && (4 <? String.length t)%nat);
    [reflexivity|].
  destruct (JsString.endsWith t "ed" && (3 <? String.length t)%nat);
    [reflexivity|].
  destruct (JsString.endsWith t "s" && (3 <? String.length t)%nat); reflexivity.
Qed.

Lemma isStopWord_isStop (t : string) : isStopWord t = Spec.isStop t.
Proof.
  unfold isStopWord, Spec.isStop.
  change Spec.stopwords with STOP_WORDS.
  destruct (in_dec string_dec t STOP_WORDS) as [I|NI].
  - apply existsb_exists. exists t. split; [exact I | apply String.eqb_refl].
  - apply not_true_is_false. intro E. apply existsb_exists in E.
    destruct E as [x [Hx Ex]]. apply String.eqb_eq in Ex. now subst x.
Qed.

(** *** The character classes and the string functions of the
    specification against those of the code *)

Lemma isWhitespace_isSpace (c : ascii) : Spec.isWhitespace c = JsString.isSpace c.
Proof. destruct c as [[] [] [] [] [] [] [] []]; reflexivity. Qed.

Lemma isAlnum_isLowerAlnum (c : ascii) : Spec.isAlnum c = JsString.isLowerAlnum c.
Proof. destruct c as [[] [] [] [] [] [] [] []]; reflexivity. Qed.

Lemma lowerOf_lowerChar (c : ascii) : Spec.lowerOf c = JsString.lowerChar c.
Proof. destruct c as [[] [] [] [] [] [] [] []]; reflexivity. Qed.

Lemma isCapital_lowerChar (c : ascii) : Spec.isCapital (JsString.lowerChar c) = false.
Proof. destruct c as [[] [] [] [] [] [] [] []]; reflexivity. Qed.

Lemma lowercase_toLowerCase (s : string) : Spec.lowercase s = JsString.toLowerCase s.
Proof.
  induction s as [|c r IH]; simpl; [reflexivity|].
  now rewrite lowerOf_lowerChar, IH.
Qed.

Lemma isLowercase_toLowerCase (s : string) :
  Spec.isLowercase (JsString.toLowerCase s) = true.
Proof.
  induction s as [|c r IH]; simpl; [reflexivity|].
  now rewrite isCapital_lowerChar, IH.
Qed.

Lemma cleanChar_blank (c : ascii) : cleanChar c = Spec.blank c.
Proof.
  unfold cleanChar, Spec.blank.
  rewrite isAlnum_isLowerAlnum, isWhitespace_isSpace.
  destruct (JsString.isLowerAlnum c), (JsString.isSpace c); reflexivity.
Qed.

Lemma blanked_mapChars (s : string) : Spec.blanked s = JsString.mapChars cleanChar s.
Proof.
  induction s as [|c r IH]; simpl; [reflexivity|].
  now rewrite cleanChar_blank, IH.
Qed.

Lemma words_runs (s : string) : Spec.words s = runs s.
Proof.
  induction s as [|c r IH]; [reflexivity|].
  cbn [Spec.words runs]. rewrite isWhitespace_isSpace, IH.
  destruct r as [|c' r']; [reflexivity|].
  now rewrite isWhitespace_isSpace.
Qed.

(** Trimming: dropping the whitespace in front, and, on the reversed
    list, at the end. *)
Lemma dropWhitespace_trimStart (s : string) :
  Spec.dropWhitespace (list_ascii_of_string s)
  = list_ascii_of_string (JsString.trimStart s).
Proof.
  induction s as [|c r IH]; [reflexivity|].
  cbn [list_ascii_of_string Spec.dropWhitespace JsString.trimStart].
  rewrite isWhitespace_isSpace. now destruct (JsString.isSpace c).
Qed.

Lemma dropWhitespace_snoc (l : list ascii) (c : ascii) :
  Spec.dropWhitespace (l ++ [c])%list
  = match Spec.dropWhitespace l with
    | [] => if Spec.isWhitespace c then [] else [c]
    | x => (x ++ [c])%list
    end.
Proof.
  induction l as [|d r IH]; [reflexivity|].
  cbn [app Spec.dropWhitespace].
  destruct (Spec.isWhitespace d); [exact IH | reflexivity].
Qed.

Lemma dropWhitespace_trimEnd (s : string) :
  rev (Spec.dropWhitespace (rev (list_ascii_of_string s)))
  = list_ascii_of_string (JsString.trimEnd s).
Proof.
  induction s as [|c r IH]; [reflexivity|].
  cbn [list_ascii_of_string rev JsString.trimEnd].
  rewrite dropWhitespace_snoc, isWhitespace_isSpace.
  destruct (Spec.dropWhitespace (rev (list_ascii_of_string r))) as [|x l] eqn:E.
  - destruct (JsString.trimEnd r); [|discriminate IH].
    now destruct (JsString.isSpace c).
  - rewrite rev_app_distr.
    change (rev [c] ++ rev (x :: l))%list with (c :: rev (x :: l)).
    rewrite IH.
    destruct (JsString.trimEnd r) as [|d r'] eqn:T; [|reflexivity].
    apply (f_equal (@List.length ascii)) in IH.
    rewrite length_rev in IH. discriminate IH.
Qed.

Lemma trimmed_trim (s : string) : Spec.trimmed s = JsString.trim s.
Proof.
  unfold Spec.trimmed, JsString.trim.
  rewrite dropWhitespace_trimStart, dropWhitespace_trimEnd.
  apply string_of_list_ascii_of_string.
Qed.

(** The key the code computes is the key of the specification. *)
Lemma key_tagKey (item : TagItem) : Spec.key item = tagKey item.
Proof.
  unfold Spec.key, tagKey. now rewrite trimmed_trim, lowercase_toLowerCase.
Qed.

Lemma mapChars_ext (f g : ascii -> ascii) (s : string) :
  (forall c, f c = g c) -> JsString.mapChars f s = JsString.mapChars g s.
Proof.
  intro H. induction s as [|c r IH]; simpl; [reflexivity | now rewrite H, IH].
Qed.

(** *** [split(/\s+/)] followed by the removal of the empty pieces *)

Lemma words_cons_nonspace (c : ascii) (r : string) :
  JsString.isSpace c = false -> runs (String c r) <> [].
Proof.
  intro H. cbn [runs]. rewrite H.
  destruct r as [|c' r']; [discriminate|].
  destruct (JsString.isSpace c'); [discriminate|].
  destruct (runs (String c' r')); discriminate.
Qed.

Lemma joined_snoc (cur : string) (c : ascii) (r : string) :
  JsString.isSpace c = false ->
  joined (JsString.snoc cur c) r = prependHead cur (runs (String c r)).
Proof.
  intro H. cbn [runs]. rewrite H.
  destruct r as [|c' r'].
  - cbn [joined]. unfold flush, nonEmpty. rewrite snoc_nonempty.
    reflexivity.
  - cbn [joined]. destruct (JsString.isSpace c') eqn:H'.
    + unfold flush, nonEmpty. rewrite snoc_nonempty. reflexivity.
    + destruct (runs (String c' r')) as [|w ws]; cbn [prependHead].
      * reflexivity.
      * now rewrite append_snoc.
Qed.

Lemma splitLoop_words (s : string) :
  (forall cur,
      filter nonEmpty (JsString.splitLoop s cur false) = joined cur s)
  /\ filter nonEmpty (JsString.splitLoop s "" true) = runs s.
Proof.
  induction s as [|c r [IHf IHt]].
  - split; [intro cur|]; reflexivity.
  - split.
    + intro cur. cbn [JsString.splitLoop joined].
      destruct (JsString.isSpace c) eqn:Hc.
      * cbn [filter]. rewrite IHt. cbn [runs]. rewrite Hc.
        unfold flush. destruct (nonEmpty cur); reflexivity.
      * rewrite IHf. now apply joined_snoc.
    + cbn [JsString.splitLoop]. destruct (JsString.isSpace c) eqn:Hc.
      * rewrite IHt. cbn [runs]. now rewrite Hc.
      * rewrite IHf, joined_snoc by exact Hc.
        pose proof (words_cons_nonspace c r Hc) as NE.
        destruct (runs (String c r)); [contradiction | reflexivity].
Qed.

Lemma splitWhitespace_words (s : string) :
  filter nonEmpty (JsString.splitWhitespace s) = runs s.
Proof.
  unfold JsString.splitWhitespace.
  rewrite (proj1 (splitLoop_words s)).
  destruct s as [|c r]; [reflexivity|]. cbn [joined].
  destruct (JsString.isSpace c) eqn:Hc; [reflexivity|].
  pose proof (words_cons_nonspace c r Hc) as NE.
  destruct (runs (String c r)); [contradiction | reflexivity].
Qed.

Lemma filter_ext_eq {A} (f g : A -> bool) (l : list A) :
  (forall x, f x = g x) -> filter f l = filter g l.
Proof.
  intro H. induction l as [|x r IH]; simpl; [reflexivity|].
  now rewrite H, IH.
Qed.

End StringFacts.

(** C7. For every input string, [tokenize] returns exactly the tokens of
    the documented pipeline, in input order: lowercase; blank out every
    character outside [[a-z0-9]] and whitespace; take the maximal
    non-whitespace runs; drop the stopwords; stem each remaining token
    with the first applicable rule among "ing" (length above 4), "ed"
    (length above 3) and "s" (length above 3). *)
Theorem tokenize_pipeline (text : string) : tokenize text = Spec.tokens text.
Proof.
  unfold tokenize, Spec.tokens.
  rewrite words_runs, blanked_mapChars, lowercase_toLowerCase.
  change (fun t : string => (0 <? String.length t)%nat) with nonEmpty.
  rewrite splitWhitespace_words.
  rewrite (filter_ext_eq (fun t => negb (isStopWord t))
             (fun t => negb (Spec.isStop t)))
    by (intro t; now rewrite isStopWord_isStop).
  apply map_ext. exact simpleStem_stem.
Qed.

(** ** Sets and maps in insertion order *)

Section SetFacts.

Local Open Scope list_scope.

Lemma has_In (s : JsSet.t) (x : string) : JsSet.has s x = true <-> In x s.
Proof.
  unfold JsSet.has. rewrite existsb_exists. split.
  - intros [y [Hy E]]. apply String.eqb_eq in E. now subst y.
  - intro H. exists x. split; [exact H | apply String.eqb_refl].
Qed.

Lemma has_false (s : JsSet.t) (x : string) : JsSet.has s x = false <-> ~ In x s.
Proof.
  rewrite <- has_In. destruct (JsSet.has s x); intuition congruence.
Qed.

Lemma add_In (s : JsSet.t) (x y : string) :
  In y (JsSet.add s x) <-> In y s \/ y = x.
Proof.
  unfold JsSet.add. destruct (JsSet.has s x) eqn:E.
  - apply has_In in E. split; [now left|]. intros [H|H]; [exact H | now subst].
  - rewrite in_app_iff. simpl. split; intros [H|H]; auto.
    + destruct H as [H|[]]; auto.
Qed.

Lemma add_NoDup (s : JsSet.t) (x : string) : NoDup s -> NoDup (JsSet.add s x).
Proof.
  intro H. unfold JsSet.add. destruct (JsSet.has s x) eqn:E; [exact H|].
  apply has_false in E.
  apply NoDup_app; [exact H | constructor; [intros [] | constructor] |].
  intros y Hy [<-|[]]. exact (E Hy).
Qed.

Lemma fold_add_In (l : list string) (acc : JsSet.t) (y : string) :
  In y (fold_left JsSet.add l acc) <-> In y acc \/ In y l.
Proof.
  revert acc. induction l as [|x r IH]; intro acc; simpl.
  - tauto.
  - rewrite IH, add_In. intuition (subst; auto).
Qed.

Lemma fold_add_NoDup (l : list string) (acc : JsSet.t) :
  NoDup acc -> NoDup (fold_left JsSet.add l acc).
Proof.
  revert acc. induction l as [|x r IH]; intros acc H; simpl;
    [exact H | apply IH, add_NoDup, H].
Qed.

Lemma ofList_In (l : list string) (y : string) : In y (JsSet.ofList l) <-> In y l.
Proof. unfold JsSet.ofList. rewrite fold_add_In. simpl. tauto. Qed.

Lemma ofList_NoDup (l : list string) : NoDup (JsSet.ofList l).
Proof. apply fold_add_NoDup. constructor. Qed.

Lemma ofList_nil (l : list string) : JsSet.ofList l = [] <-> l = [].
Proof.
  split; [|intros ->; reflexivity].
  intro H. destruct l as [|x r]; [reflexivity|].
  assert (I : In x (JsSet.ofList (x :: r))) by (apply ofList_In; now left).
  rewrite H in I. destruct I.
Qed.

(** Two sets with the same members have the same size. *)
Lemma ofList_perm (l l' : list string) :
  (forall x, In x l <-> In x l') ->
  Permutation (JsSet.ofList l) (JsSet.ofList l').
Proof.
  intro H. apply NoDup_Permutation; try apply ofList_NoDup.
  intro x. rewrite !ofList_In. apply H.
Qed.

End SetFacts.

Section MapFacts.

Local Open Scope list_scope.

Context {V : Type}.
Implicit Types (m : JsMap.t V) (k : string) (v : V).

Lemma get_set_same m k v : JsMap.get (JsMap.set m k v) k = Some v.
Proof.
  induction m as [|[k' v'] r IH]; simpl.
  - now rewrite String.eqb_refl.
  - destruct (String.eqb_spec k' k) as [E|NE]; simpl.
    + subst. now rewrite String.eqb_refl.
    + apply String.eqb_neq in NE. now rewrite NE.
Qed.

Lemma get_set_other m k k' v :
  k <> k' -> JsMap.get (JsMap.set m k v) k' = JsMap.get m k'.
Proof.
  intro NE. induction m as [|[k0 v0] r IH]; simpl.
  - apply String.eqb_neq in NE. now rewrite NE.
  - destruct (String.eqb_spec k0 k) as [E|NE0]; simpl.
    + subst k0. apply String.eqb_neq in NE. now rewrite NE.
    + now rewrite IH.
Qed.

Lemma get_None m k : JsMap.get m k = None <-> ~ In k (JsMap.keys m).
Proof.
  induction m as [|[k0 v0] r IH]; simpl.
  - tauto.
  - destruct (String.eqb_spec k0 k) as [E|NE].
    + split; [discriminate | intro H; elim H; now left].
    + rewrite IH. tauto.
Qed.

Lemma set_fresh m k v :
  ~ In k (JsMap.keys m) -> JsMap.set m k v = m ++ [(k, v)].
Proof.
  induction m as [|[k0 v0] r IH]; simpl; [reflexivity|].
  intro H. destruct (String.eqb_spec k0 k) as [E|NE].
  - elim H. now left.
  - rewrite IH; [reflexivity | tauto].
Qed.

Lemma keys_set_present m k v :
  In k (JsMap.keys m) -> JsMap.keys (JsMap.set m k v) = JsMap.keys m.
Proof.
  induction m as [|[k0 v0] r IH]; simpl; [tauto|].
  intro H. destruct (String.eqb_spec k0 k) as [E|NE]; simpl.
  - reflexivity.
  - f_equal. apply IH. destruct H as [H|H]; [contradiction | exact H].
Qed.

Lemma keys_set_NoDup m k v :
  NoDup (JsMap.keys m) -> NoDup (JsMap.keys (JsMap.set m k v)).
Proof.
  intro H. destruct (in_dec string_dec k (JsMap.keys m)) as [I|NI].
  - now rewrite keys_set_present.
  - rewrite set_fresh by exact NI. unfold JsMap.keys. rewrite map_app.
    apply NoDup_app; [exact H | constructor; [intros [] | constructor] |].
    simpl. intros y Hy [<-|[]]. exact (NI Hy).
Qed.

End MapFacts.

(** ** Sums of weights *)

Section SumFacts.

Local Open Scope list_scope.
Local Open Scope Q_scope.

Implicit Types (f g : string -> number) (ks : list string).

Lemma sumFrom_sumOver acc ks f : sumFrom acc ks f == acc + Spec.sumOver f ks.
Proof.
  revert acc. induction ks as [|k r IH]; intro acc; simpl.
  - unfold sumFrom. simpl. ring.
  - unfold sumFrom in *. simpl. rewrite IH. ring.
Qed.

Lemma sumOver_perm f ks ks' :
  Permutation ks ks' -> Spec.sumOver f ks == Spec.sumOver f ks'.
Proof.
  induction 1 as [|x l l' _ IH|x y l|l l' l'' _ IH1 _ IH2]; simpl.
  - reflexivity.
  - now rewrite IH.
  - ring.
  - now rewrite IH1.
Qed.

Lemma sumOver_ext f g ks :
  (forall k, In k ks -> f k == g k) -> Spec.sumOver f ks == Spec.sumOver g ks.
Proof.
  induction ks as [|k r IH]; intro H; simpl; [reflexivity|].
  rewrite (H k (or_introl eq_refl)), IH; [reflexivity|].
  intros x Hx. apply H. now right.
Qed.

Lemma sumOver_le f g ks :
  (forall k, In k ks -> f k <= g k) -> Spec.sumOver f ks <= Spec.sumOver g ks.
Proof.
  induction ks as [|k r IH]; intro H; simpl; [apply Qle_refl|].
  apply Qplus_le_compat; [apply H; now left | apply IH].
  intros x Hx. apply H. now right.
Qed.

Lemma sumOver_nonneg f ks :
  (forall k, In k ks -> 0 <= f k) -> 0 <= Spec.sumOver f ks.
Proof.
  induction ks as [|k r IH]; intro H; simpl; [apply Qle_refl|].
  assert (0 <= f k) by (apply H; now left).
  assert (0 <= Spec.sumOver f r) by (apply IH; intros x Hx; apply H; now right).
  lra.
Qed.

Lemma sumOver_pos f ks k :
  (forall x, In x ks -> 0 <= f x) -> In k ks -> 0 < f k ->
  0 < Spec.sumOver f ks.
Proof.
  induction ks as [|x r IH]; intros H I P; simpl; [destruct I|].
  assert (0 <= f x) by (apply H; now left).
  assert (0 <= Spec.sumOver f r)
    by (apply sumOver_nonneg; intros y Hy; apply H; now right).
  destruct I as [->|I]; [lra|].
  assert (0 < Spec.sumOver f r)
    by (apply IH; [intros y Hy; apply H; now right | exact I | exact P]).
  lra.
Qed.

(** A quotient of a part by the whole lies in [[0,1]]. *)
Lemma ratio_bounds (n d : Q) : 0 <= n -> n <= d -> 0 < d -> 0 <= n / d <= 1.
Proof.
  intros Hn Hnd Hd. split.
  - apply Qle_shift_div_l; [exact Hd | lra].
  - apply Qle_shift_div_r; [exact Hd | lra].
Qed.

Lemma ratio_one (n d : Q) : n == d -> 0 < d -> n / d == 1.
Proof. intros E Hd. rewrite E. field. lra. Qed.

End SumFacts.

(** ** The collapsed tag map *)

Section CollapseFacts.

Local Open Scope list_scope.
Local Open Scope Q_scope.

Lemma weightsOf_cons (k : string) (item : TagItem) (l : list TagItem) :
  Spec.weightsOf k (item :: l) =
  if (tagKey item =? k)%string then weight item :: Spec.weightsOf k l
  else Spec.weightsOf k l.
Proof.
  unfold Spec.weightsOf. simpl. rewrite key_tagKey.
  now destruct (tagKey item =? k)%string.
Qed.

(** The value the loop leaves under [k], started from the map [m]. *)
Lemma get_fold_collapse (l : list TagItem) (m : JsMap.t number) (k : string) :
  JsMap.get (fold_left collapseStep l m) k =
  match Spec.weightsOf k l with
  | [] => JsMap.get m k
  | ws => Some (fold_left Qmax ws (nullish (JsMap.get m k) 0))
  end.
Proof.
  revert m. induction l as [|item r IH]; intro m; [reflexivity|].
  cbn [fold_left]. rewrite IH, weightsOf_cons. unfold collapseStep.
  destruct (String.eqb_spec (tagKey item) k) as [E|NE].
  - rewrite E, get_set_same. cbn [nullish fold_left].
    destruct (Spec.weightsOf k r); reflexivity.
  - rewrite get_set_other by exact NE.
    destruct (Spec.weightsOf k r); reflexivity.
Qed.

Lemma get_collapse (l : list TagItem) (k : string) :
  JsMap.get (collapse l) k =
  match Spec.weightsOf k l with
  | [] => None
  | ws => Some (fold_left Qmax ws 0)
  end.
Proof. unfold collapse. now rewrite get_fold_collapse. Qed.

Lemma weightIn_collapse (l : list TagItem) (k : string) :
  weightIn (collapse l) k = fold_left Qmax (Spec.weightsOf k l) 0.
Proof.
  unfold weightIn. rewrite get_collapse.
  destruct (Spec.weightsOf k l); reflexivity.
Qed.

Lemma weightsOf_nil_iff (k : string) (l : list TagItem) :
  Spec.weightsOf k l = [] <-> ~ In k (map tagKey l).
Proof.
  induction l as [|item r IH]; simpl; [tauto|].
  rewrite weightsOf_cons.
  destruct (String.eqb_spec (tagKey item) k) as [E|NE].
  - split; [discriminate | intro H; elim H; now left].
  - rewrite IH. tauto.
Qed.

Lemma keys_collapse_In (l : list TagItem) (k : string) :
  In k (JsMap.keys (collapse l)) <-> In k (map tagKey l).
Proof.
  destruct (in_dec string_dec k (map tagKey l)) as [I|NI].
  - split; [intros _; exact I | intros _].
    destruct (in_dec string_dec k (JsMap.keys (collapse l))) as [I'|NI'];
      [exact I'|].
    apply get_None in NI'. rewrite get_collapse in NI'.
    destruct (Spec.weightsOf k l) eqn:E; [|discriminate].
    apply weightsOf_nil_iff in E. contradiction.
  - split; [|intro; contradiction].
    intro I. exfalso. apply weightsOf_nil_iff in NI.
    assert (G : JsMap.get (collapse l) k = None)
      by (rewrite get_collapse, NI; reflexivity).
    apply get_None in G. contradiction.
Qed.

Lemma keys_fold_collapse_NoDup (l : list TagItem) (m : JsMap.t number) :
  NoDup (JsMap.keys m) -> NoDup (JsMap.keys (fold_left collapseStep l m)).
Proof.
  revert m. induction l as [|item r IH]; intros m H; [exact H|].
  cbn [fold_left]. apply IH. unfold collapseStep. now apply keys_set_NoDup.
Qed.

Lemma keys_collapse_NoDup (l : list TagItem) : NoDup (JsMap.keys (collapse l)).
Proof. apply keys_fold_collapse_NoDup. constructor. Qed.

(** The running maximum never falls below its start. *)
Lemma fold_Qmax_ge (ws : list number) (acc : number) :
  acc <= fold_left Qmax ws acc.
Proof.
  revert acc. induction ws as [|w r IH]; intro acc; simpl; [apply Qle_refl|].
  eapply Qle_trans; [apply (Q.le_max_l acc w) | apply IH].
Qed.

(** The integer weights of the data model lie in [[1,3]]. *)
Lemma integerWeight_valid (w : number) : integerWeight w -> validWeight w.
Proof. intros [-> | [-> | ->]]; split; discriminate. Qed.

Lemma integerTags_valid (l : list TagItem) : integerTags l -> validTags l.
Proof.
  unfold integerTags, validTags. intro H.
  eapply Forall_impl; [|exact H]. intros item. apply integerWeight_valid.
Qed.

Lemma integerIdentity_valid (a : Identity) : integerIdentity a -> validIdentity a.
Proof. intros H lens. apply integerTags_valid, H. Qed.

Lemma weightIn_nonneg (l : list TagItem) (k : string) :
  0 <= weightIn (collapse l) k.
Proof. rewrite weightIn_collapse. apply fold_Qmax_ge. Qed.

Lemma validTags_weightsOf (l : list TagItem) (k : string) :
  validTags l -> Forall validWeight (Spec.weightsOf k l).
Proof.
  unfold validTags. induction 1 as [|item r Hi _ IH]; [constructor|].
  rewrite weightsOf_cons.
  destruct (tagKey item =? k)%string; [now constructor | exact IH].
Qed.

(** Under the data model's invariant a key that occurs has weight at
    least 1. *)
Lemma weightIn_valid (l : list TagItem) (k : string) :
  validTags l -> In k (map tagKey l) -> 1 <= weightIn (collapse l) k.
Proof.
  intros V I. rewrite weightIn_collapse.
  pose proof (validTags_weightsOf l k V) as F.
  destruct (Spec.weightsOf k l) as [|w r] eqn:E.
  - apply weightsOf_nil_iff in E. contradiction.
  - inversion F as [|? ? [Lw Hw] F']; subst. simpl.
    eapply Qle_trans; [|apply fold_Qmax_ge].
    eapply Qle_trans; [exact Lw | apply Q.le_max_r].
Qed.

(** Under the invariant the stored weight is the maximum of the
    duplicates, as the specification words it. *)
Lemma get_collapse_valid (l : list TagItem) (k : string) :
  validTags l -> JsMap.get (collapse l) k = Spec.maxWeight l k.
Proof.
  intro V. rewrite get_collapse. unfold Spec.maxWeight, Spec.maximum.
  pose proof (validTags_weightsOf l k V) as F.
  destruct (Spec.weightsOf k l) as [|w r]; [reflexivity|].
  inversion F as [|? ? [Lw Hw] F']; subst. simpl.
  assert (E : Qmax 0 w = w).
  { unfold Qmax, GenericMinMax.gmax.
    assert (P : 0 < w) by (unfold validWeight in *; lra).
    assert (C : (0 ?= w) = Lt) by (now apply Qlt_alt).
    now rewrite C. }
  now rewrite E.
Qed.

Lemma weightIn_spec (l : list TagItem) (k : string) :
  validTags l -> weightIn (collapse l) k = Spec.weightOrZero l k.
Proof.
  intro V. unfold weightIn, Spec.weightOrZero.
  now rewrite get_collapse_valid.
Qed.

End CollapseFacts.

(** ** Weighted Jaccard *)

Section WeightedJaccardFacts.

Local Open Scope list_scope.
Local Open Scope Q_scope.

Implicit Types (a b : list TagItem).

Lemma fold_jaccardStep (mapA mapB : JsMap.t number) (ks : list string) (n d : number) :
  fold_left (jaccardStep mapA mapB) ks (n, d) =
  (sumFrom n ks (minW mapA mapB), sumFrom d ks (maxW mapA mapB)).
Proof.
  revert n d. induction ks as [|k r IH]; intros n d; [reflexivity|].
  cbn [fold_left]. unfold jaccardStep at 2. cbn [fst snd]. now rewrite IH.
Qed.

Lemma allKeysOf_In a b (k : string) :
  In k (allKeysOf (collapse a) (collapse b)) <->
  In k (map tagKey a) \/ In k (map tagKey b).
Proof.
  unfold allKeysOf. now rewrite ofList_In, in_app_iff, !keys_collapse_In.
Qed.

Lemma allKeysOf_NoDup a b : NoDup (allKeysOf (collapse a) (collapse b)).
Proof. apply ofList_NoDup. Qed.

Lemma allKeysOf_comm a b :
  Permutation (allKeysOf (collapse a) (collapse b))
              (allKeysOf (collapse b) (collapse a)).
Proof.
  apply ofList_perm. intro k. rewrite !in_app_iff. tauto.
Qed.

Lemma allKeysOf_nil a b :
  allKeysOf (collapse a) (collapse b) = [] <-> a = [] /\ b = [].
Proof.
  split.
  - intro H. destruct a as [|x a'].
    + destruct b as [|y b']; [now split|].
      assert (I : In (tagKey y) (allKeysOf (collapse []) (collapse (y :: b'))))
        by (apply allKeysOf_In; right; now left).
      rewrite H in I. destruct I.
    + assert (I : In (tagKey x) (allKeysOf (collapse (x :: a')) (collapse b)))
        by (apply allKeysOf_In; left; now left).
      rewrite H in I. destruct I.
  - intros [-> ->]. reflexivity.
Qed.

(** The three ways out of [weightedJaccard]. *)
Lemma weightedJaccard_cases a b :
  (allKeysOf (collapse a) (collapse b) = [] /\ weightedJaccard a b = 0)
  \/ (denominatorOf a b == 0 /\ weightedJaccard a b = 0)
  \/ (allKeysOf (collapse a) (collapse b) <> []
      /\ ~ denominatorOf a b == 0
      /\ weightedJaccard a b == numeratorOf a b / denominatorOf a b).
Proof.
  unfold weightedJaccard, JsSet.size.
  destruct (allKeysOf (collapse a) (collapse b)) as [|k r] eqn:K.
  - left. now split.
  - right. cbn [length Nat.eqb]. rewrite fold_jaccardStep.
    assert (D : sumFrom 0 (k :: r) (maxW (collapse a) (collapse b))
                == denominatorOf a b).
    { unfold denominatorOf. rewrite K, sumFrom_sumOver. ring. }
    assert (N : sumFrom 0 (k :: r) (minW (collapse a) (collapse b))
                == numeratorOf a b).
    { unfold numeratorOf. rewrite K, sumFrom_sumOver. ring. }
    destruct (Qeq_bool (sumFrom 0 (k :: r) (maxW (collapse a) (collapse b))) 0)
      eqn:Z.
    + left. split; [|reflexivity].
      apply Qeq_bool_iff in Z. now rewrite <- D.
    + right. split; [discriminate|]. split.
      * intro E. rewrite <- D in E. apply Qeq_bool_iff in E. congruence.
      * now rewrite N, D.
Qed.

Lemma minW_nonneg a b (k : string) : 0 <= minW (collapse a) (collapse b) k.
Proof. apply Q.min_glb; apply weightIn_nonneg. Qed.

Lemma minW_le_maxW a b (k : string) :
  minW (collapse a) (collapse b) k <= maxW (collapse a) (collapse b) k.
Proof.
  unfold minW, maxW.
  eapply Qle_trans; [apply Q.le_min_l | apply Q.le_max_l].
Qed.

Lemma numeratorOf_nonneg a b : 0 <= numeratorOf a b.
Proof. apply sumOver_nonneg. intros k _. apply minW_nonneg. Qed.

Lemma numeratorOf_le a b : numeratorOf a b <= denominatorOf a b.
Proof. apply sumOver_le. intros k _. apply minW_le_maxW. Qed.

Lemma weightedJaccard_bounds a b : 0 <= weightedJaccard a b <= 1.
Proof.
  destruct (weightedJaccard_cases a b) as [[_ E]|[[_ E]|[_ [NZ E]]]];
    try (rewrite E; split; [apply Qle_refl | discriminate]).
  rewrite E.
  pose proof (numeratorOf_nonneg a b). pose proof (numeratorOf_le a b).
  apply ratio_bounds; try assumption.
  destruct (Qlt_le_dec 0 (denominatorOf a b)) as [P|NP]; [exact P|].
  elim NZ. lra.
Qed.

Lemma numeratorOf_comm a b : numeratorOf a b == numeratorOf b a.
Proof.
  unfold numeratorOf.
  rewrite (sumOver_perm _ _ _ (allKeysOf_comm a b)).
  apply sumOver_ext. intros k _. apply Q.min_comm.
Qed.

Lemma denominatorOf_comm a b : denominatorOf a b == denominatorOf b a.
Proof.
  unfold denominatorOf.
  rewrite (sumOver_perm _ _ _ (allKeysOf_comm a b)).
  apply sumOver_ext. intros k _. apply Q.max_comm.
Qed.

Lemma weightedJaccard_value a b :
  weightedJaccard a b == numeratorOf a b / denominatorOf a b.
Proof.
  destruct (weightedJaccard_cases a b) as [[K E]|[[Z E]|[_ [_ E]]]];
    [| |exact E]; rewrite E.
  - unfold numeratorOf, denominatorOf. rewrite K. reflexivity.
  - rewrite Z. unfold Qdiv. change (/ 0) with 0. ring.
Qed.

Lemma weightedJaccard_comm a b : weightedJaccard a b == weightedJaccard b a.
Proof.
  rewrite !weightedJaccard_value.
  now rewrite numeratorOf_comm, denominatorOf_comm.
Qed.

Lemma denominatorOf_pos a b :
  validTags a -> validTags b -> allKeysOf (collapse a) (collapse b) <> [] ->
  0 < denominatorOf a b.
Proof.
  intros Va Vb NE.
  destruct (allKeysOf (collapse a) (collapse b)) as [|k r] eqn:K;
    [contradiction|].
  assert (I : In k (allKeysOf (collapse a) (collapse b)))
    by (rewrite K; now left).
  unfold denominatorOf. rewrite K.
  apply sumOver_pos with (k := k).
  - intros x _. eapply Qle_trans; [apply (minW_nonneg a b x)|].
    apply minW_le_maxW.
  - now left.
  - apply allKeysOf_In in I. unfold maxW. destruct I as [I|I].
    + pose proof (weightIn_valid a k Va I).
      pose proof (Q.le_max_l (weightIn (collapse a) k) (weightIn (collapse b) k)).
      lra.
    + pose proof (weightIn_valid b k Vb I).
      pose proof (Q.le_max_r (weightIn (collapse a) k) (weightIn (collapse b) k)).
      lra.
Qed.

Lemma weightedJaccard_self a :
  validTags a -> a <> [] -> weightedJaccard a a == 1.
Proof.
  intros V NE. rewrite weightedJaccard_value.
  assert (K : allKeysOf (collapse a) (collapse a) <> [])
    by (intro E; apply allKeysOf_nil in E; now destruct E).
  apply ratio_one; [|now apply denominatorOf_pos].
  apply sumOver_ext. intros k _. unfold minW, maxW.
  now rewrite Q.min_id, Q.max_id.
Qed.

End WeightedJaccardFacts.

(** ** Jaccard over tokens *)

Section TextJaccardFacts.

Local Open Scope list_scope.
Local Open Scope Q_scope.

Implicit Types (s t : list string).

Lemma fold_count (p : string -> bool) (l : list string) (n : nat) :
  fold_left (fun n x => if p x then S n else n) l n
  = (n + length (filter p l))%nat.
Proof.
  revert n. induction l as [|x r IH]; intro n; simpl; [lia|].
  rewrite IH. destruct (p x); simpl; lia.
Qed.

Lemma ofNat_le (n m : nat) : (n <= m)%nat -> ofNat n <= ofNat m.
Proof. intro H. unfold ofNat. rewrite <- Zle_Qle. lia. Qed.

Lemma ofNat_pos (n : nat) : (0 < n)%nat -> 0 < ofNat n.
Proof.
  intro H. unfold ofNat. change 0 with (inject_Z 0). rewrite <- Zlt_Qlt. lia.
Qed.

(** [textJaccard] on its two branches. *)
Lemma textJaccard_empty s t :
  JsSet.ofList s = [] -> JsSet.ofList t = [] -> textJaccard s t = 0.
Proof. intros Hs Ht. unfold textJaccard. now rewrite Hs, Ht. Qed.

Lemma common_le_union s t :
  (length (common s t) <= length (unionSet s t))%nat.
Proof.
  unfold common, unionSet.
  apply Nat.le_trans with (length (JsSet.ofList s)).
  - apply filter_length_le.
  - apply NoDup_incl_length; [apply ofList_NoDup|].
    intros x Hx. apply ofList_In, in_or_app. now left.
Qed.

Lemma unionSet_nonempty s t :
  JsSet.ofList s <> [] \/ JsSet.ofList t <> [] ->
  (0 < length (unionSet s t))%nat.
Proof.
  intro H. unfold unionSet.
  destruct (JsSet.ofList (JsSet.ofList s ++ JsSet.ofList t)) eqn:E;
    [|simpl; lia].
  apply ofList_nil, app_eq_nil in E. destruct E as [Es Et].
  destruct H as [H|H]; contradiction.
Qed.

Lemma textJaccard_ratio s t :
  JsSet.ofList s <> [] \/ JsSet.ofList t <> [] ->
  textJaccard s t = ofNat (length (common s t)) / ofNat (length (unionSet s t)).
Proof.
  intro H. pose proof (unionSet_nonempty s t H) as U.
  unfold textJaccard, JsSet.size. rewrite fold_count. cbn [plus].
  fold (common s t). fold (unionSet s t).
  assert (G : ((length (JsSet.ofList s) =? 0)%nat
               && (length (JsSet.ofList t) =? 0)%nat) = false).
  { destruct (JsSet.ofList s), (JsSet.ofList t); try reflexivity.
    destruct H as [H|H]; now elim H. }
  rewrite G. revert U.
  destruct (length (unionSet s t)); [lia | reflexivity].
Qed.

Lemma textJaccard_bounds s t : 0 <= textJaccard s t <= 1.
Proof.
  destruct (JsSet.ofList s) as [|x r] eqn:Es.
  - destruct (JsSet.ofList t) as [|y r'] eqn:Et.
    + rewrite textJaccard_empty by assumption.
      split; [apply Qle_refl | discriminate].
    + assert (H : JsSet.ofList s <> [] \/ JsSet.ofList t <> [])
        by (right; rewrite Et; discriminate).
      rewrite (textJaccard_ratio s t H).
      apply ratio_bounds;
        [apply (ofNat_le 0), Nat.le_0_l
        | apply ofNat_le, common_le_union
        | apply ofNat_pos, unionSet_nonempty, H].
  - assert (H : JsSet.ofList s <> [] \/ JsSet.ofList t <> [])
      by (left; rewrite Es; discriminate).
    rewrite (textJaccard_ratio s t H).
    apply ratio_bounds;
      [apply (ofNat_le 0), Nat.le_0_l
      | apply ofNat_le, common_le_union
      | apply ofNat_pos, unionSet_nonempty, H].
Qed.

Lemma common_comm s t : Permutation (common s t) (common t s).
Proof.
  unfold common. apply NoDup_Permutation.
  - apply NoDup_filter, ofList_NoDup.
  - apply NoDup_filter, ofList_NoDup.
  - intro x. rewrite !filter_In, !has_In. tauto.
Qed.

Lemma unionSet_comm s t : Permutation (unionSet s t) (unionSet t s).
Proof.
  unfold unionSet. apply ofList_perm. intro x. rewrite !in_app_iff. tauto.
Qed.

Lemma textJaccard_comm s t : textJaccard s t = textJaccard t s.
Proof.
  destruct (JsSet.ofList s) as [|x r] eqn:Es;
    [destruct (JsSet.ofList t) as [|y r'] eqn:Et|].
  - now rewrite !textJaccard_empty.
  - rewrite !textJaccard_ratio by (rewrite ?Es, ?Et; auto; (left + right); discriminate).
    now rewrite (Permutation_length (common_comm s t)),
                (Permutation_length (unionSet_comm s t)).
  - rewrite !textJaccard_ratio by (rewrite ?Es; (left + right); discriminate).
    now rewrite (Permutation_length (common_comm s t)),
                (Permutation_length (unionSet_comm s t)).
Qed.

Lemma common_self s : common s s = JsSet.ofList s.
Proof.
  unfold common. apply forallb_filter_id, forallb_forall.
  intros x Hx. now apply has_In.
Qed.

Lemma unionSet_self s : length (unionSet s s) = length (JsSet.ofList s).
Proof.
  apply Permutation_length. unfold unionSet.
  apply NoDup_Permutation; try apply ofList_NoDup.
  intro x. rewrite ofList_In, in_app_iff. tauto.
Qed.

Lemma textJaccard_self s : s <> [] -> textJaccard s s == 1.
Proof.
  intro NE.
  assert (H : JsSet.ofList s <> []) by (intro E; apply (proj1 (ofList_nil s)) in E; contradiction).
  rewrite textJaccard_ratio by now left.
  rewrite common_self, unionSet_self.
  apply ratio_one; [reflexivity|].
  apply ofNat_pos. destruct (JsSet.ofList s); [contradiction | simpl; lia].
Qed.

End TextJaccardFacts.

(** ** The lens combiner and the aggregator *)

Section ComputeSimilarityFacts.

Local Open Scope list_scope.
Local Open Scope Q_scope.

Implicit Types (a b : Identity) (lens : Lens).

Lemma scores_computeSimilarity a b lens :
  getLens (scores (computeSimilarity a b)) lens = lensScore a b lens.
Proof. destruct lens; reflexivity. Qed.

Lemma scoreOverall_computeSimilarity a b :
  scoreOverall (computeSimilarity a b) =
  (0 + lensScore a b GIVEN * 0.8 + lensScore a b CHOSEN * 1.0
     + lensScore a b CORE * 1.2) / (0 + 0.8 + 1.0 + 1.2).
Proof. reflexivity. Qed.

Lemma computeLensSimilarity_comm (ta tb : list TagItem) (xa xb : list string) :
  computeLensSimilarity ta xa tb xb == computeLensSimilarity tb xb ta xa.
Proof.
  unfold computeLensSimilarity.
  now rewrite (weightedJaccard_comm ta tb), (textJaccard_comm xa xb).
Qed.

Lemma computeLensSimilarity_bounds (ta tb : list TagItem) (xa xb : list string) :
  0 <= computeLensSimilarity ta xa tb xb <= 1.
Proof.
  unfold computeLensSimilarity.
  pose proof (weightedJaccard_bounds ta tb).
  pose proof (textJaccard_bounds xa xb). lra.
Qed.

Lemma lensScore_comm a b lens : lensScore a b lens == lensScore b a lens.
Proof. apply computeLensSimilarity_comm. Qed.

Lemma lensScore_bounds a b lens : 0 <= lensScore a b lens <= 1.
Proof. apply computeLensSimilarity_bounds. Qed.

End ComputeSimilarityFacts.

(** ** Binary64: sums of whole numbers are exact

    The double of a whole number below 2^53 is that number, and so is the
    rounded sum of two of them when it stays below 2^53. *)

Section Binary64Exact.
Local Open Scope Z_scope.

Lemma iter_pos_iter {A} (f : A -> A) (n : positive) (x : A) :
  iter_pos f n x = Pos.iter f x n.
Proof.
  revert x. induction n as [n IH|n IH|]; intro x; simpl.
  - rewrite !IH. now rewrite <- !Pos.iter_swap.
  - now rewrite !IH.
  - reflexivity.
Qed.

Lemma digits2_size (p : positive) : digits2_pos p = Pos.size p.
Proof. induction p; simpl; congruence. Qed.

Lemma digits2_iter_xO (p n : positive) :
  digits2_pos (Pos.iter xO p n) = (digits2_pos p + n)%positive.
Proof.
  induction n using Pos.peano_ind.
  - simpl. lia.
  - rewrite Pos.iter_succ. simpl. rewrite IHn. lia.
Qed.

Lemma iter_xO_mul (p n : positive) : Zpos (Pos.iter xO p n) = Zpos p * 2 ^ Zpos n.
Proof.
  induction n using Pos.peano_ind.
  - simpl. lia.
  - rewrite Pos.iter_succ, Pos2Z.inj_succ, Z.pow_succ_r by lia.
    rewrite Pos2Z.inj_xO, IHn. lia.
Qed.

(** Shifting right a mantissa that ends in [n] zeros loses nothing. *)
Lemma shr_exact (p n : positive) :
  Pos.iter shr_1 {| shr_m := Zpos (Pos.iter xO p n); shr_r := false; shr_s := false |} n
  = {| shr_m := Zpos p; shr_r := false; shr_s := false |}.
Proof.
  induction n using Pos.peano_ind.
  - reflexivity.
  - rewrite Pos.iter_succ. rewrite <- Pos.iter_swap.
    rewrite Pos.iter_succ. simpl. exact IHn.
Qed.

Lemma fexp_small (d : Z) : 0 < d <= 53 -> fexp Binary64.prec Binary64.emax d = d - 53.
Proof. intro H. unfold fexp, emin, Binary64.prec, Binary64.emax. lia. Qed.

(** A mantissa of 53 digits at an exponent in range is left alone. *)
Lemma round_aux_canonical (m : positive) (e : Z) :
  Zpos (digits2_pos m) = 53 -> -1074 <= e <= 971 ->
  binary_round_aux Binary64.prec Binary64.emax false (Zpos m) e loc_Exact = S754_finite false m e.
Proof.
  intros D E. unfold binary_round_aux, shr_fexp.
  cbn [Zdigits2]. rewrite D.
  assert (F : fexp Binary64.prec Binary64.emax (53 + e) - e = 0)
    by (unfold fexp, emin, Binary64.prec, Binary64.emax; lia).
  rewrite F. cbn [shr shr_record_of_loc shr_m loc_of_shr_record round_nearest_even Zdigits2].
  rewrite D, F. cbn [shr shr_record_of_loc shr_m].
  replace (e <=? Binary64.emax - Binary64.prec) with true; [reflexivity|].
  symmetry. apply Z.leb_le. unfold Binary64.emax, Binary64.prec. lia.
Qed.

Lemma digits_pos (q : positive) : 0 < Zpos (digits2_pos q).
Proof. lia. Qed.

Lemma normalize_shifted (q : positive) (j : Z) :
  Zpos (digits2_pos q) <= 53 -> 0 <= j ->
  binary_normalize Binary64.prec Binary64.emax (Zpos q * 2 ^ j) (- j) false = canon q.
Proof.
  intros D J. set (d := Zpos (digits2_pos q)) in *.
  assert (Dp : 0 < d) by (unfold d; lia).
  destruct j as [|j|j]; [| |lia].
  - (* j = 0 *)
    rewrite Z.pow_0_r, Z.mul_1_r. cbn [Z.opp binary_normalize].
    unfold binary_round. rewrite Z.add_0_r. fold d. rewrite fexp_small by lia.
    unfold shl_align, canon. fold d. rewrite Z.sub_0_r.
    destruct (53 - d) as [|s|s] eqn:S; try lia.
    + replace (d - 53) with 0 by lia.
      apply round_aux_canonical; [fold d|]; lia.
    + replace (d - 53) with (Zneg s) by lia.
      apply round_aux_canonical; [|lia].
      rewrite digits2_iter_xO. fold d. lia.
  - rewrite <- iter_xO_mul. cbn [binary_normalize]. unfold binary_round.
    rewrite digits2_iter_xO. rewrite Pos2Z.inj_add. fold d.
    replace (d + Zpos j + - Zpos j) with d by lia.
    rewrite fexp_small by lia.
    unfold shl_align, canon. fold d.
    destruct (d - 53 - - Zpos j) as [|t|t] eqn:T.
    + (* j = 53 - d *)
      assert (S : 53 - d = Zpos j) by lia. rewrite S.
      replace (- Zpos j) with (d - 53) by lia.
      apply round_aux_canonical; [|lia].
      rewrite digits2_iter_xO. fold d. lia.
    + (* j > 53 - d: the rounding shifts right by t *)
      unfold binary_round_aux, shr_fexp. cbn [Zdigits2].
      rewrite digits2_iter_xO, Pos2Z.inj_add. fold d.
      replace (d + Zpos j + - Zpos j) with d by lia.
      rewrite fexp_small by lia. rewrite T.
      cbn [shr shr_record_of_loc]. rewrite iter_pos_iter.
      destruct (53 - d) as [|s|s] eqn:S; try lia.
      * assert (j = t) by lia. subst t.
        rewrite shr_exact.
        cbn [shr_m loc_of_shr_record round_nearest_even Zdigits2].
        fold d. replace (d + (- Zpos j + Zpos j)) with d by lia.
        rewrite fexp_small by lia.
        replace (d - 53 - (- Zpos j + Zpos j)) with 0 by lia.
        cbn [shr shr_record_of_loc shr_m].
        replace (- Zpos j + Zpos j) with 0 by lia. reflexivity.
      * assert (J' : (j = t + s)%positive) by lia. subst j.
        rewrite Pos.iter_add. rewrite shr_exact.
        cbn [shr_m loc_of_shr_record round_nearest_even Zdigits2].
        rewrite digits2_iter_xO. fold d.
        replace (Zpos (digits2_pos q + s)) with 53 by (unfold d in S; lia).
        assert (F : fexp Binary64.prec Binary64.emax (53 + (- Zpos (t + s) + Zpos t))
                    - (- Zpos (t + s) + Zpos t) = 0)
          by (unfold fexp, emin, Binary64.prec, Binary64.emax; lia).
        rewrite F. cbn [shr shr_record_of_loc shr_m].
        replace (- Zpos (t + s) + Zpos t <=? Binary64.emax - Binary64.prec) with true
          by (symmetry; apply Z.leb_le; unfold Binary64.emax, Binary64.prec; lia).
        f_equal. lia.
    + (* j < 53 - d: aligned by shifting left by t *)
      destruct (53 - d) as [|s|s] eqn:S; try lia.
      assert (J' : (s = t + j)%positive) by lia. subst s.
      rewrite Pos.iter_add.
      apply round_aux_canonical; [|lia].
      rewrite !digits2_iter_xO. fold d. lia.
Qed.

Lemma digits_bound (q : positive) : Zpos q < 2 ^ 53 -> Zpos (digits2_pos q) <= 53.
Proof.
  intro H. rewrite digits2_size.
  destruct (Z_le_gt_dec (Zpos (Pos.size q)) 53) as [L|G]; [exact L|exfalso].
  pose proof (Pos.size_le q) as S.
  assert (P : 2 ^ Zpos (Pos.size q) <= 2 * Zpos q).
  { change 2 with (Zpos 2) at 1. rewrite <- Pos2Z.inj_pow.
    change (2 * Zpos q) with (Zpos q~0). now apply Pos2Z.pos_le_pos. }
  assert (M : 2 ^ 54 <= 2 ^ Zpos (Pos.size q)) by (apply Z.pow_le_mono_r; lia).
  change (2 ^ 54) with (2 * 2 ^ 53) in M. lia.
Qed.

Lemma ofZ_canon (q : positive) :
  Zpos q < 2 ^ 53 -> Binary64.ofZ (Zpos q) = canon q.
Proof.
  intro H. unfold Binary64.ofZ.
  rewrite <- (normalize_shifted q 0) by (try apply digits_bound; auto; lia).
  now rewrite Z.pow_0_r, Z.mul_1_r.
Qed.

(** The mantissa and the exponent of the double of a whole number. *)
Lemma canon_value (q : positive) :
  Zpos (digits2_pos q) <= 53 ->
  exists m e, canon q = S754_finite false m e /\ e <= 0
              /\ Zpos m = Zpos q * 2 ^ (- e).
Proof.
  intro D. unfold canon.
  destruct (53 - Zpos (digits2_pos q)) as [|s|s] eqn:S.
  - exists q, 0. repeat split; [lia | simpl; lia].
  - exists (Pos.iter xO q s), (Zpos (digits2_pos q) - 53).
    repeat split; [lia|]. rewrite iter_xO_mul. f_equal. f_equal. lia.
  - lia.
Qed.

Lemma shl_align_value (m : positive) (e ez : Z) :
  ez <= e -> Zpos (fst (shl_align m e ez)) = Zpos m * 2 ^ (e - ez).
Proof.
  intro L. unfold shl_align.
  destruct (ez - e) as [|d|d] eqn:D; cbn [fst].
  - replace (e - ez) with 0 by lia. simpl. lia.
  - lia.
  - rewrite iter_xO_mul. f_equal. f_equal. lia.
Qed.

Lemma add_exact_pos (p q : positive) :
  Zpos p + Zpos q < 2 ^ 53 ->
  Binary64.add (Binary64.ofZ (Zpos p)) (Binary64.ofZ (Zpos q)) = Binary64.ofZ (Zpos p + Zpos q).
Proof.
  intro H.
  assert (Hp : Zpos p < 2 ^ 53) by lia.
  assert (Hq : Zpos q < 2 ^ 53) by lia.
  rewrite (ofZ_canon p Hp), (ofZ_canon q Hq).
  destruct (canon_value p (digits_bound p Hp)) as (mp & ep & -> & Lp & Vp).
  destruct (canon_value q (digits_bound q Hq)) as (mq & eq & -> & Lq & Vq).
  unfold Binary64.add. cbn [SFadd cond_Zopp].
  rewrite !shl_align_value by lia.
  rewrite Vp, Vq.
  set (ez := Z.min ep eq).
  assert (Ez : ez <= 0) by lia.
  replace (Zpos p * 2 ^ (- ep) * 2 ^ (ep - ez) + Zpos q * 2 ^ (- eq) * 2 ^ (eq - ez))
    with (Zpos (p + q) * 2 ^ (- ez)).
  - replace ez with (- - ez) at 2 by lia.
    rewrite normalize_shifted; [| apply digits_bound; lia | lia].
    change (Zpos p + Zpos q) with (Zpos (p + q)).
    symmetry. apply ofZ_canon. lia.
  - rewrite Pos2Z.inj_add.
    rewrite <- !Z.mul_assoc, <- !Z.pow_add_r by lia.
    replace (- ep + (ep - ez)) with (- ez) by lia.
    replace (- eq + (eq - ez)) with (- ez) by lia. ring.
Qed.

Theorem add_exact (m k : Z) :
  0 <= m -> 0 <= k -> m + k < 2 ^ 53 ->
  Binary64.add (Binary64.ofZ m) (Binary64.ofZ k) = Binary64.ofZ (m + k).
Proof.
  intros Hm Hk H.
  destruct m as [|p|p]; [|  |lia].
  - destruct k as [|q|q]; try lia; [reflexivity|].
    rewrite Z.add_0_l. rewrite (ofZ_canon q) by lia.
    destruct (canon_value q (digits_bound q ltac:(lia))) as (mq & eq & -> & _).
    reflexivity.
  - destruct k as [|q|q]; try lia.
    + rewrite Z.add_0_r. rewrite (ofZ_canon p) by lia.
      destruct (canon_value p (digits_bound p ltac:(lia))) as (mp & ep & -> & _).
      reflexivity.
    + now apply add_exact_pos.
Qed.

Lemma ofZ_pos_finite (q : positive) :
  Zpos q < 2 ^ 53 -> exists m e, Binary64.ofZ (Zpos q) = S754_finite false m e.
Proof.
  intro H. rewrite (ofZ_canon q H).
  destruct (canon_value q (digits_bound q H)) as (m & e & -> & _). eauto.
Qed.

End Binary64Exact.

(** ** The engine in binary64 against the exact model

    For the integer weights of the data model the maps, the key sets and
    the two sums of [weightedJaccard] are the same in both readings; the
    doubles differ from the rationals only in the rounding of the
    quotients and of the blends. *)

Section DoublesBridge.

Local Open Scope list_scope.

Lemma get_mapValues {V W} (f : V -> W) (m : JsMap.t V) (k : string) :
  JsMap.get (mapValues f m) k = option_map f (JsMap.get m k).
Proof.
  induction m as [|[k' v] r IH]; [reflexivity|].
  cbn [mapValues map JsMap.get fst snd].
  destruct (k' =? k)%string; [reflexivity | exact IH].
Qed.

Lemma set_mapValues {V W} (f : V -> W) (m : JsMap.t V) (k : string) (v : V) :
  JsMap.set (mapValues f m) k (f v) = mapValues f (JsMap.set m k v).
Proof.
  induction m as [|[k' v'] r IH]; [reflexivity|].
  cbn [mapValues map JsMap.set fst snd].
  destruct (k' =? k)%string; [reflexivity|].
  cbn [map fst snd]. f_equal. exact IH.
Qed.

Lemma keys_mapValues {V W} (f : V -> W) (m : JsMap.t V) :
  JsMap.keys (mapValues f m) = JsMap.keys m.
Proof.
  unfold JsMap.keys, mapValues. rewrite map_map. now apply map_ext.
Qed.

Lemma values_set (P : number -> Prop) (m : JsMap.t number) (k : string) (v : number) :
  Forall P (map snd m) -> P v -> Forall P (map snd (JsMap.set m k v)).
Proof.
  intros F Hv. induction m as [|[k' v'] r IH]; cbn [JsMap.set map snd].
  - now repeat constructor.
  - inversion F as [|? ? Hv' Fr]; subst.
    destruct (k' =? k)%string; cbn [map snd];
      constructor; auto.
Qed.

Lemma values_get (P : number -> Prop) (m : JsMap.t number) (k : string) :
  Forall P (map snd m) -> P 0%Q -> P (nullish (JsMap.get m k) 0%Q).
Proof.
  intros F H0. induction m as [|[k' v'] r IH]; [exact H0|].
  inversion F as [|? ? Hv' Fr]; subst.
  cbn [JsMap.get]. destruct (k' =? k)%string; [exact Hv' | now apply IH].
Qed.

(** Whole numbers from 0 to 3, in both readings. *)
Lemma small_cases (i : Z) : (0 <= i <= 3)%Z -> i = 0%Z \/ i = 1%Z \/ i = 2%Z \/ i = 3%Z.
Proof. lia. Qed.

Lemma whole_zero : whole 0%Q.
Proof. exists 0%Z. split; [lia | reflexivity]. Qed.

Lemma integerWeight_whole (w : number) : integerWeight w -> whole w.
Proof.
  intros [-> | [-> | ->]];
    [exists 1%Z | exists 2%Z | exists 3%Z]; (split; [lia | reflexivity]).
Qed.

Lemma ofQ_whole (i : Z) :
  (0 <= i <= 3)%Z -> Doubles.ofQ (inject_Z i) = Binary64.ofZ i.
Proof.
  intro H. destruct (small_cases i H) as [-> | [-> | [-> | ->]]];
    vm_compute; reflexivity.
Qed.

Lemma max_whole (i j : Z) :
  (0 <= i <= 3)%Z -> (0 <= j <= 3)%Z ->
  Doubles.max (Binary64.ofZ i) (Binary64.ofZ j) = Binary64.ofZ (Z.max i j)
  /\ Qmax (inject_Z i) (inject_Z j) = inject_Z (Z.max i j).
Proof.
  intros Hi Hj.
  destruct (small_cases i Hi) as [-> | [-> | [-> | ->]]];
    destruct (small_cases j Hj) as [-> | [-> | [-> | ->]]];
    split; vm_compute; reflexivity.
Qed.

Lemma min_whole (i j : Z) :
  (0 <= i <= 3)%Z -> (0 <= j <= 3)%Z ->
  Doubles.min (Binary64.ofZ i) (Binary64.ofZ j) = Binary64.ofZ (Z.min i j)
  /\ Qmin (inject_Z i) (inject_Z j) = inject_Z (Z.min i j).
Proof.
  intros Hi Hj.
  destruct (small_cases i Hi) as [-> | [-> | [-> | ->]]];
    destruct (small_cases j Hj) as [-> | [-> | [-> | ->]]];
    split; vm_compute; reflexivity.
Qed.

Lemma whole_max (x w : number) : whole x -> whole w -> whole (Qmax x w).
Proof.
  intros (i & Hi & ->) (j & Hj & ->).
  exists (Z.max i j). split; [lia | apply (max_whole i j Hi Hj)].
Qed.

Lemma max_in_doubles (x w : number) :
  whole x -> whole w ->
  Doubles.max (Doubles.ofQ x) (Doubles.ofQ w) = Doubles.ofQ (Qmax x w).
Proof.
  intros (i & Hi & ->) (j & Hj & ->).
  destruct (max_whole i j Hi Hj) as [M ->].
  rewrite !ofQ_whole by lia. exact M.
Qed.

(** The collapsed map of a list of integer weights, in doubles, is the
    collapsed map of the exact model, value by value. *)
Lemma fold_collapse_in_doubles (l : list TagItem) (m : JsMap.t number) :
  integerTags l -> Forall whole (map snd m) ->
  fold_left Doubles.collapseStep (map tagInDoubles l) (mapValues Doubles.ofQ m)
  = mapValues Doubles.ofQ (fold_left collapseStep l m)
  /\ Forall whole (map snd (fold_left collapseStep l m)).
Proof.
  intro I. revert m. induction I as [|item r Hi _ IH]; intros m F.
  - now split.
  - cbn [map fold_left].
    assert (X : whole (nullish (JsMap.get m (tagKey item)) 0%Q))
      by (apply values_get; [exact F | exact whole_zero]).
    assert (S : Doubles.collapseStep (mapValues Doubles.ofQ m) (tagInDoubles item)
                = mapValues Doubles.ofQ (collapseStep m item)).
    { unfold Doubles.collapseStep, collapseStep.
      change (Doubles.tagKey (tagInDoubles item)) with (tagKey item).
      change (Doubles.weight (tagInDoubles item)) with (Doubles.ofQ (weight item)).
      rewrite get_mapValues.
      replace (nullish (option_map Doubles.ofQ (JsMap.get m (tagKey item))) Doubles.zero)
        with (Doubles.ofQ (nullish (JsMap.get m (tagKey item)) 0%Q))
        by (destruct (JsMap.get m (tagKey item)); reflexivity).
      rewrite max_in_doubles by (try exact X; now apply integerWeight_whole).
      apply set_mapValues. }
    rewrite S. apply IH. unfold collapseStep.
    apply values_set; [exact F|].
    apply whole_max; [exact X | now apply integerWeight_whole].
Qed.

Lemma collapse_in_doubles (l : list TagItem) :
  integerTags l ->
  Doubles.collapse (map tagInDoubles l) = mapValues Doubles.ofQ (collapse l)
  /\ Forall whole (map snd (collapse l)).
Proof.
  intro I. apply (fold_collapse_in_doubles l [] I). constructor.
Qed.

Lemma weightIn_in_doubles (m : JsMap.t number) (k : string) :
  Doubles.weightIn (mapValues Doubles.ofQ m) k = Doubles.ofQ (weightIn m k).
Proof.
  unfold Doubles.weightIn, weightIn. rewrite get_mapValues.
  destruct (JsMap.get m k); reflexivity.
Qed.

Lemma inject_Z_plus_eq (n i : Z) :
  (inject_Z n + inject_Z i)%Q = inject_Z (n + i).
Proof.
  unfold Qplus, inject_Z. cbn [Qnum Qden]. now rewrite !Z.mul_1_r.
Qed.

(** The loop over the keys: on whole weights the two sums are the same
    whole numbers in both readings, as long as they stay below 2^53. *)
Lemma fold_jaccard_in_doubles (mapA mapB : JsMap.t number) (ks : list string) :
  Forall whole (map snd mapA) -> Forall whole (map snd mapB) ->
  forall n d : Z,
    (0 <= n)%Z -> (0 <= d)%Z ->
    (n + 3 * Z.of_nat (length ks) < 2 ^ 53)%Z ->
    (d + 3 * Z.of_nat (length ks) < 2 ^ 53)%Z ->
    exists N D : Z,
      (0 <= N)%Z /\ (0 <= D < 2 ^ 53)%Z
      /\ fold_left (Doubles.jaccardStep (mapValues Doubles.ofQ mapA)
                                         (mapValues Doubles.ofQ mapB))
                   ks (Binary64.ofZ n, Binary64.ofZ d)
         = (Binary64.ofZ N, Binary64.ofZ D)
      /\ fold_left (jaccardStep mapA mapB) ks (inject_Z n, inject_Z d)
         = (inject_Z N, inject_Z D).
Proof.
  intros FA FB. induction ks as [|k r IH]; intros n d Hn Hd Bn Bd.
  - exists n, d. cbn [length Z.of_nat] in Bd. repeat split; try lia.
  - cbn [fold_left]. cbn [length] in Bn, Bd. rewrite Nat2Z.inj_succ in Bn, Bd.
    destruct (values_get whole mapA k FA whole_zero) as (i & Hi & Ei).
    destruct (values_get whole mapB k FB whole_zero) as (j & Hj & Ej).
    fold (weightIn mapA k) in Ei. fold (weightIn mapB k) in Ej.
    unfold Doubles.jaccardStep, jaccardStep. cbn [fst snd].
    rewrite !weightIn_in_doubles, Ei, Ej, !ofQ_whole by lia.
    destruct (min_whole i j Hi Hj) as [-> ->].
    destruct (max_whole i j Hi Hj) as [-> ->].
    rewrite !add_exact by lia.
    rewrite !inject_Z_plus_eq.
    apply IH; lia.
Qed.

Lemma eqb_zero_in_doubles (D : Z) :
  (0 <= D < 2 ^ 53)%Z -> SFeqb (Binary64.ofZ D) Doubles.zero = (D =? 0)%Z.
Proof.
  intros [L U]. destruct D as [|q|q]; [reflexivity| |lia].
  destruct (ofZ_pos_finite q U) as (m & e & ->). reflexivity.
Qed.

Lemma length_allKeys (a b : list TagItem) :
  (length (allKeysOf (collapse a) (collapse b)) <= length a + length b)%nat.
Proof.
  rewrite <- (length_map tagKey a), <- (length_map tagKey b), <- length_app.
  apply NoDup_incl_length; [apply allKeysOf_NoDup|].
  intros k Hk. apply in_or_app. now apply allKeysOf_In.
Qed.

(** In doubles, [weightedJaccard] on integer weights is the rounded
    quotient of the two exact sums. *)
Lemma weightedJaccard_sums_in_doubles (a b : list TagItem) :
  integerTags a -> integerTags b -> fewTags a b ->
  Doubles.weightedJaccard (map tagInDoubles a) (map tagInDoubles b)
  = quotientOf (numeratorOf a b) (denominatorOf a b)
  /\ (0 <= Qfloor (numeratorOf a b))%Z
  /\ (0 <= Qfloor (denominatorOf a b) < 2 ^ 53)%Z.
Proof.
  intros Ia Ib Few.
  destruct (collapse_in_doubles a Ia) as [Ca Fa].
  destruct (collapse_in_doubles b Ib) as [Cb Fb].
  unfold Doubles.weightedJaccard. rewrite Ca, Cb.
  unfold Doubles.allKeysOf. rewrite !keys_mapValues.
  fold (allKeysOf (collapse a) (collapse b)).
  pose proof (length_allKeys a b) as Len.
  set (ks := allKeysOf (collapse a) (collapse b)) in *.
  assert (B : (0 + 3 * Z.of_nat (length ks) < 2 ^ 53)%Z).
  { unfold fewTags in Few. change (2 ^ 53)%Z with (4 * 2 ^ 51)%Z. lia. }
  destruct (fold_jaccard_in_doubles (collapse a) (collapse b) ks Fa Fb
              0 0 (Z.le_refl 0) (Z.le_refl 0) B B) as (N & D & HN & HD & E64 & EQ).
  change (Binary64.ofZ 0) with Doubles.zero in E64.
  rewrite E64.
  change (inject_Z 0) with 0%Q in EQ.
  rewrite fold_jaccardStep in EQ. injection EQ as EN ED.
  assert (QN : (numeratorOf a b == inject_Z N)%Q).
  { unfold numeratorOf. fold ks. rewrite <- EN, sumFrom_sumOver. ring. }
  assert (QD : (denominatorOf a b == inject_Z D)%Q).
  { unfold denominatorOf. fold ks. rewrite <- ED, sumFrom_sumOver. ring. }
  assert (FN : Qfloor (numeratorOf a b) = N) by (rewrite QN; apply Qfloor_Z).
  assert (FD : Qfloor (denominatorOf a b) = D) by (rewrite QD; apply Qfloor_Z).
  rewrite FN, FD. split; [|split; assumption].
  unfold quotientOf. rewrite FN, FD.
  rewrite eqb_zero_in_doubles by exact HD.
  destruct (JsSet.size ks =? 0)%nat eqn:S; [|reflexivity].
  apply Nat.eqb_eq in S. unfold JsSet.size in S.
  destruct ks; [|discriminate S].
  cbn [fold_left] in E64. injection E64 as _ E.
  unfold sumFrom in ED. cbn [fold_left] in ED.
  assert (Z : D = 0%Z) by (now apply inject_Z_injective; rewrite <- ED).
  now rewrite Z.
Qed.

Lemma weightedJaccard_in_doubles (a b : list TagItem) :
  integerTags a -> integerTags b -> fewTags a b ->
  Doubles.weightedJaccard (map tagInDoubles a) (map tagInDoubles b)
  = quotientOf (numeratorOf a b) (denominatorOf a b).
Proof. intros Ia Ib F. now apply weightedJaccard_sums_in_doubles. Qed.

End DoublesBridge.

(** ** Binary64: no NaN from non-negative numbers *)

Section NonNegative.

Local Open Scope Z_scope.

Lemma iter_pos_invariant {A} (f : A -> A) (P : A -> Prop) :
  (forall x, P x -> P (f x)) -> forall n x, P x -> P (iter_pos f n x).
Proof.
  intros H n. induction n as [n IH|n IH|]; intros x Hx; simpl; auto.
Qed.

Lemma shr_1_nonneg (mrs : shr_record) : 0 <= shr_m mrs -> 0 <= shr_m (shr_1 mrs).
Proof.
  destruct mrs as [m r s]. cbn [shr_m]. intro H.
  destruct m as [|[p|p|]|p]; cbn; lia.
Qed.

Lemma shr_fexp_nonneg (m e : Z) (l : location) :
  0 <= m -> 0 <= shr_m (fst (shr_fexp Binary64.prec Binary64.emax m e l)).
Proof.
  intro H. unfold shr_fexp, shr.
  assert (R : 0 <= shr_m (shr_record_of_loc m l))
    by (destruct l as [|[]]; exact H).
  destruct (fexp Binary64.prec Binary64.emax (Zdigits2 m + e) - e);
    cbn [fst]; try exact R.
  now apply iter_pos_invariant; [exact shr_1_nonneg|].
Qed.

Lemma round_nearest_even_nonneg (m : Z) (l : location) :
  0 <= m -> 0 <= round_nearest_even m l.
Proof.
  intro H. destruct l as [|[]]; cbn; try lia.
  destruct (Z.even m); lia.
Qed.

(** Rounding a non-negative mantissa gives 0, a positive double or
    infinity: never NaN. *)
Lemma round_aux_nonNegative (m e : Z) (l : location) :
  0 <= m ->
  nonNegative (binary_round_aux Binary64.prec Binary64.emax false m e l).
Proof.
  intro H. unfold binary_round_aux.
  pose proof (shr_fexp_nonneg m e l H) as H1.
  destruct (shr_fexp Binary64.prec Binary64.emax m e l) as [mrs' e'].
  cbn [fst] in H1.
  pose proof (shr_fexp_nonneg _ e' loc_Exact
                (round_nearest_even_nonneg _ (loc_of_shr_record mrs') H1)) as H2.
  destruct (shr_fexp Binary64.prec Binary64.emax
              (round_nearest_even (shr_m mrs') (loc_of_shr_record mrs')) e' loc_Exact)
    as [mrs'' e''].
  cbn [fst] in H2.
  destruct (shr_m mrs'') as [|p|p]; [exact I | | lia].
  destruct (e'' <=? Binary64.emax - Binary64.prec); exact I.
Qed.

Lemma normalize_nonNegative (m e : Z) :
  0 <= m -> nonNegative (binary_normalize Binary64.prec Binary64.emax m e false).
Proof.
  intro H. destruct m as [|p|p]; [exact I | | lia].
  cbn [binary_normalize]. unfold binary_round.
  destruct (shl_align p e _) as [mz ez]. now apply round_aux_nonNegative.
Qed.

Lemma ofZ_nonNegative (n : Z) : 0 <= n -> nonNegative (Binary64.ofZ n).
Proof. apply normalize_nonNegative. Qed.

Lemma add_nonNegative (x y : spec_float) :
  nonNegative x -> nonNegative y -> nonNegative (Binary64.add x y).
Proof.
  destruct x as [[]|[]| |[] mx ex]; try contradiction;
    destruct y as [[]|[]| |[] my ey]; try contradiction;
    intros _ _; try exact I.
  unfold Binary64.add. cbn [SFadd cond_Zopp].
  apply normalize_nonNegative. lia.
Qed.

Lemma mul_nonNegative (x y : spec_float) :
  (exists m e, x = S754_finite false m e) -> nonNegative y ->
  nonNegative (Binary64.mul x y).
Proof.
  intros (m & e & ->).
  destruct y as [[]|[]| |[] my ey]; try contradiction; intros _; try exact I.
  unfold Binary64.mul. cbn [SFmul xorb].
  apply round_aux_nonNegative. lia.
Qed.

Lemma div_nonNegative (x y : spec_float) :
  nonNegative x -> (exists m e, y = S754_finite false m e) ->
  nonNegative (Binary64.div x y).
Proof.
  intros Hx (m & e & ->).
  destruct x as [[]|[]| |[] mx ex]; try contradiction; try exact I.
  unfold Binary64.div. cbn [SFdiv xorb]. unfold SFdiv_core_binary.
  set (m' := match _ with Z0 => Zpos mx | Zpos _ => _ | Zneg _ => 0 end).
  assert (M : 0 <= m').
  { subst m'. destruct (_ - _ - _)%Z; try lia.
    apply Z.shiftl_nonneg. lia. }
  pose proof (Z_div_mod m' (Zpos m) ltac:(lia)) as DM.
  destruct (Z.div_eucl m' (Zpos m)) as [q r].
  apply round_aux_nonNegative.
  destruct DM as [E R]. nia.
Qed.

Lemma nonNegative_equal (x : spec_float) : nonNegative x -> Doubles.equal x x = true.
Proof.
  destruct x as [[]|[]| |[] m e]; try contradiction; intros _; try reflexivity.
  unfold Doubles.equal, SFeqb. cbn [SFcompare].
  now rewrite Z.compare_refl, Pos.compare_cont_refl.
Qed.

End NonNegative.

Section DoublesSymmetry.

Local Open Scope list_scope.

Lemma quotientOf_comp (n n' d d' : number) :
  (n == n')%Q -> (d == d')%Q -> quotientOf n d = quotientOf n' d'.
Proof.
  intros En Ed. unfold quotientOf.
  now rewrite (Qfloor_comp _ _ En), (Qfloor_comp _ _ Ed).
Qed.

Lemma quotientOf_nonNegative (n d : number) :
  (0 <= Qfloor n)%Z -> (0 <= Qfloor d < 2 ^ 53)%Z -> nonNegative (quotientOf n d).
Proof.
  intros Hn Hd. unfold quotientOf.
  destruct (Z.eqb_spec (Qfloor d) 0) as [E|NE]; [exact I|].
  apply div_nonNegative; [now apply ofZ_nonNegative|].
  destruct (Qfloor d) as [|q|q] eqn:Q; try lia.
  apply ofZ_pos_finite. lia.
Qed.

(** In doubles, [textJaccard] is the rounded quotient of the two counts. *)
Lemma textJaccard_in_doubles (s t : list string) :
  Doubles.textJaccard s t
  = quotientOf (ofNat (length (common s t))) (ofNat (length (unionSet s t))).
Proof.
  unfold Doubles.textJaccard, JsSet.size. rewrite fold_count. cbn [plus].
  fold (common s t). fold (unionSet s t).
  unfold quotientOf, ofNat. rewrite !Qfloor_Z.
  destruct (JsSet.ofList s) as [|x r] eqn:Es.
  - destruct (JsSet.ofList t) as [|y r'] eqn:Et.
    + unfold unionSet. rewrite Es, Et. reflexivity.
    + cbn [length Nat.eqb andb].
      destruct (length (unionSet s t)) as [|u]; reflexivity.
  - cbn [length Nat.eqb andb].
    destruct (length (unionSet s t)) as [|u]; reflexivity.
Qed.

Lemma textJaccard_comm_in_doubles (s t : list string) :
  Doubles.textJaccard s t = Doubles.textJaccard t s.
Proof.
  rewrite !textJaccard_in_doubles.
  now rewrite (Permutation_length (common_comm s t)),
              (Permutation_length (unionSet_comm s t)).
Qed.

Lemma tagsOf_inDoubles (a : Identity) (lens : Lens) :
  Doubles.tagsOf (inDoubles a) lens = map tagInDoubles (tagsOf a lens).
Proof.
  unfold Doubles.tagsOf, tagsOf, inDoubles.
  destruct lens; cbn [Doubles.tags getLens given chosen core];
    match goal with |- context [option_map _ ?o] => destruct o end; reflexivity.
Qed.

Lemma tokensOf_inDoubles (a : Identity) (lens : Lens) :
  Doubles.tokensOf (inDoubles a) lens = tokensOf a lens.
Proof. destruct lens; reflexivity. Qed.

Lemma fewTags_comm (a b : list TagItem) : fewTags a b -> fewTags b a.
Proof. unfold fewTags. lia. Qed.

(** The score of a lens in doubles, for integer weights: the blend of the
    two rounded quotients. *)
Lemma lensScore_in_doubles (a b : Identity) (lens : Lens) :
  integerIdentity a -> integerIdentity b -> fewTagsIn a b ->
  lensScoreInDoubles (inDoubles a) (inDoubles b) lens
  = Binary64.blend
      (quotientOf (numeratorOf (tagsOf a lens) (tagsOf b lens))
                  (denominatorOf (tagsOf a lens) (tagsOf b lens)))
      (quotientOf (ofNat (length (common (tokensOf a lens) (tokensOf b lens))))
                  (ofNat (length (unionSet (tokensOf a lens) (tokensOf b lens))))).
Proof.
  intros Ia Ib Few. unfold lensScoreInDoubles, Doubles.computeLensSimilarity.
  rewrite !tagsOf_inDoubles, !tokensOf_inDoubles.
  rewrite weightedJaccard_in_doubles by auto.
  now rewrite textJaccard_in_doubles.
Qed.

Lemma lensScore_comm_in_doubles (a b : Identity) (lens : Lens) :
  integerIdentity a -> integerIdentity b -> fewTagsIn a b ->
  lensScoreInDoubles (inDoubles a) (inDoubles b) lens
  = lensScoreInDoubles (inDoubles b) (inDoubles a) lens.
Proof.
  intros Ia Ib Few.
  rewrite !lensScore_in_doubles
    by (auto; intro l; apply fewTags_comm, Few).
  rewrite (quotientOf_comp _ _ _ _ (numeratorOf_comm _ _) (denominatorOf_comm _ _)).
  now rewrite (Permutation_length (common_comm _ _)),
              (Permutation_length (unionSet_comm _ _)).
Qed.

(** The whole result in doubles is a function of the three lens scores. *)
Lemma computeSimilarity_in_doubles (a b : Doubles.Identity) :
  Doubles.computeSimilarity a b
  = Doubles.mkSimilarityResult
      (mkPerLens (lensScoreInDoubles a b GIVEN) (lensScoreInDoubles a b CHOSEN)
                 (lensScoreInDoubles a b CORE))
      (Binary64.overall (lensScoreInDoubles a b GIVEN)
                        (lensScoreInDoubles a b CHOSEN)
                        (lensScoreInDoubles a b CORE)).
Proof. reflexivity. Qed.

(** The score stored for a lens is what [computeLensSimilarity] returns
    on the tags and the tokens of the lens. *)
Lemma scores_in_doubles (a b : Doubles.Identity) (lens : Lens) :
  getLens (Doubles.scores (Doubles.computeSimilarity a b)) lens
  = lensScoreInDoubles a b lens.
Proof. destruct lens; reflexivity. Qed.

End DoublesSymmetry.

Section DoublesNoNaN.

Local Open Scope list_scope.

Lemma mul_literal_nonNegative (x l : spec_float) :
  nonNegative x -> (exists m e, l = S754_finite false m e) ->
  nonNegative (Binary64.mul x l).
Proof.
  intros Hx (m & e & ->).
  destruct x as [[]|[]| |[] mx ex]; try contradiction; try exact I.
  unfold Binary64.mul. cbn [SFmul xorb].
  apply round_aux_nonNegative. lia.
Qed.

Lemma literal_finite (n d : Z) :
  (n = 7 \/ n = 3 \/ n = 8 \/ n = 10 \/ n = 12)%Z -> d = 10%Z ->
  exists m e, Binary64.literal n d = S754_finite false m e.
Proof.
  intros [-> | [-> | [-> | [-> | ->]]]] ->; vm_compute; eauto.
Qed.

Lemma blend_nonNegative (jw tj : spec_float) :
  nonNegative jw -> nonNegative tj -> nonNegative (Binary64.blend jw tj).
Proof.
  intros J T. unfold Binary64.blend.
  apply add_nonNegative; apply mul_nonNegative; try assumption;
    apply literal_finite; auto.
Qed.

Lemma overall_nonNegative (g c k : spec_float) :
  nonNegative g -> nonNegative c -> nonNegative k ->
  nonNegative (Binary64.overall g c k).
Proof.
  intros G C K. unfold Binary64.overall.
  replace Binary64.weightTotal with (Binary64.ofZ 3) by (vm_compute; reflexivity).
  replace (SFeqb (Binary64.ofZ 3) (Binary64.ofZ 0)) with false by reflexivity.
  apply div_nonNegative.
  - repeat apply add_nonNegative; try exact I;
      apply mul_literal_nonNegative; try assumption;
      apply literal_finite; auto 6.
  - vm_compute. eauto.
Qed.

Lemma length_unionSet (s t : list string) :
  (length (unionSet s t) <= length s + length t)%nat.
Proof.
  unfold unionSet.
  assert (L : forall l, (length (JsSet.ofList l) <= length l)%nat).
  { intro l. apply NoDup_incl_length; [apply ofList_NoDup|].
    intros x Hx. now apply ofList_In. }
  eapply Nat.le_trans; [apply L|]. rewrite length_app.
  pose proof (L s). pose proof (L t). lia.
Qed.

Lemma textQuotient_nonNegative (s t : list string) :
  fewTokens s t ->
  nonNegative (quotientOf (ofNat (length (common s t)))
                          (ofNat (length (unionSet s t)))).
Proof.
  intro F. pose proof (length_unionSet s t) as L. unfold fewTokens in F.
  apply quotientOf_nonNegative; unfold ofNat; rewrite Qfloor_Z; lia.
Qed.

End DoublesNoNaN.

Section SymmetryInDoubles.

Variables a b : Identity.
Hypothesis Ia : integerIdentity a.
Hypothesis Ib : integerIdentity b.
Hypothesis Size : ordinarySize a b.

Lemma ordinarySize_fewTags : fewTagsIn a b.
Proof. intro lens. apply Size. Qed.

Lemma ordinarySize_comm : ordinarySize b a.
Proof.
  intro lens. destruct (Size lens) as [T K]. unfold fewTags, fewTokens in *.
  split; lia.
Qed.

(** No lens score is NaN or negative. *)
Lemma lensScore_nonNegative_in_doubles (lens : Lens) :
  nonNegative (lensScoreInDoubles (inDoubles a) (inDoubles b) lens).
Proof.
  rewrite lensScore_in_doubles by (auto using ordinarySize_fewTags).
  apply blend_nonNegative.
  - destruct (weightedJaccard_sums_in_doubles (tagsOf a lens) (tagsOf b lens)
                (Ia lens) (Ib lens) (proj1 (Size lens))) as (_ & N & D).
    now apply quotientOf_nonNegative.
  - apply textQuotient_nonNegative, Size.
Qed.

Lemma computeSimilarity_comm_in_doubles :
  Doubles.computeSimilarity (inDoubles a) (inDoubles b)
  = Doubles.computeSimilarity (inDoubles b) (inDoubles a).
Proof.
  rewrite !computeSimilarity_in_doubles.
  now rewrite !(lensScore_comm_in_doubles a b)
    by (auto using ordinarySize_fewTags).
Qed.

Lemma scoreOverall_nonNegative_in_doubles :
  nonNegative (Doubles.scoreOverall
                 (Doubles.computeSimilarity (inDoubles a) (inDoubles b))).
Proof.
  rewrite computeSimilarity_in_doubles. cbn [Doubles.scoreOverall].
  apply overall_nonNegative; apply lensScore_nonNegative_in_doubles.
Qed.

End SymmetryInDoubles.

(** C1, as stated, fails on the doubles the engine computes with: with
    the weights 3 and 2.2 against 1.6 and 1.3 the denominator is summed
    as (3 + 2.2) + 1.6 one way round and as (1.6 + 3) + 2.2 the other,
    which are two different doubles, and the two GIVEN scores differ. *)
Lemma computeSimilarity_not_symmetric_in_doubles :
  ~ (forall a b : Doubles.Identity,
        Doubles.equal (Doubles.scoreOverall (Doubles.computeSimilarity a b))
                      (Doubles.scoreOverall (Doubles.computeSimilarity b a))
        = true
        /\ forall lens,
             Doubles.equal
               (getLens (Doubles.scores (Doubles.computeSimilarity a b)) lens)
               (getLens (Doubles.scores (Doubles.computeSimilarity b a)) lens)
             = true).
Proof.
  intro H.
  destruct (H (inDoubles FractionalSample.identityA)
              (inDoubles FractionalSample.identityB)) as [_ L].
  specialize (L GIVEN). vm_compute in L. discriminate L.
Qed.

(** C1, amended.  Symmetry holds for the identities of the data model:
    with tag weights among the integers 1, 2 and 3 (and fewer than 2^51
    tags and 2^53 tokens in a lens), swapping the two identities changes
    neither the overall score nor the score of any lens.  In doubles the
    two results are the same numbers, none of them NaN, so [==] holds of
    them; over the rationals the scores are equal as well. *)
Theorem computeSimilarity_symmetric (a b : Identity) :
  integerIdentity a -> integerIdentity b -> ordinarySize a b ->
  let ab := Doubles.computeSimilarity (inDoubles a) (inDoubles b) in
  let ba := Doubles.computeSimilarity (inDoubles b) (inDoubles a) in
  Doubles.equal (Doubles.scoreOverall ab) (Doubles.scoreOverall ba) = true
  /\ (forall lens,
        Doubles.equal (getLens (Doubles.scores ab) lens)
                      (getLens (Doubles.scores ba) lens) = true)
  /\ ab = ba
  /\ scoreOverall (computeSimilarity a b) == scoreOverall (computeSimilarity b a)
  /\ (forall lens,
        getLens (scores (computeSimilarity a b)) lens
        == getLens (scores (computeSimilarity b a)) lens).
Proof.
  intros Ia Ib Size ab ba.
  assert (E : ab = ba) by now apply computeSimilarity_comm_in_doubles.
  split.
  { rewrite <- E. apply nonNegative_equal.
    now apply scoreOverall_nonNegative_in_doubles. }
  split.
  { intro lens. rewrite <- E. apply nonNegative_equal.
    subst ab. rewrite scores_in_doubles.
    now apply lensScore_nonNegative_in_doubles. }
  split; [exact E|].
  split.
  - rewrite !scoreOverall_computeSimilarity.
    now rewrite (lensScore_comm a b GIVEN), (lensScore_comm a b CHOSEN),
                (lensScore_comm a b CORE).
  - intro lens. rewrite !scores_computeSimilarity. apply lensScore_comm.
Qed.

Lemma integerIdentity_identityA : integerIdentity Sample.identityA.
Proof. intros []; repeat constructor; cbv; tauto. Defined.

Lemma integerIdentity_identityB : integerIdentity Sample.identityB.
Proof. intros []; repeat constructor; cbv; tauto. Defined.

Lemma ordinarySize_sample : ordinarySize Sample.identityA Sample.identityB.
Proof. intros []; split; vm_compute; reflexivity. Defined.

(** The theorem at the two identities of the repository's symmetry test. *)
Lemma computeSimilarity_symmetric_witness :
  Doubles.equal
    (Doubles.scoreOverall
       (Doubles.computeSimilarity (inDoubles Sample.identityA)
                                  (inDoubles Sample.identityB)))
    (Doubles.scoreOverall
       (Doubles.computeSimilarity (inDoubles Sample.identityB)
                                  (inDoubles Sample.identityA))) = true
  /\ Doubles.computeSimilarity (inDoubles Sample.identityA)
                               (inDoubles Sample.identityB)
     = Doubles.computeSimilarity (inDoubles Sample.identityB)
                                 (inDoubles Sample.identityA).
Proof.
  destruct (computeSimilarity_symmetric Sample.identityA Sample.identityB
              integerIdentity_identityA integerIdentity_identityB
              ordinarySize_sample) as (O & _ & E & _).
  exact (conj O E).
Defined.

(** C2. Bounds: for identities whose tag weights all lie in [[1,3]], every
    lens score and the overall score lie in [[0,1]]. *)
Theorem computeSimilarity_bounds (a b : Identity) :
  validIdentity a -> validIdentity b ->
  (forall lens,
      0 <= getLens (scores (computeSimilarity a b)) lens
      /\ getLens (scores (computeSimilarity a b)) lens <= 1)
  /\ 0 <= scoreOverall (computeSimilarity a b)
  /\ scoreOverall (computeSimilarity a b) <= 1.
Proof.
  intros _ _. split.
  - intro lens. rewrite scores_computeSimilarity. apply lensScore_bounds.
  - rewrite scoreOverall_computeSimilarity.
    pose proof (lensScore_bounds a b GIVEN).
    pose proof (lensScore_bounds a b CHOSEN).
    pose proof (lensScore_bounds a b CORE).
    setoid_replace (0 + 0.8 + 1.0 + 1.2) with 3 by reflexivity.
    split.
    + apply Qle_shift_div_l; lra.
    + apply Qle_shift_div_r; lra.
Qed.

Lemma validIdentity_identityA : validIdentity Sample.identityA.
Proof.
  intros []; repeat constructor; discriminate.
Defined.

Lemma validIdentity_identityB : validIdentity Sample.identityB.
Proof.
  intros []; repeat constructor; discriminate.
Defined.

Lemma computeSimilarity_bounds_witness :
  (forall lens,
      0 <= getLens (scores (computeSimilarity Sample.identityA Sample.identityB)) lens
      /\ getLens (scores (computeSimilarity Sample.identityA Sample.identityB)) lens <= 1)
  /\ 0 <= scoreOverall (computeSimilarity Sample.identityA Sample.identityB)
  /\ scoreOverall (computeSimilarity Sample.identityA Sample.identityB) <= 1.
Proof.
  apply (computeSimilarity_bounds Sample.identityA Sample.identityB).
  - exact validIdentity_identityA.
  - exact validIdentity_identityB.
Defined.

(** C5. The overall score is the mean of the three lens scores under the
    fixed weights GIVEN = 0.8, CHOSEN = 1.0, CORE = 1.2, whose sum is 3.0;
    three lens scores of 0.5 give an overall score of 0.5. *)
Theorem scoreOverall_weighted_mean (a b : Identity) :
  let r := computeSimilarity a b in
  lensWeights = mkPerLens 0.8 1.0 1.2
  /\ scoreOverall r
     == (0.8 * getLens (scores r) GIVEN + 1.0 * getLens (scores r) CHOSEN
         + 1.2 * getLens (scores r) CORE) / 3.0
  /\ (getLens (scores r) GIVEN == 0.5 ->
      getLens (scores r) CHOSEN == 0.5 ->
      getLens (scores r) CORE == 0.5 ->
      scoreOverall r == 0.5).
Proof.
  intro r. subst r. split; [reflexivity|].
  rewrite !scores_computeSimilarity, scoreOverall_computeSimilarity.
  split.
  - field.
  - intros G C K. rewrite G, C, K. reflexivity.
Qed.

Lemma scoreOverall_weighted_mean_witness :
  getLens (scores (computeSimilarity Sample.halfA Sample.halfB)) GIVEN == 0.5
  /\ getLens (scores (computeSimilarity Sample.halfA Sample.halfB)) CHOSEN == 0.5
  /\ getLens (scores (computeSimilarity Sample.halfA Sample.halfB)) CORE == 0.5
  /\ scoreOverall (computeSimilarity Sample.halfA Sample.halfB) == 0.5.
Proof.
  assert (G : getLens (scores (computeSimilarity Sample.halfA Sample.halfB)) GIVEN == 0.5)
    by (vm_compute; reflexivity).
  assert (C : getLens (scores (computeSimilarity Sample.halfA Sample.halfB)) CHOSEN == 0.5)
    by (vm_compute; reflexivity).
  assert (K : getLens (scores (computeSimilarity Sample.halfA Sample.halfB)) CORE == 0.5)
    by (vm_compute; reflexivity).
  split; [exact G | split; [exact C | split; [exact K |]]].
  exact (proj2 (proj2 (scoreOverall_weighted_mean Sample.halfA Sample.halfB)) G C K).
Defined.

(** C6. Every lens score is 0.7 times the weighted Jaccard of the two tag
    lists plus 0.3 times the text Jaccard of the two token streams, where a
    token stream tokenizes each text entry of the lens on its own and
    concatenates the token lists in order. *)
Theorem lens_score_blend (a b : Identity) (lens : Lens) :
  getLens (scores (computeSimilarity a b)) lens
  = 0.7 * weightedJaccard (tagsOf a lens) (tagsOf b lens)
    + 0.3 * textJaccard (concat (map tokenize (textsOf a lens)))
                        (concat (map tokenize (textsOf b lens))).
Proof.
  rewrite scores_computeSimilarity. unfold lensScore, computeLensSimilarity.
  unfold tokensOf, textsOf. now rewrite !flat_map_concat_map.
Qed.

(** C10. The score carried by the explanation of a lens is the entry of
    that lens in the scores record. *)
Theorem explanation_score_matches (a b : Identity) (lens : Lens) :
  score (getLens (explanations (computeSimilarity a b)) lens)
  = getLens (scores (computeSimilarity a b)) lens.
Proof. destruct lens; reflexivity. Qed.

(** C8. In a lens where both participants have no tag and no text, the
    engine, run in doubles, takes both early returns: [weightedJaccard]
    returns 0 on the empty key set and [textJaccard] returns 0 on two
    empty token sets, neither divides, and the lens score is the number
    +0, whatever the other lenses hold.  The quotient the early returns
    keep it from, 0 / 0, is NaN. *)
Theorem empty_lens_score_zero (a b : Doubles.Identity) (lens : Lens) :
  Doubles.tagsOf a lens = [] -> Doubles.textsOf a lens = [] ->
  Doubles.tagsOf b lens = [] -> Doubles.textsOf b lens = [] ->
  Doubles.weightedJaccard (Doubles.tagsOf a lens) (Doubles.tagsOf b lens)
  = S754_zero false
  /\ Doubles.textJaccard (Doubles.tokensOf a lens) (Doubles.tokensOf b lens)
     = S754_zero false
  /\ getLens (Doubles.scores (Doubles.computeSimilarity a b)) lens
     = S754_zero false
  /\ Binary64.div (S754_zero false) (S754_zero false) = S754_nan.
Proof.
  intros Ta Xa Tb Xb.
  assert (Ka : Doubles.tokensOf a lens = [])
    by (unfold Doubles.tokensOf; now rewrite Xa).
  assert (Kb : Doubles.tokensOf b lens = [])
    by (unfold Doubles.tokensOf; now rewrite Xb).
  rewrite scores_in_doubles. unfold lensScoreInDoubles.
  rewrite Ta, Tb, Ka, Kb.
  repeat split; vm_compute; reflexivity.
Qed.

Lemma empty_lens_score_zero_witness :
  Doubles.tagsOf (inDoubles Sample.emptyCore) CORE = []
  /\ Doubles.textsOf (inDoubles Sample.emptyCore) CORE = []
  /\ Doubles.tagsOf (inDoubles Sample.identityB) CORE = []
  /\ Doubles.textsOf (inDoubles Sample.identityB) CORE = []
  /\ getLens (Doubles.scores
                (Doubles.computeSimilarity (inDoubles Sample.emptyCore)
                                           (inDoubles Sample.identityB))) CORE
     = S754_zero false.
Proof.
  repeat (split; [reflexivity|]).
  apply (empty_lens_score_zero (inDoubles Sample.emptyCore)
           (inDoubles Sample.identityB) CORE); reflexivity.
Defined.

(** ** Comparing an identity with itself *)

Lemma lensScore_self (a : Identity) (lens : Lens) :
  validIdentity a -> tagsOf a lens <> [] -> tokensOf a lens <> [] ->
  lensScore a a lens == 1.
Proof.
  intros V T X. unfold lensScore, computeLensSimilarity.
  rewrite (weightedJaccard_self _ (V lens) T), (textJaccard_self _ X).
  reflexivity.
Qed.

(** A lens with tags and no token scores 0.7 against itself, and a lens
    with tokens and no tag scores 0.3. *)
Lemma lensScore_self_partial (a : Identity) (lens : Lens) :
  validIdentity a ->
  (tagsOf a lens <> [] -> tokensOf a lens = [] -> lensScore a a lens == 0.7)
  /\ (tagsOf a lens = [] -> tokensOf a lens <> [] -> lensScore a a lens == 0.3).
Proof.
  intro V. unfold lensScore, computeLensSimilarity. split.
  - intros T X. rewrite (weightedJaccard_self _ (V lens) T), X. reflexivity.
  - intros T X. rewrite (textJaccard_self _ X), T. reflexivity.
Qed.

(** C3, as stated, fails: an identity with tags in every lens and no text
    scores 0.7 against itself in a lens that has a tag. *)
Lemma self_similarity_tags_only_not_one :
  ~ (forall (a : Identity) (lens : Lens),
        validIdentity a ->
        (exists l, tagsOf a l <> []) ->
        (tagsOf a lens <> [] \/ textsOf a lens <> []) ->
        getLens (scores (computeSimilarity a a)) lens == 1).
Proof.
  intro H.
  assert (V : validIdentity Sample.tagsOnly)
    by (intros []; repeat constructor; discriminate).
  assert (E : exists l, tagsOf Sample.tagsOnly l <> [])
    by (exists GIVEN; discriminate).
  assert (T : tagsOf Sample.tagsOnly GIVEN <> [] \/ textsOf Sample.tagsOnly GIVEN <> [])
    by (left; discriminate).
  specialize (H Sample.tagsOnly GIVEN V E T).
  vm_compute in H. discriminate H.
Qed.

(** C3, amended. Comparing an identity whose weights lie in [[1,3]] with
    itself yields lens score exactly 1 in every lens that has at least one
    tag and at least one token left by the tokenizer. *)
Theorem self_similarity_one (a : Identity) (lens : Lens) :
  validIdentity a ->
  tagsOf a lens <> [] ->
  concat (map tokenize (textsOf a lens)) <> [] ->
  getLens (scores (computeSimilarity a a)) lens == 1.
Proof.
  intros V T X. rewrite scores_computeSimilarity.
  apply lensScore_self; try assumption.
  unfold tokensOf. fold (textsOf a lens). now rewrite flat_map_concat_map.
Qed.

Lemma self_similarity_one_witness :
  tagsOf Sample.identityA GIVEN <> []
  /\ concat (map tokenize (textsOf Sample.identityA GIVEN)) <> []
  /\ getLens (scores (computeSimilarity Sample.identityA Sample.identityA)) GIVEN == 1.
Proof.
  assert (T : tagsOf Sample.identityA GIVEN <> []) by discriminate.
  assert (X : concat (map tokenize (textsOf Sample.identityA GIVEN)) <> [])
    by (vm_compute; discriminate).
  split; [exact T | split; [exact X|]].
  exact (self_similarity_one Sample.identityA GIVEN validIdentity_identityA T X).
Defined.

(** ** Weighted Jaccard against its specification *)

Section WeightedJaccardSpec.

Local Open Scope list_scope.
Local Open Scope Q_scope.

Variables a b : list TagItem.
Hypothesis Va : validTags a.
Hypothesis Vb : validTags b.

Lemma unionKeys_perm :
  Permutation (allKeysOf (collapse a) (collapse b)) (Spec.unionKeys a b).
Proof.
  apply NoDup_Permutation; [apply allKeysOf_NoDup | apply NoDup_nodup |].
  intro k. unfold Spec.unionKeys.
  rewrite !(map_ext _ _ key_tagKey).
  now rewrite allKeysOf_In, nodup_In, in_app_iff.
Qed.

Lemma numeratorOf_spec : numeratorOf a b == Spec.numerator a b.
Proof.
  unfold numeratorOf, Spec.numerator.
  rewrite (sumOver_perm _ _ _ unionKeys_perm).
  apply sumOver_ext. intros k _. unfold minW.
  now rewrite !weightIn_spec.
Qed.

Lemma denominatorOf_spec : denominatorOf a b == Spec.denominator a b.
Proof.
  unfold denominatorOf, Spec.denominator.
  rewrite (sumOver_perm _ _ _ unionKeys_perm).
  apply sumOver_ext. intros k _. unfold maxW.
  now rewrite !weightIn_spec.
Qed.

Lemma unionKeys_nil : Spec.unionKeys a b = [] <-> allKeysOf (collapse a) (collapse b) = [].
Proof.
  pose proof unionKeys_perm as P. split; intro E; rewrite E in P.
  - now apply Permutation_nil, Permutation_sym.
  - now apply Permutation_nil.
Qed.

End WeightedJaccardSpec.

(** C4, as stated, fails: with a negative weight the code keeps 0 where
    the documented map has the maximum, and returns 1 where the documented
    quotient is 1/2. *)
Lemma weightedJaccard_negative_weight_not_documented :
  ~ (forall a b : list TagItem, weightedJaccardDocumented a b).
Proof.
  intro H.
  destruct (H Sample.negativeA Sample.negativeB) as (_ & _ & _ & R).
  assert (NE : Spec.unionKeys Sample.negativeA Sample.negativeB <> [])
    by (vm_compute; discriminate).
  specialize (R NE). vm_compute in R. discriminate R.
Qed.

(** C4, amended.  For tag lists whose weights are the integers 1 to 3 of
    the data model, [weightedJaccard] collapses each list to the map from
    the trimmed, lowercased value to the maximum weight among the
    duplicates; it returns 0 when the union of the keys is empty and
    otherwise the sum of the per-key minima divided by the (positive) sum
    of the per-key maxima, an absent key weighing 0.  In doubles both sums
    are exact (for fewer than 2^51 tags) and the result is their quotient,
    rounded once.  For A = {music:3, sports:2} and B = {music:1, travel:2}
    the result is 1/7, in doubles the double nearest to 1/7. *)
Theorem weightedJaccard_spec (a b : list TagItem) :
  integerTags a -> integerTags b ->
  weightedJaccardDocumented a b
  /\ NoDup (JsMap.keys (collapse a)) /\ NoDup (JsMap.keys (collapse b))
  /\ (Spec.unionKeys a b <> [] -> 0 < Spec.denominator a b)
  /\ weightedJaccard a b == Spec.weightedJaccard a b
  /\ (fewTags a b ->
      Doubles.weightedJaccard (map tagInDoubles a) (map tagInDoubles b)
      = quotientOf (Spec.numerator a b) (Spec.denominator a b))
  /\ weightedJaccard Sample.tagsA Sample.tagsB == 1 # 7
  /\ Doubles.weightedJaccard (map tagInDoubles Sample.tagsA)
                             (map tagInDoubles Sample.tagsB)
     = Binary64.literal 1 7.
Proof.
  intros Ia Ib.
  pose proof (integerTags_valid a Ia) as Va.
  pose proof (integerTags_valid b Ib) as Vb.
  assert (Z : Spec.unionKeys a b = [] -> weightedJaccard a b = 0).
  { intro E. apply unionKeys_nil in E.
    unfold weightedJaccard. now rewrite E. }
  assert (R : Spec.unionKeys a b <> [] ->
              0 < Spec.denominator a b
              /\ weightedJaccard a b == Spec.numerator a b / Spec.denominator a b).
  { intro NE.
    assert (K : allKeysOf (collapse a) (collapse b) <> [])
      by (intro E; apply NE; now apply unionKeys_nil).
    pose proof (denominatorOf_pos a b Va Vb K) as P. split.
    - now rewrite <- denominatorOf_spec.
    - now rewrite weightedJaccard_value, numeratorOf_spec, denominatorOf_spec. }
  split.
  { split; [intro k; now apply get_collapse_valid|].
    split; [intro k; now apply get_collapse_valid|].
    split; [exact Z|]. intro NE. now apply R. }
  split; [apply keys_collapse_NoDup|].
  split; [apply keys_collapse_NoDup|].
  split; [intro NE; now apply R|].
  split.
  { unfold Spec.weightedJaccard.
    destruct (Spec.unionKeys a b) as [|k r] eqn:U.
    - rewrite Z; reflexivity.
    - apply R. discriminate. }
  split.
  { intro Few. rewrite weightedJaccard_in_doubles by assumption.
    apply quotientOf_comp;
      [now apply numeratorOf_spec | now apply denominatorOf_spec]. }
  split; [reflexivity | vm_compute; reflexivity].
Qed.

Lemma validTags_tagsA : validTags Sample.tagsA.
Proof. repeat constructor; discriminate. Defined.

Lemma validTags_tagsB : validTags Sample.tagsB.
Proof. repeat constructor; discriminate. Defined.

Lemma integerTags_rawA : integerTags Sample.rawA.
Proof. repeat constructor; cbv; tauto. Defined.

Lemma integerTags_rawB : integerTags Sample.rawB.
Proof. repeat constructor; cbv; tauto. Defined.

(** The theorem at tag values that need trimming and lowercasing, with a
    duplicate: " Music ":1, "MUSIC":3 and "Sports":2 against "music":1 and
    " travel":2 is the worked example again. *)
Lemma weightedJaccard_spec_witness :
  Spec.unionKeys Sample.rawA Sample.rawB = ["sports"; "music"; "travel"]%string
  /\ JsMap.get (collapse Sample.rawA) "music" = Some 3
  /\ Spec.numerator Sample.rawA Sample.rawB == 1
  /\ Spec.denominator Sample.rawA Sample.rawB == 7
  /\ weightedJaccard Sample.rawA Sample.rawB
     == Spec.numerator Sample.rawA Sample.rawB
        / Spec.denominator Sample.rawA Sample.rawB
  /\ Doubles.weightedJaccard (map tagInDoubles Sample.rawA)
                             (map tagInDoubles Sample.rawB)
     = Binary64.literal 1 7.
Proof.
  split; [vm_compute; reflexivity|].
  destruct (weightedJaccard_spec Sample.rawA Sample.rawB
              integerTags_rawA integerTags_rawB)
    as ((G & _ & _ & R) & _ & _ & _ & _ & D & _).
  split; [rewrite G; vm_compute; reflexivity|].
  split; [vm_compute; reflexivity|].
  split; [vm_compute; reflexivity|].
  split; [apply R; vm_compute; discriminate|].
  rewrite D by (vm_compute; reflexivity). vm_compute. reflexivity.
Defined.

(** ** The stable sort *)

Section SortFacts.

Local Open Scope list_scope.
Local Open Scope Q_scope.

Implicit Types (e : string * number) (l : list (string * number)).

Lemma sortInsert_perm e l : Permutation (sortInsert byWeightDesc e l) (e :: l).
Proof.
  induction l as [|y r IH]; simpl; [reflexivity|].
  destruct (Qle_bool (byWeightDesc e y) 0); [reflexivity|].
  rewrite IH. apply perm_swap.
Qed.

Lemma sortBy_perm l : Permutation (sortBy byWeightDesc l) l.
Proof.
  induction l as [|x r IH]; simpl; [reflexivity|].
  rewrite sortInsert_perm. now constructor.
Qed.

Lemma heavierFirst_trans e1 e2 e3 :
  heavierFirst e1 e2 -> heavierFirst e2 e3 -> heavierFirst e1 e3.
Proof. unfold heavierFirst. intros. lra. Qed.

Lemma sortInsert_sorted e l :
  StronglySorted heavierFirst l ->
  StronglySorted heavierFirst (sortInsert byWeightDesc e l).
Proof.
  induction 1 as [|y r S IH F]; simpl; [repeat constructor|].
  destruct (Qle_bool (byWeightDesc e y) 0) eqn:C.
  - apply Qle_bool_iff in C. unfold byWeightDesc in C.
    assert (H : heavierFirst e y) by (unfold heavierFirst; lra).
    constructor; [now constructor|].
    constructor; [exact H|].
    eapply Forall_impl; [|exact F].
    intros z Hz. now apply heavierFirst_trans with y.
  - assert (H : heavierFirst y e).
    { unfold heavierFirst. unfold byWeightDesc in C.
      destruct (Qlt_le_dec (snd e) (snd y)) as [L|G]; [lra|].
      assert (T : Qle_bool (snd y - snd e) 0 = true)
        by (apply Qle_bool_iff; lra).
      congruence. }
    constructor; [exact IH|].
    apply (Permutation_Forall (Permutation_sym (sortInsert_perm e r))).
    now constructor.
Qed.

Lemma sortBy_sorted l : StronglySorted heavierFirst (sortBy byWeightDesc l).
Proof.
  induction l as [|x r IH]; simpl; [constructor | now apply sortInsert_sorted].
Qed.

Lemma firstn_In {A} (n : nat) (l : list A) (x : A) :
  In x (firstn n l) -> In x l.
Proof.
  intro H. rewrite <- (firstn_skipn n l). apply in_or_app. now left.
Qed.

Lemma skipn_In {A} (n : nat) (l : list A) (x : A) :
  In x (skipn n l) -> In x l.
Proof.
  intro H. rewrite <- (firstn_skipn n l). apply in_or_app. now right.
Qed.

Lemma StronglySorted_firstn {A} (R : A -> A -> Prop) (n : nat) (l : list A) :
  StronglySorted R l -> StronglySorted R (firstn n l).
Proof.
  intro S. revert n. induction S as [|x r S IH F]; intro n.
  - rewrite firstn_nil. constructor.
  - destruct n as [|n]; simpl; constructor; [apply IH|].
    apply Forall_forall. intros y Hy.
    rewrite Forall_forall in F. apply F. eapply firstn_In, Hy.
Qed.

Lemma StronglySorted_split {A} (R : A -> A -> Prop) (n : nat) (l : list A) :
  StronglySorted R l ->
  forall x y, In x (firstn n l) -> In y (skipn n l) -> R x y.
Proof.
  intro S. revert n. induction S as [|z r S IH F]; intros n x y Hx Hy.
  - rewrite firstn_nil in Hx. destruct Hx.
  - destruct n as [|n]; simpl in Hx, Hy; [destruct Hx|].
    destruct Hx as [->|Hx].
    + rewrite Forall_forall in F. apply F. eapply skipn_In, Hy.
    + now apply (IH n).
Qed.

Lemma StronglySorted_map {A B} (f : A -> B) (R : A -> A -> Prop)
    (R' : B -> B -> Prop) (l : list A) :
  (forall x y, In x l -> In y l -> R x y -> R' (f x) (f y)) ->
  StronglySorted R l -> StronglySorted R' (map f l).
Proof.
  intros H S. induction S as [|x r S IH F]; simpl; constructor.
  - apply IH. intros u v Hu Hv. apply H; now right.
  - apply Forall_forall. intros y Hy. apply in_map_iff in Hy.
    destruct Hy as [u [<- Hu]]. rewrite Forall_forall in F.
    apply H; [now left | now right | now apply F].
Qed.

Lemma StronglySorted_impl {A} (R R' : A -> A -> Prop) (l : list A) :
  (forall x y, R x y -> R' x y) -> StronglySorted R l -> StronglySorted R' l.
Proof.
  intros H S. induction S as [|x r S IH F]; constructor; [exact IH|].
  eapply Forall_impl; [|exact F]. intros y. apply H.
Qed.

End SortFacts.

(** ** The explainer *)

Section ExplainFacts.

Local Open Scope list_scope.
Local Open Scope Q_scope.

Lemma lowerChar_idem (c : ascii) :
  JsString.lowerChar (JsString.lowerChar c) = JsString.lowerChar c.
Proof. destruct c as [[] [] [] [] [] [] [] []]; reflexivity. Qed.

Lemma toLowerCase_idem (s : string) :
  JsString.toLowerCase (JsString.toLowerCase s) = JsString.toLowerCase s.
Proof.
  induction s as [|c r IH]; simpl; [reflexivity|].
  now rewrite lowerChar_idem, IH.
Qed.

Lemma tagKey_lowercase (item : TagItem) : Spec.isLowercase (tagKey item) = true.
Proof. apply isLowercase_toLowerCase. Qed.

Lemma Qpositive_iff (x : number) : Qpositive x = true <-> 0 < x.
Proof.
  unfold Qpositive. destruct (Qle_bool x 0) eqn:E; simpl.
  - apply Qle_bool_iff in E. split; [discriminate | intro; lra].
  - split; [intros _ | reflexivity].
    destruct (Qlt_le_dec 0 x) as [L|G]; [exact L|].
    apply Qle_bool_iff in G. congruence.
Qed.

Variables mapA mapB : JsMap.t number.

Lemma fold_explainStep (ks : list string) (st : ExplainState) :
  NoDup (JsMap.keys (es_weightMap st) ++ ks) ->
  fold_left (explainStep mapA mapB) ks st =
  mkExplainState (es_overlap st ++ filter (inBoth mapA mapB) ks)
                 (es_uniqueA st ++ filter (onlyInA mapA mapB) ks)
                 (es_uniqueB st ++ filter (notInA mapA mapB) ks)
                 (es_weightMap st ++ map (weightEntry mapA mapB) ks).
Proof.
  revert st. induction ks as [|k r IH]; intros st ND.
  - simpl. rewrite !app_nil_r. now destruct st.
  - cbn [fold_left].
    assert (Fresh : ~ In k (JsMap.keys (es_weightMap st))).
    { intro I. apply NoDup_remove_2 in ND. apply ND, in_or_app. now left. }
    assert (W : es_weightMap (explainStep mapA mapB st k)
                = es_weightMap st ++ [weightEntry mapA mapB k]).
    { unfold explainStep. cbn [es_weightMap].
      destruct (Qpositive (weightIn mapA k) && Qpositive (weightIn mapB k));
        [|destruct (Qpositive (weightIn mapA k))];
        cbn [es_weightMap]; now rewrite set_fresh. }
    rewrite IH.
    + rewrite W, <- app_assoc. cbn [map app filter].
      unfold explainStep, onlyInA, notInA, inBoth.
      destruct (Qpositive (weightIn mapA k)), (Qpositive (weightIn mapB k));
        cbn [andb negb es_overlap es_uniqueA es_uniqueB];
        rewrite <- ?app_assoc; reflexivity.
    + rewrite W. unfold JsMap.keys in *. rewrite map_app, <- app_assoc.
      exact ND.
Qed.

End ExplainFacts.

Section ExplainLensFacts.

Local Open Scope list_scope.
Local Open Scope Q_scope.

Variables a b : list TagItem.

Let mapA := collapse a.
Let mapB := collapse b.
Let ks := allKeysOf (collapse a) (collapse b).
Let sorted := sortBy byWeightDesc (map (weightEntry mapA mapB) ks).

Lemma explainLens_eq :
  explainLens a b =
  mkExplanation (filter (inBoth mapA mapB) ks)
                (filter (onlyInA mapA mapB) ks)
                (filter (notInA mapA mapB) ks)
                (map fst (firstn 3 sorted)).
Proof.
  unfold explainLens. fold mapA mapB ks.
  rewrite fold_explainStep by (apply allKeysOf_NoDup).
  reflexivity.
Qed.

Lemma sorted_perm : Permutation sorted (map (weightEntry mapA mapB) ks).
Proof. apply sortBy_perm. Qed.

Lemma sorted_entry (e : string * number) :
  In e sorted -> In (fst e) ks /\ snd e = maxW mapA mapB (fst e).
Proof.
  intro H. apply (Permutation_in _ sorted_perm), in_map_iff in H.
  destruct H as [k [<- Hk]]. now split.
Qed.

Lemma sorted_keys : Permutation (map fst sorted) ks.
Proof.
  rewrite (Permutation_map fst sorted_perm), map_map.
  unfold weightEntry. cbn [fst]. now rewrite map_id.
Qed.

Lemma NoDup_firstn {A} (n : nat) (l : list A) : NoDup l -> NoDup (firstn n l).
Proof.
  intro H. rewrite <- (firstn_skipn n l) in H.
  now apply NoDup_app_remove_r in H.
Qed.

Lemma topWeights_NoDup : NoDup (map fst (firstn 3 sorted)).
Proof.
  rewrite <- firstn_map. apply NoDup_firstn.
  apply (Permutation_NoDup (Permutation_sym sorted_keys)), allKeysOf_NoDup.
Qed.

Lemma topWeights_In (k : string) : In k (map fst (firstn 3 sorted)) -> In k ks.
Proof.
  intro H. apply in_map_iff in H. destruct H as [e [<- He]].
  now apply sorted_entry, (firstn_In 3).
Qed.

Lemma topWeights_length :
  length (map fst (firstn 3 sorted)) = Nat.min 3 (length ks).
Proof.
  rewrite length_map, length_firstn.
  now rewrite (Permutation_length sorted_perm), length_map.
Qed.

Lemma topWeights_sorted :
  StronglySorted (fun k1 k2 => maxW mapA mapB k2 <= maxW mapA mapB k1)
                 (map fst (firstn 3 sorted)).
Proof.
  apply StronglySorted_map with (R := heavierFirst).
  - intros x y Hx Hy H. unfold heavierFirst in H.
    apply (firstn_In 3), sorted_entry in Hx.
    apply (firstn_In 3), sorted_entry in Hy.
    destruct Hx as [_ <-], Hy as [_ <-]. exact H.
  - apply StronglySorted_firstn, sortBy_sorted.
Qed.

(** No key left out of [topWeights] outweighs a key in it. *)
Lemma topWeights_dominate (k k' : string) :
  In k' (map fst (firstn 3 sorted)) -> In k ks ->
  ~ In k (map fst (firstn 3 sorted)) ->
  maxW mapA mapB k <= maxW mapA mapB k'.
Proof.
  intros Hk' Hk Out.
  apply in_map_iff in Hk'. destruct Hk' as [e' [<- He']].
  assert (I : In (weightEntry mapA mapB k) sorted).
  { apply (Permutation_in _ (Permutation_sym sorted_perm)).
    now apply in_map. }
  rewrite <- (firstn_skipn 3 sorted) in I. apply in_app_or in I.
  destruct I as [I|I].
  - elim Out. change k with (fst (weightEntry mapA mapB k)).
    now apply in_map.
  - pose proof (StronglySorted_split heavierFirst 3 sorted
                  (sortBy_sorted _) e' _ He' I) as H.
    unfold heavierFirst in H. cbn [weightEntry snd] in H.
    apply (firstn_In 3), sorted_entry in He'.
    destruct He' as [_ <-]. exact H.
Qed.

Lemma ks_lowercase : Forall (fun k => Spec.isLowercase k = true) ks.
Proof.
  apply Forall_forall. intros k Hk. apply allKeysOf_In in Hk.
  destruct Hk as [Hk|Hk]; apply in_map_iff in Hk;
    destruct Hk as [item [<- _]]; apply tagKey_lowercase.
Qed.

Lemma incl_ks_lowercase (l : list string) :
  (forall k, In k l -> In k ks) -> Forall (fun k => Spec.isLowercase k = true) l.
Proof.
  intro H. apply Forall_forall. intros k Hk.
  pose proof ks_lowercase as F. rewrite Forall_forall in F. now apply F, H.
Qed.

Hypothesis Va : validTags a.
Hypothesis Vb : validTags b.

Lemma maxWeight_present (l : list TagItem) (k : string) :
  Spec.maxWeight l k <> None <-> In k (map tagKey l).
Proof.
  unfold Spec.maxWeight, Spec.maximum.
  destruct (Spec.weightsOf k l) as [|w r] eqn:E.
  - apply weightsOf_nil_iff in E. split; [congruence | contradiction].
  - split; [intros _ | discriminate].
    destruct (in_dec string_dec k (map tagKey l)) as [I|NI]; [exact I|].
    apply weightsOf_nil_iff in NI. congruence.
Qed.

Lemma Qpositive_weightIn (l : list TagItem) (k : string) :
  validTags l ->
  Qpositive (weightIn (collapse l) k) = true <-> In k (map tagKey l).
Proof.
  intro V. rewrite Qpositive_iff. split.
  - intro P. destruct (in_dec string_dec k (map tagKey l)) as [I|NI];
      [exact I|].
    apply weightsOf_nil_iff in NI. rewrite weightIn_collapse, NI in P.
    simpl in P. lra.
  - intro I. pose proof (weightIn_valid l k V I). lra.
Qed.

Lemma overlap_iff (k : string) :
  In k (filter (inBoth mapA mapB) ks) <->
  (exists wA, Spec.maxWeight a k = Some wA /\ 0 < wA)
  /\ (exists wB, Spec.maxWeight b k = Some wB /\ 0 < wB).
Proof.
  rewrite filter_In. unfold inBoth. rewrite andb_true_iff, !Qpositive_iff.
  unfold mapA, mapB. rewrite !weightIn_spec by assumption.
  unfold Spec.weightOrZero. split.
  - intros [_ [Pa Pb]].
    destruct (Spec.maxWeight a k) as [wA|]; [|lra].
    destruct (Spec.maxWeight b k) as [wB|]; [|lra].
    split; [exists wA | exists wB]; now split.
  - intros [[wA [Ea Pa]] [wB [Eb Pb]]]. split.
    + apply allKeysOf_In. left. apply maxWeight_present. congruence.
    + now rewrite Ea, Eb.
Qed.

Lemma uniqueA_iff (k : string) :
  In k (filter (onlyInA mapA mapB) ks) <->
  Spec.maxWeight a k <> None /\ Spec.maxWeight b k = None.
Proof.
  rewrite filter_In. unfold onlyInA, inBoth, ks.
  rewrite allKeysOf_In, andb_true_iff, negb_true_iff, andb_false_iff.
  pose proof (Qpositive_weightIn a k Va) as Pa.
  pose proof (Qpositive_weightIn b k Vb) as Pb.
  pose proof (maxWeight_present a k) as Ma.
  pose proof (maxWeight_present b k) as Mb.
  fold mapA mapB in Pa, Pb |- *.
  destruct (Qpositive (weightIn mapA k)), (Qpositive (weightIn mapB k));
    destruct (Spec.maxWeight b k); intuition congruence.
Qed.

Lemma uniqueB_iff (k : string) :
  In k (filter (notInA mapA mapB) ks) <->
  Spec.maxWeight b k <> None /\ Spec.maxWeight a k = None.
Proof.
  rewrite filter_In. unfold notInA, inBoth, ks.
  rewrite allKeysOf_In, andb_true_iff, !negb_true_iff, andb_false_iff.
  pose proof (Qpositive_weightIn a k Va) as Pa.
  pose proof (Qpositive_weightIn b k Vb) as Pb.
  pose proof (maxWeight_present a k) as Ma.
  pose proof (maxWeight_present b k) as Mb.
  fold mapA mapB in Pa, Pb |- *.
  destruct (Qpositive (weightIn mapA k)), (Qpositive (weightIn mapB k));
    destruct (Spec.maxWeight a k); intuition congruence.
Qed.

End ExplainLensFacts.

(** The explanation [computeSimilarity] stores for a lens is the one
    [explainLens] builds from the tags of that lens. *)
Lemma explanations_computeSimilarity (a b : Identity) (lens : Lens) :
  let exp := explainLens (tagsOf a lens) (tagsOf b lens) in
  getLens (explanations (computeSimilarity a b)) lens
  = mkLensSimilarityResult (lensScore a b lens) (overlap exp) (uniqueA exp)
                           (uniqueB exp) (expTopWeights exp).
Proof. destruct lens; reflexivity. Qed.

(** C9, as stated, fails: a tag of weight 0 on side A is a key of A's map
    only, and the code files it under the tags unique to B. *)
Lemma explainLens_zero_weight_not_documented :
  ~ (forall a b : list TagItem, explainLensDocumented a b).
Proof.
  intro H. destruct (H Sample.zeroA Sample.zeroB) as (_ & _ & B & _).
  assert (I : In "x"%string (uniqueB (explainLens Sample.zeroA Sample.zeroB)))
    by (vm_compute; now left).
  apply B in I. destruct I as [I _]. apply I. reflexivity.
Qed.

(** C9, amended.  For tag lists whose weights lie in [[1,3]], with each
    side collapsed to its trimmed-lowercase-key -> maximum-weight map: the
    overlap is exactly the keys present with positive weight on both
    sides; the keys unique to a side are exactly the keys present on that
    side only; the top weights are at most 3 keys (3, or all of them when
    fewer) of the union, in descending order of the larger of the two
    weights, and no key left out outweighs one of them; every list is
    duplicate-free and holds lowercase keys. *)
Theorem explainLens_spec (a b : list TagItem) :
  validTags a -> validTags b ->
  let e := explainLens a b in
  let heaviest k := Qmax (Spec.weightOrZero a k) (Spec.weightOrZero b k) in
  explainLensDocumented a b
  /\ length (expTopWeights e) = Nat.min 3 (length (Spec.unionKeys a b))
  /\ (forall k k',
         In k' (expTopWeights e) -> In k (Spec.unionKeys a b) ->
         ~ In k (expTopWeights e) -> heaviest k <= heaviest k').
Proof.
  intros Va Vb. unfold explainLensDocumented. cbv zeta.
  rewrite explainLens_eq.
  cbn [overlap uniqueA uniqueB expTopWeights].
  pose proof (unionKeys_perm a b) as U.
  assert (H : forall k, Qmax (Spec.weightOrZero a k) (Spec.weightOrZero b k)
                        = maxW (collapse a) (collapse b) k).
  { intro k. unfold maxW. now rewrite !weightIn_spec. }
  split.
  { split; [intro k; now apply overlap_iff|].
    split; [intro k; now apply uniqueA_iff|].
    split; [intro k; now apply uniqueB_iff|].
    split; [rewrite topWeights_length; apply Nat.le_min_l|].
    split.
    { intros k Hk. apply (Permutation_in _ U). now apply topWeights_In. }
    split.
    { eapply StronglySorted_impl; [|apply topWeights_sorted].
      intros x y L. cbv beta in L. now rewrite !H. }
    repeat constructor.
    - apply NoDup_filter, allKeysOf_NoDup.
    - apply (incl_ks_lowercase a b). intros k Hk. now apply filter_In in Hk.
    - apply NoDup_filter, allKeysOf_NoDup.
    - apply (incl_ks_lowercase a b). intros k Hk. now apply filter_In in Hk.
    - apply NoDup_filter, allKeysOf_NoDup.
    - apply (incl_ks_lowercase a b). intros k Hk. now apply filter_In in Hk.
    - apply topWeights_NoDup.
    - apply (incl_ks_lowercase a b). apply topWeights_In. }
  split; [rewrite topWeights_length; now rewrite (Permutation_length U)|].
  intros k k' Hk' Hk Out. rewrite !H.
  apply topWeights_dominate; try assumption.
  now apply (Permutation_in _ (Permutation_sym U)).
Qed.

(** The theorem at tag values that need trimming and lowercasing. *)
Lemma explainLens_spec_witness :
  explainLens Sample.rawA Sample.rawB
  = mkExplanation ["music"%string] ["sports"%string] ["travel"%string]
                  ["music"; "sports"; "travel"]%string
  /\ explainLensDocumented Sample.rawA Sample.rawB.
Proof.
  split; [vm_compute; reflexivity|].
  exact (proj1 (explainLens_spec Sample.rawA Sample.rawB
                  (integerTags_valid _ integerTags_rawA)
                  (integerTags_valid _ integerTags_rawB))).
Defined.

(** ** The constants in binary64 *)

Section Binary64Facts.

Import Binary64.

(** A lens whose two Jaccard terms are 1 scores exactly 1.0 in doubles:
    0.7 + 0.3 rounds to 1. *)
Lemma blend_one_one : blend (ofZ 1) (ofZ 1) = ofZ 1.
Proof. vm_compute. reflexivity. Qed.

(** Tags alone give the double 0.7, tokens alone the double 0.3, and
    nothing at all gives +0. *)
Lemma blend_one_zero : blend (ofZ 1) (ofZ 0) = literal 7 10.
Proof. vm_compute. reflexivity. Qed.

Lemma blend_zero_one : blend (ofZ 0) (ofZ 1) = literal 3 10.
Proof. vm_compute. reflexivity. Qed.

Lemma blend_zero_zero : blend (ofZ 0) (ofZ 0) = S754_zero false.
Proof. vm_compute. reflexivity. Qed.

(** 0.8 + 1.0 + 1.2 is the double 3, so the aggregator divides by 3. *)
Lemma weightTotal_three : weightTotal = ofZ 3.
Proof. vm_compute. reflexivity. Qed.

(** Three lens scores of 0.5 give the overall score 0.5, and three lens
    scores of 1 give 1. *)
Lemma overall_half : overall (literal 1 2) (literal 1 2) (literal 1 2) = literal 1 2.
Proof. vm_compute. reflexivity. Qed.

Lemma overall_one : overall (ofZ 1) (ofZ 1) (ofZ 1) = ofZ 1.
Proof. vm_compute. reflexivity. Qed.

End Binary64Facts.

(** * Further properties of the engine *)

(** ** The tokenizer *)

Section TokenizerFacts.

Local Open Scope string_scope.
Local Open Scope nat_scope.

Lemma tokenize_words (text : string) :
  tokenize text =
  map simpleStem
    (filter (fun t => negb (isStopWord t))
       (runs (JsString.mapChars cleanChar (JsString.toLowerCase text)))).
Proof.
  unfold tokenize.
  change (fun t : string => 0 <? String.length t) with nonEmpty.
  now rewrite splitWhitespace_words.
Qed.

Lemma allChars_app (p : ascii -> bool) (s t : string) :
  allChars p (s ++ t) = allChars p s && allChars p t.
Proof.
  induction s as [|c r IH]; simpl; [reflexivity|].
  now rewrite IH, andb_assoc.
Qed.

Lemma allChars_impl (p q : ascii -> bool) (s : string) :
  (forall c, p c = true -> q c = true) ->
  allChars p s = true -> allChars q s = true.
Proof.
  intro H. induction s as [|c r IH]; simpl; [reflexivity|].
  intro E. apply andb_true_iff in E. destruct E as [Ec Er].
  apply andb_true_iff. split; [now apply H | now apply IH].
Qed.

Lemma allChars_mapChars (p : ascii -> bool) (f : ascii -> ascii) (s : string) :
  (forall c, p (f c) = true) -> allChars p (JsString.mapChars f s) = true.
Proof.
  intro H. induction s as [|c r IH]; simpl; [reflexivity|].
  now rewrite H, IH.
Qed.

(** A word has no whitespace, is not empty, and keeps what holds of
    every character of the text. *)
Lemma words_chars (p : ascii -> bool) (s : string) :
  allChars p s = true ->
  Forall (fun w => w <> "" /\ allChars p w = true
                   /\ allChars (fun c => negb (JsString.isSpace c)) w = true)
         (runs s).
Proof.
  induction s as [|c r IH]; intro H; [constructor|].
  cbn [allChars] in H. apply andb_true_iff in H. destruct H as [Hc Hr].
  specialize (IH Hr). cbn [runs].
  destruct (JsString.isSpace c) eqn:Sc; [exact IH|].
  assert (One : "" <> String c "" -> String c "" <> ""
                /\ allChars p (String c "") = true
                /\ allChars (fun c => negb (JsString.isSpace c)) (String c "") = true).
  { intros _. cbn [allChars]. rewrite Hc, Sc. repeat split; discriminate. }
  destruct r as [|c' r']; [constructor; [apply One; discriminate | constructor]|].
  destruct (JsString.isSpace c') eqn:Sc'.
  - constructor; [apply One; discriminate | exact IH].
  - destruct (runs (String c' r')) as [|w ws];
      [constructor; [apply One; discriminate | constructor]|].
    inversion IH as [|? ? (Hn & Hp & Hs) Hws]; subst.
    constructor; [|exact Hws].
    cbn [allChars]. rewrite Hc, Sc, Hp, Hs. repeat split; discriminate.
Qed.

Lemma cleanChar_class (c : ascii) :
  JsString.isLowerAlnum (cleanChar c) || JsString.isSpace (cleanChar c) = true.
Proof.
  unfold cleanChar.
  destruct (JsString.isLowerAlnum c || JsString.isSpace c) eqn:E;
    [exact E | reflexivity].
Qed.

Lemma raw_tokens_clean (text : string) :
  Forall cleanToken
    (runs (JsString.mapChars cleanChar (JsString.toLowerCase text))).
Proof.
  eapply Forall_impl;
    [|apply (words_chars (fun c => JsString.isLowerAlnum c || JsString.isSpace c));
      apply allChars_mapChars, cleanChar_class].
  intros w (Hn & Hp & Hs). split; [exact Hn|].
  clear Hn. induction w as [|c r IH]; [reflexivity|].
  cbn [allChars] in *.
  apply andb_true_iff in Hp. destruct Hp as [Pc Pr].
  apply andb_true_iff in Hs. destruct Hs as [Sc Sr].
  rewrite IH by assumption.
  destruct (JsString.isSpace c); [discriminate|].
  rewrite orb_false_r in Pc. now rewrite Pc.
Qed.

Lemma stripSuffix_app (suf t p : string) :
  Spec.stripSuffix suf t = Some p -> t = p ++ suf.
Proof.
  revert p. induction t as [|c r IH]; intros p H.
  - cbn [Spec.stripSuffix] in H.
    destruct (String.eqb_spec "" suf) as [E|NE]; [|discriminate].
    injection H as <-. exact E.
  - cbn [Spec.stripSuffix] in H.
    destruct (String.eqb_spec (String c r) suf) as [E|NE].
    + injection H as <-. exact E.
    + destruct (Spec.stripSuffix suf r) as [q|]; [|discriminate].
      injection H as <-. simpl. now rewrite (IH q eq_refl).
Qed.

Lemma length_append (s t : string) :
  String.length (s ++ t) = String.length s + String.length t.
Proof. induction s as [|c r IH]; simpl; [reflexivity | now rewrite IH]. Qed.

Lemma rule_app (suf : string) (n : nat) (t p : string) :
  Spec.rule suf n t = Some p ->
  t = p ++ suf /\ n < String.length p + String.length suf.
Proof.
  unfold Spec.rule. destruct (Nat.ltb_spec n (String.length t)) as [L|G];
    [|discriminate].
  intro H. apply stripSuffix_app in H. split; [exact H|].
  now rewrite <- length_append, <- H.
Qed.

(** What [simpleStem] does to a token, case by case. *)
Lemma simpleStem_cases (t : string) :
  simpleStem t = t
  \/ exists suf, In suf stemSuffixes /\ t = simpleStem t ++ suf
                 /\ 2 <= String.length (simpleStem t).
Proof.
  rewrite simpleStem_stem. unfold Spec.stem, stemSuffixes.
  destruct (Spec.rule "ing" 4 t) as [p|] eqn:R1.
  { apply rule_app in R1. destruct R1 as [E L]. simpl in L.
    right. exists "ing". repeat split; [simpl; tauto | exact E | lia]. }
  destruct (Spec.rule "ed" 3 t) as [p|] eqn:R2.
  { apply rule_app in R2. destruct R2 as [E L]. simpl in L.
    right. exists "ed". repeat split; [simpl; tauto | exact E | lia]. }
  destruct (Spec.rule "s" 3 t) as [p|] eqn:R3.
  { apply rule_app in R3. destruct R3 as [E L]. simpl in L.
    right. exists "s". repeat split; [simpl; tauto | exact E | lia]. }
  now left.
Qed.

Lemma simpleStem_clean (t : string) : cleanToken t -> cleanToken (simpleStem t).
Proof.
  intros [Hn Hc]. destruct (simpleStem_cases t) as [E|(suf & _ & E & L)].
  - rewrite E. now split.
  - split.
    + intro Z. rewrite Z in L. simpl in L. lia.
    + rewrite E, allChars_app in Hc. now apply andb_true_iff in Hc.
Qed.

End TokenizerFacts.

Lemma tokenize_tokens_clean_aux (text : string) : Forall cleanToken (tokenize text).
Proof.
  rewrite tokenize_words. apply Forall_forall. intros t Ht.
  apply in_map_iff in Ht. destruct Ht as [w [<- Hw]].
  apply simpleStem_clean. apply filter_In in Hw. destruct Hw as [Hw _].
  pose proof (raw_tokens_clean text) as F. rewrite Forall_forall in F.
  now apply F.
Qed.

(** X1. Every token [tokenize] returns is non-empty and consists of
    characters in [[a-z0-9]] only, and so is every token of the token
    stream [computeSimilarity] builds for a lens. *)
Theorem tokenize_tokens_clean :
  (forall text, Forall cleanToken (tokenize text))
  /\ (forall a lens, Forall cleanToken (tokensOf a lens)).
Proof.
  split; [exact tokenize_tokens_clean_aux|].
  intros a lens. unfold tokensOf. apply Forall_forall. intros t Ht.
  apply in_flat_map in Ht. destruct Ht as [text [_ Ht]].
  pose proof (tokenize_tokens_clean_aux text) as F.
  rewrite Forall_forall in F. now apply F.
Qed.

(** X2. [simpleStem] either leaves a token alone or strips exactly one of
    the suffixes "ing", "ed", "s" from its end, and then at least two
    characters remain; the stem is never longer than the token and never
    empty for a non-empty token. *)
Theorem simpleStem_strips_one_suffix (t : string) :
  (simpleStem t = t
   \/ exists suf,
        In suf stemSuffixes
        /\ t = (simpleStem t ++ suf)%string
        /\ (2 <= String.length (simpleStem t))%nat)
  /\ (String.length (simpleStem t) <= String.length t)%nat
  /\ (t <> EmptyString -> simpleStem t <> EmptyString).
Proof.
  pose proof (simpleStem_cases t) as C. split; [exact C|].
  destruct C as [E|(suf & _ & E & L)].
  - rewrite E. split; [apply Nat.le_refl | tauto].
  - split.
    + rewrite E at 2. rewrite length_append. apply Nat.le_add_r.
    + intros _ Z. rewrite Z in L. simpl in L. lia.
Qed.

Section TokenizerComposition.

Local Open Scope string_scope.

Lemma lowerChar_alnum (c : ascii) :
  JsString.isLowerAlnum c = true -> JsString.lowerChar c = c.
Proof. destruct c as [[] [] [] [] [] [] [] []]; intro H; try reflexivity; discriminate H. Qed.

Lemma alnum_not_space (c : ascii) :
  JsString.isLowerAlnum c = true -> JsString.isSpace c = false.
Proof. destruct c as [[] [] [] [] [] [] [] []]; intro H; try reflexivity; discriminate H. Qed.

Lemma toLowerCase_clean (t : string) :
  allChars JsString.isLowerAlnum t = true -> JsString.toLowerCase t = t.
Proof.
  induction t as [|c r IH]; simpl; [reflexivity|].
  intro H. apply andb_true_iff in H. destruct H as [Hc Hr].
  now rewrite lowerChar_alnum, IH.
Qed.

Lemma cleanChars_clean (t : string) :
  allChars JsString.isLowerAlnum t = true -> JsString.mapChars cleanChar t = t.
Proof.
  induction t as [|c r IH]; simpl; [reflexivity|].
  intro H. apply andb_true_iff in H. destruct H as [Hc Hr].
  unfold cleanChar at 1. now rewrite Hc, IH.
Qed.

Lemma words_single (t : string) :
  t <> "" -> allChars (fun c => negb (JsString.isSpace c)) t = true ->
  runs t = [t].
Proof.
  induction t as [|c r IH]; intros NE H; [contradiction|].
  cbn [allChars] in H. apply andb_true_iff in H. destruct H as [Hc Hr].
  apply negb_true_iff in Hc. cbn [runs]. rewrite Hc.
  destruct r as [|c' r']; [reflexivity|].
  assert (Hc' : JsString.isSpace c' = false).
  { cbn [allChars] in Hr. apply andb_true_iff in Hr.
    now apply negb_true_iff. }
  rewrite Hc', IH; [reflexivity | discriminate | exact Hr].
Qed.

Lemma tokenize_clean_token (t : string) :
  cleanToken t ->
  tokenize t = if isStopWord t then [] else [simpleStem t].
Proof.
  intros [NE H]. rewrite tokenize_words, toLowerCase_clean, cleanChars_clean
    by assumption.
  rewrite words_single; [| exact NE |].
  - cbn [filter map]. now destruct (isStopWord t).
  - eapply allChars_impl; [|exact H].
    intros c Hc. now rewrite alnum_not_space.
Qed.

Lemma words_app_space (s1 s2 : string) :
  runs (s1 ++ String " " s2) = (runs s1 ++ runs s2)%list.
Proof.
  induction s1 as [|c r IH]; [reflexivity|].
  cbn [append runs].
  destruct (JsString.isSpace c) eqn:Sc; [exact IH|].
  destruct r as [|c' r'].
  - reflexivity.
  - cbn [append] in *. destruct (JsString.isSpace c') eqn:Sc'.
    + now rewrite IH.
    + rewrite IH.
      pose proof (words_cons_nonspace c' r' Sc') as NE.
      destruct (runs (String c' r')); [contradiction | reflexivity].
Qed.

Lemma toLowerCase_app (s t : string) :
  JsString.toLowerCase (s ++ t) = JsString.toLowerCase s ++ JsString.toLowerCase t.
Proof. induction s as [|c r IH]; simpl; [reflexivity | now rewrite IH]. Qed.

Lemma mapChars_app (f : ascii -> ascii) (s t : string) :
  JsString.mapChars f (s ++ t) = JsString.mapChars f s ++ JsString.mapChars f t.
Proof. induction s as [|c r IH]; simpl; [reflexivity | now rewrite IH]. Qed.

Lemma tokenize_app_space (s1 s2 : string) :
  tokenize (s1 ++ String " " s2) = (tokenize s1 ++ tokenize s2)%list.
Proof.
  rewrite !tokenize_words, toLowerCase_app, mapChars_app.
  cbn [JsString.toLowerCase JsString.mapChars].
  change (cleanChar (JsString.lowerChar " ")) with " "%char.
  now rewrite words_app_space, filter_app, map_app.
Qed.

End TokenizerComposition.

(** X3. Tokenizing the tokens again is one more pass of stopword removal
    and stemming, nothing else: the tokenizer's own output needs no
    cleaning or splitting. *)
Theorem tokenize_again (text : string) :
  flat_map tokenize (tokenize text)
  = map simpleStem (filter (fun t => negb (isStopWord t)) (tokenize text)).
Proof.
  pose proof (tokenize_tokens_clean_aux text) as F.
  induction F as [|t r Ht _ IH]; [reflexivity|].
  cbn [flat_map filter]. rewrite IH, (tokenize_clean_token t Ht).
  now destruct (isStopWord t).
Qed.

(** X4. The token stream of a lens, which tokenizes each text on its own,
    is the token list of the texts joined by single spaces. *)
Theorem tokenize_joined_texts (texts : list string) :
  flat_map tokenize texts = tokenize (joinTexts texts).
Proof.
  unfold joinTexts. induction texts as [|t r IH]; [reflexivity|].
  cbn [flat_map]. rewrite IH. destruct r as [|t' r'].
  - cbn [String.concat flat_map]. now rewrite app_nil_r.
  - cbn [String.concat]. cbn [append]. symmetry.
    apply (tokenize_app_space t (String.concat " " (t' :: r'))).
Qed.

(** ** Weighted Jaccard *)

Section WeightedJaccardMore.

Local Open Scope list_scope.
Local Open Scope Q_scope.

Implicit Types (a b : list TagItem) (f g : string -> number).

Lemma sumOver_zero f ks :
  (forall k, In k ks -> 0 <= f k) ->
  (Spec.sumOver f ks == 0 <-> forall k, In k ks -> f k == 0).
Proof.
  induction ks as [|x r IH]; intro P; simpl.
  - split; [intros _ k [] | reflexivity].
  - assert (Px : 0 <= f x) by (apply P; now left).
    assert (Pr : forall k, In k r -> 0 <= f k) by (intros k Hk; apply P; now right).
    pose proof (sumOver_nonneg f r Pr) as Sr. specialize (IH Pr). split.
    + intros E k [<-|Hk]; [lra|]. apply IH; [lra | exact Hk].
    + intro H. rewrite (H x (or_introl eq_refl)).
      assert (Spec.sumOver f r == 0) by (apply IH; intros k Hk; apply H; now right).
      lra.
Qed.

Lemma sumOver_le_eq f g ks :
  (forall k, In k ks -> f k <= g k) ->
  Spec.sumOver f ks == Spec.sumOver g ks ->
  forall k, In k ks -> f k == g k.
Proof.
  induction ks as [|x r IH]; intros L E k Hk; [destruct Hk|]. simpl in E.
  assert (Lx : f x <= g x) by (apply L; now left).
  assert (Lr : forall k, In k r -> f k <= g k) by (intros y Hy; apply L; now right).
  pose proof (sumOver_le f g r Lr) as Sr.
  destruct Hk as [<-|Hk]; [lra|]. apply IH; [exact Lr | lra | exact Hk].
Qed.

Lemma fold_Qmax_compat (ws : list number) (acc acc' : number) :
  acc == acc' -> fold_left Qmax ws acc == fold_left Qmax ws acc'.
Proof.
  revert acc acc'. induction ws as [|w r IH]; intros acc acc' E; simpl;
    [exact E|].
  apply IH. now rewrite E.
Qed.

Lemma fold_Qmax_perm (ws ws' : list number) :
  Permutation ws ws' ->
  forall acc, fold_left Qmax ws acc == fold_left Qmax ws' acc.
Proof.
  induction 1 as [|x l l' _ IH|x y l|l l' l'' _ IH1 _ IH2]; intro acc; simpl.
  - reflexivity.
  - apply IH.
  - apply fold_Qmax_compat.
    rewrite <- !Q.max_assoc. now rewrite (Q.max_comm y x).
  - now rewrite IH1.
Qed.

Lemma weightsOf_perm (k : string) a a' :
  Permutation a a' -> Permutation (Spec.weightsOf k a) (Spec.weightsOf k a').
Proof.
  intro P. unfold Spec.weightsOf. apply Permutation_map.
  induction P as [|x l l' _ IH|x y l|l l' l'' _ IH1 _ IH2]; simpl.
  - constructor.
  - destruct (Spec.key x =? k)%string; [now constructor | exact IH].
  - destruct (Spec.key x =? k)%string, (Spec.key y =? k)%string;
      try reflexivity. apply perm_swap.
  - now rewrite IH1.
Qed.

Lemma weightIn_absent a (k : string) :
  ~ In k (map tagKey a) -> weightIn (collapse a) k = 0.
Proof.
  intro H. apply weightsOf_nil_iff in H. now rewrite weightIn_collapse, H.
Qed.

(** Only the keys and their collapsed weights matter. *)
Lemma weightedJaccard_ext a a' b :
  (forall k, In k (map tagKey a) <-> In k (map tagKey a')) ->
  (forall k, weightIn (collapse a) k == weightIn (collapse a') k) ->
  weightedJaccard a b == weightedJaccard a' b.
Proof.
  intros K W.
  assert (P : Permutation (allKeysOf (collapse a) (collapse b))
                          (allKeysOf (collapse a') (collapse b))).
  { apply NoDup_Permutation; try apply allKeysOf_NoDup.
    intro k. rewrite !allKeysOf_In, K. tauto. }
  rewrite !weightedJaccard_value. unfold numeratorOf, denominatorOf.
  rewrite !(sumOver_perm _ _ _ P).
  rewrite (sumOver_ext (minW (collapse a) (collapse b))
                       (minW (collapse a') (collapse b)))
    by (intros k _; unfold minW; now rewrite W).
  rewrite (sumOver_ext (maxW (collapse a) (collapse b))
                       (maxW (collapse a') (collapse b)))
    by (intros k _; unfold maxW; now rewrite W).
  reflexivity.
Qed.

Lemma minW_zero_iff a b (k : string) :
  minW (collapse a) (collapse b) k == 0 <-> inBoth (collapse a) (collapse b) k = false.
Proof.
  unfold inBoth. rewrite andb_false_iff.
  pose proof (minW_nonneg a b k) as N.
  pose proof (Q.min_glb_lt_iff (weightIn (collapse a) k) (weightIn (collapse b) k) 0) as G.
  fold (minW (collapse a) (collapse b) k) in G.
  pose proof (Qpositive_iff (weightIn (collapse a) k)) as Pa.
  pose proof (Qpositive_iff (weightIn (collapse b) k)) as Pb.
  destruct (Qpositive (weightIn (collapse a) k)),
           (Qpositive (weightIn (collapse b) k)); split; intro H.
  - exfalso. assert (0 < minW (collapse a) (collapse b) k)
      by (apply G; split; [now apply Pa | now apply Pb]). lra.
  - destruct H; discriminate.
  - now right.
  - destruct (Qlt_le_dec 0 (minW (collapse a) (collapse b) k)) as [L|L]; [|lra].
    apply G in L. destruct L as [_ L]. apply Pb in L. discriminate.
  - now left.
  - destruct (Qlt_le_dec 0 (minW (collapse a) (collapse b) k)) as [L|L]; [|lra].
    apply G in L. destruct L as [L _]. apply Pa in L. discriminate.
  - now left.
  - destruct (Qlt_le_dec 0 (minW (collapse a) (collapse b) k)) as [L|L]; [|lra].
    apply G in L. destruct L as [L _]. apply Pa in L. discriminate.
Qed.

Lemma weightedJaccard_zero_iff a b :
  weightedJaccard a b == 0 <-> numeratorOf a b == 0.
Proof.
  rewrite weightedJaccard_value.
  pose proof (numeratorOf_nonneg a b) as N.
  pose proof (numeratorOf_le a b) as L.
  destruct (Qlt_le_dec 0 (denominatorOf a b)) as [P|NP].
  - split; intro E.
    + assert (H : numeratorOf a b == numeratorOf a b / denominatorOf a b * denominatorOf a b)
        by (field; lra).
      rewrite H, E. ring.
    + rewrite E. unfold Qdiv. ring.
  - assert (Z : numeratorOf a b == 0) by lra.
    split; intros _; [exact Z|]. rewrite Z. unfold Qdiv. ring.
Qed.

End WeightedJaccardMore.

(** Lists with the same keys and the same collapsed weights give the same
    two sums. *)
Lemma sums_ext (a a' b : list TagItem) :
  (forall k, In k (map tagKey a) <-> In k (map tagKey a')) ->
  (forall k, weightIn (collapse a) k == weightIn (collapse a') k) ->
  numeratorOf a b == numeratorOf a' b
  /\ denominatorOf a b == denominatorOf a' b.
Proof.
  intros K W.
  assert (P : Permutation (allKeysOf (collapse a) (collapse b))
                          (allKeysOf (collapse a') (collapse b))).
  { apply NoDup_Permutation; try apply allKeysOf_NoDup.
    intro k. rewrite !allKeysOf_In, K. tauto. }
  unfold numeratorOf, denominatorOf.
  rewrite !(sumOver_perm _ _ _ P). split; apply sumOver_ext; intros k _.
  - unfold minW. now rewrite W.
  - unfold maxW. now rewrite W.
Qed.

Lemma sums_permutation (a a' b b' : list TagItem) :
  Permutation a a' -> Permutation b b' ->
  numeratorOf a b == numeratorOf a' b'
  /\ denominatorOf a b == denominatorOf a' b'.
Proof.
  assert (L : forall x x' y, Permutation x x' ->
                             numeratorOf x y == numeratorOf x' y
                             /\ denominatorOf x y == denominatorOf x' y).
  { intros x x' y P. apply sums_ext.
    - intro k. split; apply Permutation_in;
        [|apply Permutation_sym]; now apply Permutation_map.
    - intro k. rewrite !weightIn_collapse.
      apply fold_Qmax_perm. now apply weightsOf_perm. }
  intros Pa Pb.
  destruct (L a a' b Pa) as [N1 D1]. destruct (L b b' a' Pb) as [N2 D2].
  split.
  - now rewrite N1, (numeratorOf_comm a' b), N2, (numeratorOf_comm b' a').
  - now rewrite D1, (denominatorOf_comm a' b), D2, (denominatorOf_comm b' a').
Qed.

(** X5. For the integer weights of the data model, [weightedJaccard] does
    not depend on the order in which either side lists its tags: in
    doubles the two results are the same number (the sums are exact), and
    over the rationals they are equal. *)
Theorem weightedJaccard_permutation (a a' b b' : list TagItem) :
  integerTags a -> integerTags b -> fewTags a b ->
  Permutation a a' -> Permutation b b' ->
  Doubles.weightedJaccard (map tagInDoubles a) (map tagInDoubles b)
  = Doubles.weightedJaccard (map tagInDoubles a') (map tagInDoubles b')
  /\ weightedJaccard a b == weightedJaccard a' b'.
Proof.
  intros Ia Ib Few Pa Pb.
  destruct (sums_permutation a a' b b' Pa Pb) as [N D].
  split.
  - assert (Ia' : integerTags a') by (eapply Permutation_Forall; eassumption).
    assert (Ib' : integerTags b') by (eapply Permutation_Forall; eassumption).
    assert (Few' : fewTags a' b').
    { unfold fewTags in *.
      now rewrite <- (Permutation_length Pa), <- (Permutation_length Pb). }
    rewrite !weightedJaccard_in_doubles by assumption.
    now apply quotientOf_comp.
  - rewrite !weightedJaccard_value. now rewrite N, D.
Qed.

Lemma integerTags_tagsA : integerTags Sample.tagsA.
Proof. repeat constructor; cbv; tauto. Defined.

Lemma integerTags_tagsB : integerTags Sample.tagsB.
Proof. repeat constructor; cbv; tauto. Defined.

Lemma weightedJaccard_permutation_witness :
  Permutation Sample.tagsA (rev Sample.tagsA)
  /\ Permutation Sample.tagsB (rev Sample.tagsB)
  /\ Doubles.weightedJaccard (map tagInDoubles Sample.tagsA)
                             (map tagInDoubles Sample.tagsB)
     = Doubles.weightedJaccard (map tagInDoubles (rev Sample.tagsA))
                               (map tagInDoubles (rev Sample.tagsB)).
Proof.
  assert (Pa : Permutation Sample.tagsA (rev Sample.tagsA)) by apply Permutation_rev.
  assert (Pb : Permutation Sample.tagsB (rev Sample.tagsB)) by apply Permutation_rev.
  assert (Few : fewTags Sample.tagsA Sample.tagsB) by (vm_compute; reflexivity).
  split; [exact Pa | split; [exact Pb|]].
  exact (proj1 (weightedJaccard_permutation _ _ _ _ integerTags_tagsA
                  integerTags_tagsB Few Pa Pb)).
Defined.

(** The tag part of a lens score is zero exactly when the explanation
    lists no overlapping tag, whatever the weights. *)
Lemma weightedJaccard_zero_overlap (a b : list TagItem) :
  weightedJaccard a b == 0 <-> overlap (explainLens a b) = [].
Proof.
  rewrite weightedJaccard_zero_iff, explainLens_eq. cbn [overlap].
  unfold numeratorOf.
  rewrite sumOver_zero by (intros k _; apply minW_nonneg).
  split.
  - intro H.
    destruct (filter (inBoth (collapse a) (collapse b))
                     (allKeysOf (collapse a) (collapse b))) as [|k r] eqn:F;
      [reflexivity|].
    assert (I : In k (filter (inBoth (collapse a) (collapse b))
                             (allKeysOf (collapse a) (collapse b))))
      by (rewrite F; now left).
    apply filter_In in I. destruct I as [I B].
    apply H, minW_zero_iff in I. congruence.
  - intros F k Hk. apply minW_zero_iff.
    destruct (inBoth (collapse a) (collapse b) k) eqn:B; [|reflexivity].
    assert (I : In k (filter (inBoth (collapse a) (collapse b))
                             (allKeysOf (collapse a) (collapse b))))
      by (apply filter_In; now split).
    rewrite F in I. destruct I.
Qed.

(** X6. For tag lists with the integer weights of the data model that are
    not both empty, [weightedJaccard] is 1 exactly when both sides give
    every key the same collapsed weight. *)
Theorem weightedJaccard_one_iff (a b : list TagItem) :
  integerTags a -> integerTags b -> a <> [] \/ b <> [] ->
  (weightedJaccard a b == 1
   <-> forall k, Spec.weightOrZero a k == Spec.weightOrZero b k).
Proof.
  intros Ia Ib NE.
  pose proof (integerTags_valid a Ia) as Va.
  pose proof (integerTags_valid b Ib) as Vb.
  assert (K : allKeysOf (collapse a) (collapse b) <> []).
  { intro E. apply allKeysOf_nil in E. destruct E as [-> ->].
    destruct NE as [H|H]; now apply H. }
  pose proof (denominatorOf_pos a b Va Vb K) as D.
  rewrite weightedJaccard_value. split.
  - intros E k. rewrite <- !weightIn_spec by assumption.
    assert (S : numeratorOf a b == denominatorOf a b).
    { assert (H : numeratorOf a b
                  == numeratorOf a b / denominatorOf a b * denominatorOf a b)
        by (field; lra).
      rewrite H, E. ring. }
    destruct (in_dec string_dec k (allKeysOf (collapse a) (collapse b))) as [I|NI].
    + pose proof (sumOver_le_eq _ _ _ (fun x _ => minW_le_maxW a b x) S k I) as M.
      unfold minW, maxW in M.
      pose proof (Q.le_min_l (weightIn (collapse a) k) (weightIn (collapse b) k)).
      pose proof (Q.le_min_r (weightIn (collapse a) k) (weightIn (collapse b) k)).
      pose proof (Q.le_max_l (weightIn (collapse a) k) (weightIn (collapse b) k)).
      pose proof (Q.le_max_r (weightIn (collapse a) k) (weightIn (collapse b) k)).
      lra.
    + rewrite allKeysOf_In in NI.
      rewrite !weightIn_absent by tauto. reflexivity.
  - intro H. apply ratio_one; [|exact D].
    apply sumOver_ext. intros k _. unfold minW, maxW.
    rewrite !weightIn_spec by assumption.
    rewrite (H k). now rewrite Q.min_id, Q.max_id.
Qed.

Lemma weightedJaccard_one_iff_witness :
  (Sample.tagsA <> [] \/ rev Sample.tagsA <> [])
  /\ (weightedJaccard Sample.tagsA (rev Sample.tagsA) == 1
      <-> forall k, Spec.weightOrZero Sample.tagsA k
                    == Spec.weightOrZero (rev Sample.tagsA) k).
Proof.
  assert (NE : Sample.tagsA <> [] \/ rev Sample.tagsA <> []) by (left; discriminate).
  assert (V : integerTags (rev Sample.tagsA)) by (repeat constructor; cbv; tauto).
  split; [exact NE|].
  exact (weightedJaccard_one_iff _ _ integerTags_tagsA V NE).
Defined.

(** ** Jaccard over tokens *)

Section TextJaccardMore.

Local Open Scope list_scope.
Local Open Scope Q_scope.

Implicit Types (s t : list string).

Lemma ofNat_eq (n m : nat) : ofNat n == ofNat m -> n = m.
Proof.
  unfold ofNat. intro E. apply Nat2Z.inj.
  unfold Qeq in E. simpl in E. lia.
Qed.

Lemma common_nil_iff s t : common s t = [] <-> forall x, In x s -> ~ In x t.
Proof.
  unfold common. split.
  - intros E x Hs Ht.
    assert (I : In x (filter (JsSet.has (JsSet.ofList t)) (JsSet.ofList s))).
    { apply filter_In. split; [now apply ofList_In|].
      now apply has_In, ofList_In. }
    rewrite E in I. destruct I.
  - intro H.
    destruct (filter (JsSet.has (JsSet.ofList t)) (JsSet.ofList s)) as [|x r] eqn:F;
      [reflexivity|].
    assert (I : In x (filter (JsSet.has (JsSet.ofList t)) (JsSet.ofList s)))
      by (rewrite F; now left).
    apply filter_In in I. destruct I as [Is It].
    apply (proj1 (ofList_In _ _)) in Is.
    apply (proj1 (has_In _ _)) in It. apply (proj1 (ofList_In _ _)) in It.
    elim (H x Is It).
Qed.

Lemma nonempty_cases s t :
  {JsSet.ofList s = [] /\ JsSet.ofList t = []}
  + {JsSet.ofList s <> [] \/ JsSet.ofList t <> []}.
Proof.
  destruct (JsSet.ofList s) as [|x r].
  - destruct (JsSet.ofList t) as [|y r'].
    + left. now split.
    + right. right. discriminate.
  - right. left. discriminate.
Qed.

(** Only the two sets of tokens matter. *)
Lemma textJaccard_ext s s' t :
  (forall x, In x s <-> In x s') -> textJaccard s t = textJaccard s' t.
Proof.
  intro H.
  assert (Pc : Permutation (common s t) (common s' t)).
  { unfold common. apply NoDup_Permutation;
      try (apply NoDup_filter, ofList_NoDup).
    intro x. rewrite !filter_In, !ofList_In, H. tauto. }
  assert (Pu : Permutation (unionSet s t) (unionSet s' t)).
  { unfold unionSet. apply ofList_perm. intro x.
    rewrite !in_app_iff, !ofList_In, H. tauto. }
  assert (E : JsSet.ofList s = [] <-> JsSet.ofList s' = []).
  { rewrite !ofList_nil. split; intros ->.
    - destruct s' as [|x r]; [reflexivity|].
      destruct (proj2 (H x) (or_introl eq_refl)).
    - destruct s as [|x r]; [reflexivity|].
      destruct (proj1 (H x) (or_introl eq_refl)). }
  destruct (nonempty_cases s t) as [[Es Et]|NE].
  - rewrite !textJaccard_empty; try assumption; [reflexivity | now apply E].
  - rewrite !textJaccard_ratio; [| | exact NE].
    + now rewrite (Permutation_length Pc), (Permutation_length Pu).
    + destruct NE as [N|N]; [left | now right]. now rewrite <- E.
Qed.

Lemma textJaccard_zero_iff s t :
  textJaccard s t == 0 <-> forall x, In x s -> ~ In x t.
Proof.
  rewrite <- common_nil_iff.
  destruct (nonempty_cases s t) as [[Es Et]|NE].
  - rewrite textJaccard_empty by assumption. unfold common. rewrite Es.
    split; reflexivity.
  - rewrite textJaccard_ratio by exact NE.
    pose proof (ofNat_pos _ (unionSet_nonempty s t NE)) as U. split.
    + intro E.
      assert (Z : ofNat (length (common s t)) == 0).
      { assert (H : ofNat (length (common s t))
                    == ofNat (length (common s t)) / ofNat (length (unionSet s t))
                       * ofNat (length (unionSet s t))) by (field; lra).
        rewrite H, E. ring. }
      apply (ofNat_eq _ 0%nat) in Z. now apply length_zero_iff_nil.
    + intros ->. change (ofNat (length (@nil string))) with 0.
      unfold Qdiv. ring.
Qed.

End TextJaccardMore.

(** X7. [textJaccard] depends on its arguments only through the sets of
    tokens they hold: repeated tokens and the order of the tokens do not
    matter. *)
Theorem textJaccard_sets_only (s s' t t' : list string) :
  (forall x, In x s <-> In x s') -> (forall x, In x t <-> In x t') ->
  textJaccard s t = textJaccard s' t'.
Proof.
  intros Hs Ht. rewrite (textJaccard_ext s s' t Hs).
  rewrite (textJaccard_comm s' t), (textJaccard_ext t t' s' Ht).
  apply textJaccard_comm.
Qed.

Lemma textJaccard_sets_only_witness :
  textJaccard ["jazz"; "piano"; "jazz"]%string ["piano"]%string
  = textJaccard ["piano"; "jazz"]%string ["piano"; "piano"]%string.
Proof.
  apply (textJaccard_sets_only ["jazz"; "piano"; "jazz"]%string
           ["piano"; "jazz"]%string ["piano"]%string ["piano"; "piano"]%string);
    intro x; simpl; tauto.
Defined.

(** X8. [textJaccard] is 0 exactly when the two token lists share no
    token, and 1 exactly when they are non-empty and hold the same
    tokens. *)
Theorem textJaccard_extremes (s t : list string) :
  (textJaccard s t == 0 <-> forall x, In x s -> ~ In x t)
  /\ (textJaccard s t == 1 <-> s <> [] /\ forall x, In x s <-> In x t).
Proof.
  split; [apply textJaccard_zero_iff|].
  split.
  - intro E.
    destruct (nonempty_cases s t) as [[Es Et]|NE].
    { rewrite textJaccard_empty in E by assumption. discriminate E. }
    rewrite textJaccard_ratio in E by exact NE.
    pose proof (unionSet_nonempty s t NE) as Un.
    pose proof (ofNat_pos _ Un) as U.
    assert (C : length (common s t) = length (unionSet s t)).
    { apply ofNat_eq.
      assert (H : ofNat (length (common s t))
                  == ofNat (length (common s t)) / ofNat (length (unionSet s t))
                     * ofNat (length (unionSet s t))) by (field; lra).
      rewrite H, E. ring. }
    assert (L1 : (length (common s t) <= length (JsSet.ofList s))%nat)
      by apply filter_length_le.
    assert (L2 : (length (JsSet.ofList s) <= length (unionSet s t))%nat).
    { apply NoDup_incl_length; [apply ofList_NoDup|].
      intros x Hx. apply ofList_In, in_or_app. now left. }
    assert (All : forallb (JsSet.has (JsSet.ofList t)) (JsSet.ofList s) = true).
    { apply filter_length_forallb. unfold common in *. lia. }
    assert (Sub : incl (unionSet s t) (JsSet.ofList s)).
    { apply NoDup_length_incl; [apply ofList_NoDup | lia |].
      intros x Hx. apply ofList_In, in_or_app. now left. }
    split.
    + intros ->. change (length (JsSet.ofList [])) with 0%nat in L1. lia.
    + intro x. split; intro Hx.
      * rewrite forallb_forall in All.
        apply ofList_In, has_In. apply All. now apply ofList_In.
      * apply ofList_In, Sub. apply ofList_In, in_or_app. right.
        now apply ofList_In.
  - intros [NE H].
    rewrite textJaccard_comm, <- (textJaccard_ext s t s H).
    now apply textJaccard_self.
Qed.

(** ** Lens scores and the overall score *)

Section ScoreFacts.

Local Open Scope list_scope.
Local Open Scope Q_scope.

Lemma blend_zero_iff (jw tj : number) :
  0 <= jw -> 0 <= tj -> (0.7 * jw + 0.3 * tj == 0 <-> jw == 0 /\ tj == 0).
Proof.
  intros J T. split.
  - intro E. split; lra.
  - intros [-> ->]. reflexivity.
Qed.

End ScoreFacts.


(** The score of a lens is 0 exactly when no tag overlaps and no token is
    shared. *)
Lemma lensScore_zero_no_overlap (a b : Identity) (lens : Lens) :
  lensScore a b lens == 0
  <-> overlap (explainLens (tagsOf a lens) (tagsOf b lens)) = []
      /\ forall x, In x (tokensOf a lens) -> ~ In x (tokensOf b lens).
Proof.
  unfold lensScore, computeLensSimilarity.
  rewrite blend_zero_iff
    by (apply weightedJaccard_bounds || apply textJaccard_bounds).
  now rewrite weightedJaccard_zero_overlap, textJaccard_zero_iff.
Qed.

(** X10. For identities whose weights lie in [[1,3]], the overall score is
    0 exactly when, in every lens, the explanation lists no overlapping
    tag and the two token streams share no token. *)
Theorem scoreOverall_zero_iff (a b : Identity) :
  validIdentity a -> validIdentity b ->
  (scoreOverall (computeSimilarity a b) == 0
   <-> forall lens,
         overlapTags (getLens (explanations (computeSimilarity a b)) lens) = []
         /\ forall x, In x (tokensOf a lens) -> ~ In x (tokensOf b lens)).
Proof.
  intros _ _.
  rewrite scoreOverall_computeSimilarity.
  pose proof (lensScore_bounds a b GIVEN) as G.
  pose proof (lensScore_bounds a b CHOSEN) as C.
  pose proof (lensScore_bounds a b CORE) as K.
  assert (Z : (0 + lensScore a b GIVEN * 0.8 + lensScore a b CHOSEN * 1.0
               + lensScore a b CORE * 1.2) / (0 + 0.8 + 1.0 + 1.2) == 0
              <-> forall lens, lensScore a b lens == 0).
  { set (g := lensScore a b GIVEN) in *.
    set (c := lensScore a b CHOSEN) in *.
    set (k := lensScore a b CORE) in *.
    assert (E : (0 + g * 0.8 + c * 1.0 + k * 1.2) / (0 + 0.8 + 1.0 + 1.2)
                == (0.8 * g + c + 1.2 * k) / 3) by field.
    assert (V : (0.8 * g + c + 1.2 * k) / 3 * 3 == 0.8 * g + c + 1.2 * k)
      by (field; discriminate).
    rewrite E. split.
    - intros H lens. rewrite H in V.
      destruct lens; fold g; fold c; fold k; lra.
    - intro H. pose proof (H GIVEN) as Hg. pose proof (H CHOSEN) as Hc.
      pose proof (H CORE) as Hk. fold g in Hg. fold c in Hc. fold k in Hk.
      rewrite Hg, Hc, Hk. reflexivity. }
  rewrite Z. split; intros H lens; specialize (H lens).
  - rewrite explanations_computeSimilarity. cbn [overlapTags].
    now apply lensScore_zero_no_overlap.
  - rewrite explanations_computeSimilarity in H. cbn [overlapTags] in H.
    now apply lensScore_zero_no_overlap.
Qed.

Lemma scoreOverall_zero_iff_witness :
  scoreOverall (computeSimilarity Sample.identityA Sample.identityB) == 0
  <-> forall lens,
        overlapTags (getLens (explanations
                                (computeSimilarity Sample.identityA
                                                   Sample.identityB)) lens) = []
        /\ forall x, In x (tokensOf Sample.identityA lens) ->
                     ~ In x (tokensOf Sample.identityB lens).
Proof.
  exact (scoreOverall_zero_iff Sample.identityA Sample.identityB
           validIdentity_identityA validIdentity_identityB).
Defined.

(** X11. A lens that is empty on both sides still counts with its full
    weight, so for identities whose weights lie in [[1,3]] the overall
    score then stays below 1: two participants never reach the overall
    score 1 while a lens is empty on both sides. *)
Theorem empty_lens_below_one (a b : Identity) (lens : Lens) :
  validIdentity a -> validIdentity b ->
  tagsOf a lens = [] -> textsOf a lens = [] ->
  tagsOf b lens = [] -> textsOf b lens = [] ->
  scoreOverall (computeSimilarity a b) < 1.
Proof.
  intros _ _ Ta Xa Tb Xb.
  assert (Z : lensScore a b lens == 0).
  { unfold lensScore, tokensOf. rewrite Ta, Tb, Xa, Xb. reflexivity. }
  rewrite scoreOverall_computeSimilarity.
  pose proof (lensScore_bounds a b GIVEN) as G.
  pose proof (lensScore_bounds a b CHOSEN) as C.
  pose proof (lensScore_bounds a b CORE) as K.
  assert (E : (0 + lensScore a b GIVEN * 0.8 + lensScore a b CHOSEN * 1.0
               + lensScore a b CORE * 1.2) / (0 + 0.8 + 1.0 + 1.2)
              == (0.8 * lensScore a b GIVEN + lensScore a b CHOSEN
                  + 1.2 * lensScore a b CORE) / 3) by field.
  rewrite E. apply Qlt_shift_div_r; [reflexivity|].
  destruct lens; lra.
Qed.

Lemma validIdentity_emptyCore : validIdentity Sample.emptyCore.
Proof. intros []; repeat constructor; discriminate. Defined.

Lemma empty_lens_below_one_witness :
  scoreOverall (computeSimilarity Sample.emptyCore Sample.identityB) < 1.
Proof.
  apply (empty_lens_below_one Sample.emptyCore Sample.identityB CORE
           validIdentity_emptyCore validIdentity_identityB);
    reflexivity.
Defined.

(** ** The explainer *)

Section ExplainMore.

Local Open Scope list_scope.
Local Open Scope Q_scope.

Lemma filter_three_way {A} (p q r : A -> bool) (l : list A) :
  (forall x, (p x = true /\ q x = false /\ r x = false)
             \/ (p x = false /\ q x = true /\ r x = false)
             \/ (p x = false /\ q x = false /\ r x = true)) ->
  Permutation (filter p l ++ filter q l ++ filter r l) l.
Proof.
  intro H. induction l as [|x t IH]; [reflexivity|]. cbn [filter].
  destruct (H x) as [(-> & -> & ->)|[(-> & -> & ->)|(-> & -> & ->)]].
  - cbn [app]. now constructor.
  - cbn [app]. rewrite <- Permutation_middle. now constructor.
  - rewrite app_assoc, <- Permutation_middle, <- app_assoc. now constructor.
Qed.

Lemma explain_classes (mapA mapB : JsMap.t number) (k : string) :
  (inBoth mapA mapB k = true /\ onlyInA mapA mapB k = false
   /\ notInA mapA mapB k = false)
  \/ (inBoth mapA mapB k = false /\ onlyInA mapA mapB k = true
      /\ notInA mapA mapB k = false)
  \/ (inBoth mapA mapB k = false /\ onlyInA mapA mapB k = false
      /\ notInA mapA mapB k = true).
Proof.
  unfold onlyInA, notInA, inBoth.
  destruct (Qpositive (weightIn mapA k)), (Qpositive (weightIn mapB k));
    cbn; tauto.
Qed.

End ExplainMore.

(** X12. The three tag lists of an explanation split the union of the two
    key sets: every key of either side is in exactly one of the overlap,
    the tags unique to A and the tags unique to B, and nothing else is;
    with at most three keys in all, the top weights list holds every one
    of them. *)
Theorem explainLens_partition (a b : list TagItem) :
  let e := explainLens a b in
  NoDup (overlap e ++ uniqueA e ++ uniqueB e)
  /\ (forall k, In k (overlap e ++ uniqueA e ++ uniqueB e)
                <-> In k (map tagKey a) \/ In k (map tagKey b))
  /\ ((length (overlap e ++ uniqueA e ++ uniqueB e) <= 3)%nat ->
      Permutation (expTopWeights e) (overlap e ++ uniqueA e ++ uniqueB e)).
Proof.
  intro e. subst e. rewrite explainLens_eq.
  cbn [overlap uniqueA uniqueB expTopWeights].
  pose proof (filter_three_way _ _ _ (allKeysOf (collapse a) (collapse b))
                (explain_classes (collapse a) (collapse b))) as P.
  split; [|split].
  - apply (Permutation_NoDup (Permutation_sym P)), allKeysOf_NoDup.
  - intro k. rewrite <- allKeysOf_In. split; apply Permutation_in;
      [exact P | exact (Permutation_sym P)].
  - intro L. rewrite (Permutation_length P) in L. rewrite P.
    apply NoDup_Permutation_bis.
    + apply topWeights_NoDup.
    + rewrite topWeights_length. lia.
    + intros k Hk. now apply topWeights_In in Hk.
Qed.

Lemma explainLens_partition_witness :
  (length (overlap (explainLens Sample.tagsA Sample.tagsB)
           ++ uniqueA (explainLens Sample.tagsA Sample.tagsB)
           ++ uniqueB (explainLens Sample.tagsA Sample.tagsB)) <= 3)%nat
  /\ Permutation (expTopWeights (explainLens Sample.tagsA Sample.tagsB))
                 (overlap (explainLens Sample.tagsA Sample.tagsB)
                  ++ uniqueA (explainLens Sample.tagsA Sample.tagsB)
                  ++ uniqueB (explainLens Sample.tagsA Sample.tagsB)).
Proof.
  assert (L : (length (overlap (explainLens Sample.tagsA Sample.tagsB)
                       ++ uniqueA (explainLens Sample.tagsA Sample.tagsB)
                       ++ uniqueB (explainLens Sample.tagsA Sample.tagsB)) <= 3)%nat)
    by (vm_compute; lia).
  split; [exact L|].
  exact (proj2 (proj2 (explainLens_partition Sample.tagsA Sample.tagsB)) L).
Defined.

(** X13. Swapping the two sides of an explanation swaps the two lists of
    unique tags and keeps the overlap, up to the order of the keys, for
    tag lists within the data model. *)
Theorem explainLens_swap (a b : list TagItem) :
  validTags a -> validTags b ->
  Permutation (overlap (explainLens a b)) (overlap (explainLens b a))
  /\ Permutation (uniqueA (explainLens a b)) (uniqueB (explainLens b a))
  /\ Permutation (uniqueB (explainLens a b)) (uniqueA (explainLens b a)).
Proof.
  intros Va Vb. rewrite !explainLens_eq. cbn [overlap uniqueA uniqueB].
  repeat split; apply NoDup_Permutation;
    try (apply NoDup_filter, allKeysOf_NoDup); intro k.
  - rewrite (overlap_iff a b Va Vb k), (overlap_iff b a Vb Va k). tauto.
  - rewrite (uniqueA_iff a b Va Vb k), (uniqueB_iff b a Vb Va k). tauto.
  - rewrite (uniqueB_iff a b Va Vb k), (uniqueA_iff b a Vb Va k). tauto.
Qed.

Lemma explainLens_swap_witness :
  Permutation (overlap (explainLens Sample.tagsA Sample.tagsB))
              (overlap (explainLens Sample.tagsB Sample.tagsA))
  /\ Permutation (uniqueA (explainLens Sample.tagsA Sample.tagsB))
                 (uniqueB (explainLens Sample.tagsB Sample.tagsA))
  /\ Permutation (uniqueB (explainLens Sample.tagsA Sample.tagsB))
                 (uniqueA (explainLens Sample.tagsB Sample.tagsA)).
Proof.
  exact (explainLens_swap Sample.tagsA Sample.tagsB validTags_tagsA validTags_tagsB).
Defined.

Section NormalKeys.

Local Open Scope string_scope.

Lemma isSpace_lowerChar (c : ascii) :
  JsString.isSpace (JsString.lowerChar c) = JsString.isSpace c.
Proof. destruct c as [[] [] [] [] [] [] [] []]; reflexivity. Qed.

Lemma trimStart_toLowerCase (s : string) :
  JsString.trimStart (JsString.toLowerCase s)
  = JsString.toLowerCase (JsString.trimStart s).
Proof.
  induction s as [|c r IH]; [reflexivity|].
  cbn [JsString.toLowerCase JsString.trimStart].
  rewrite isSpace_lowerChar. now destruct (JsString.isSpace c).
Qed.

Lemma trimEnd_toLowerCase (s : string) :
  JsString.trimEnd (JsString.toLowerCase s)
  = JsString.toLowerCase (JsString.trimEnd s).
Proof.
  induction s as [|c r IH]; [reflexivity|].
  cbn [JsString.toLowerCase JsString.trimEnd].
  rewrite IH, isSpace_lowerChar.
  destruct (JsString.trimEnd r); cbn [JsString.toLowerCase];
    [now destruct (JsString.isSpace c) | reflexivity].
Qed.

Lemma trim_toLowerCase (s : string) :
  JsString.trim (JsString.toLowerCase s) = JsString.toLowerCase (JsString.trim s).
Proof.
  unfold JsString.trim. now rewrite trimStart_toLowerCase, trimEnd_toLowerCase.
Qed.

Lemma startsClean_trimStart (s : string) : startsClean (JsString.trimStart s) = true.
Proof.
  induction s as [|c r IH]; [reflexivity|]. cbn [JsString.trimStart].
  destruct (JsString.isSpace c) eqn:E; [exact IH|]. cbn. now rewrite E.
Qed.

Lemma startsClean_trimEnd (s : string) :
  startsClean s = true -> startsClean (JsString.trimEnd s) = true.
Proof.
  destruct s as [|c r]; [reflexivity|]. cbn [startsClean JsString.trimEnd].
  intro H. destruct (JsString.trimEnd r).
  - apply negb_true_iff in H. rewrite H. cbn [startsClean]. now rewrite H.
  - exact H.
Qed.

Lemma trimStart_clean (s : string) : startsClean s = true -> JsString.trimStart s = s.
Proof.
  destruct s as [|c r]; [reflexivity|]. cbn [startsClean JsString.trimStart].
  intro H. apply negb_true_iff in H. now rewrite H.
Qed.

Lemma trimEnd_idem (s : string) :
  JsString.trimEnd (JsString.trimEnd s) = JsString.trimEnd s.
Proof.
  induction s as [|c r IH]; [reflexivity|]. cbn [JsString.trimEnd].
  destruct (JsString.trimEnd r) as [|d u] eqn:E.
  - destruct (JsString.isSpace c) eqn:Sc; [reflexivity|].
    cbn [JsString.trimEnd]. now rewrite Sc.
  - cbn [JsString.trimEnd] in *. now rewrite IH.
Qed.

Lemma trim_idem (s : string) : JsString.trim (JsString.trim s) = JsString.trim s.
Proof.
  unfold JsString.trim.
  rewrite (trimStart_clean (JsString.trimEnd (JsString.trimStart s)))
    by apply startsClean_trimEnd, startsClean_trimStart.
  apply trimEnd_idem.
Qed.

Lemma tagKey_normal (item : TagItem) : isNormalKey (tagKey item).
Proof.
  unfold isNormalKey, tagKey.
  rewrite trim_toLowerCase, trim_idem. apply toLowerCase_idem.
Qed.

Lemma collapse_normalize (l : list TagItem) :
  collapse (map normalizeTag l) = collapse l.
Proof.
  unfold collapse. generalize (@nil (string * Q)).
  induction l as [|item r IH]; intro m; [reflexivity|].
  cbn [map fold_left]. rewrite IH. f_equal.
  unfold collapseStep, normalizeTag at 1 2 3. cbn [weight].
  change (tagKey {| value := tagKey item; weight := weight item |})
    with (JsString.toLowerCase (JsString.trim (tagKey item))).
  now rewrite (tagKey_normal item).
Qed.

End NormalKeys.

(** X14. The keys are normal forms: trimming and lowercasing a key that an
    explanation returns gives the key back, and replacing every tag value
    by its key beforehand changes neither the tag score nor the
    explanation. *)
Theorem explainLens_keys_normal (a b : list TagItem) :
  Forall (Forall isNormalKey)
         [overlap (explainLens a b); uniqueA (explainLens a b);
          uniqueB (explainLens a b); expTopWeights (explainLens a b)]
  /\ weightedJaccard (map normalizeTag a) (map normalizeTag b) = weightedJaccard a b
  /\ explainLens (map normalizeTag a) (map normalizeTag b) = explainLens a b.
Proof.
  assert (K : forall l, (forall k, In k l -> In k (allKeysOf (collapse a) (collapse b)))
                        -> Forall isNormalKey l).
  { intros l H. apply Forall_forall. intros k Hk.
    apply H, allKeysOf_In in Hk.
    destruct Hk as [Hk|Hk]; apply in_map_iff in Hk;
      destruct Hk as [item [<- _]]; apply tagKey_normal. }
  split; [|split].
  - rewrite explainLens_eq. cbn [overlap uniqueA uniqueB expTopWeights].
    repeat constructor; apply K; intros k Hk;
      try (now apply filter_In in Hk).
    now apply topWeights_In in Hk.
  - unfold weightedJaccard. now rewrite !collapse_normalize.
  - unfold explainLens. now rewrite !collapse_normalize.
Qed.

Section KeyOrder.

Local Open Scope list_scope.
Local Open Scope Q_scope.

Lemma keys_set_add (m : JsMap.t number) (k : string) (v : number) :
  JsMap.keys (JsMap.set m k v) = JsSet.add (JsMap.keys m) k.
Proof.
  unfold JsSet.add. destruct (JsSet.has (JsMap.keys m) k) eqn:H.
  - apply has_In in H. now apply keys_set_present.
  - apply has_false in H. rewrite set_fresh by exact H.
    unfold JsMap.keys. now rewrite map_app.
Qed.

Lemma keys_fold_collapse (l : list TagItem) (m : JsMap.t number) :
  JsMap.keys (fold_left collapseStep l m)
  = fold_left JsSet.add (map tagKey l) (JsMap.keys m).
Proof.
  revert m. induction l as [|item r IH]; intro m; [reflexivity|].
  cbn [fold_left map]. rewrite IH. unfold collapseStep.
  now rewrite keys_set_add.
Qed.

Lemma add_fold_add (z acc : JsSet.t) (x : string) :
  fold_left JsSet.add (JsSet.add z x) acc
  = JsSet.add (fold_left JsSet.add z acc) x.
Proof.
  assert (A : forall s, JsSet.has s x = true -> JsSet.add s x = s)
    by (intros s Hs; unfold JsSet.add; now rewrite Hs).
  destruct (JsSet.has z x) eqn:H.
  - rewrite (A z H). symmetry. apply A.
    apply has_In, fold_add_In. right. now apply has_In.
  - unfold JsSet.add at 2. rewrite H. now rewrite fold_left_app.
Qed.

Lemma fold_add_fold_add (y z acc : JsSet.t) :
  fold_left JsSet.add (fold_left JsSet.add y z) acc
  = fold_left JsSet.add y (fold_left JsSet.add z acc).
Proof.
  revert z. induction y as [|x r IH]; intro z; [reflexivity|].
  cbn [fold_left]. now rewrite IH, add_fold_add.
Qed.

(** The key set lists the keys in the order of their first appearance,
    the tags of A before the tags of B. *)
Lemma allKeysOf_order (a b : list TagItem) :
  allKeysOf (collapse a) (collapse b) = JsSet.ofList (map tagKey a ++ map tagKey b).
Proof.
  unfold allKeysOf, collapse. rewrite !keys_fold_collapse.
  cbn [JsMap.keys map]. unfold JsSet.ofList.
  rewrite !fold_left_app. cbn [fold_left].
  now rewrite !fold_add_fold_add.
Qed.

Lemma sortInsert_tied (v : number) (e : string * number) (l : list (string * number)) :
  filter (tiedAt v) (sortInsert byWeightDesc e l) = filter (tiedAt v) (e :: l).
Proof.
  induction l as [|y r IH]; [reflexivity|]. cbn [sortInsert].
  destruct (Qle_bool (byWeightDesc e y) 0) eqn:C; [reflexivity|].
  cbn [filter] in *. rewrite IH.
  destruct (tiedAt v y) eqn:Ty, (tiedAt v e) eqn:Te; try reflexivity.
  exfalso. unfold tiedAt in *. apply Qeq_bool_iff in Ty, Te.
  assert (T : Qle_bool (byWeightDesc e y) 0 = true).
  { apply Qle_bool_iff. unfold byWeightDesc. rewrite Ty, Te. lra. }
  congruence.
Qed.

Lemma sortBy_tied (v : number) (l : list (string * number)) :
  filter (tiedAt v) (sortBy byWeightDesc l) = filter (tiedAt v) l.
Proof.
  induction l as [|x r IH]; [reflexivity|]. cbn [sortBy].
  rewrite sortInsert_tied. cbn [filter]. now rewrite IH.
Qed.

Lemma filter_map_swap {A B} (f : A -> B) (p : B -> bool) (l : list A) :
  filter p (map f l) = map f (filter (fun x => p (f x)) l).
Proof.
  induction l as [|x r IH]; [reflexivity|]. cbn [map filter].
  rewrite IH. now destruct (p (f x)).
Qed.

Lemma filter_has_self (p : string -> bool) (l : list string) :
  NoDup l -> inOrderOf (filter p l) l.
Proof.
  intro ND. unfold inOrderOf. induction ND as [|x r NI ND IH]; [reflexivity|].
  cbn [filter]. destruct (p x) eqn:Px.
  - cbn [JsSet.has existsb]. rewrite String.eqb_refl. cbn [orb]. f_equal.
    rewrite IH at 1. apply filter_ext_in. intros y Hy.
    unfold JsSet.has. cbn [existsb].
    destruct (String.eqb_spec y x) as [->|NE]; [contradiction | reflexivity].
  - destruct (JsSet.has (filter p r) x) eqn:H.
    + apply has_In, filter_In in H. destruct H as [H _]. contradiction.
    + exact IH.
Qed.

End KeyOrder.

(** X15. The order of an explanation is fixed by the input: the keys are
    met in the order of their first appearance, the tags of A before the
    tags of B; the overlap and the two lists of unique tags keep that
    order; and the top weights are the first three keys of the one
    reordering of the keys that is descending in the larger weight and
    leaves keys of equal weight in the order they were met. *)
Theorem explainLens_order (a b : list TagItem) :
  let keys := JsSet.ofList (map tagKey a ++ map tagKey b) in
  let heaviest k := Qmax (weightIn (collapse a) k) (weightIn (collapse b) k) in
  let e := explainLens a b in
  inOrderOf (overlap e) keys
  /\ inOrderOf (uniqueA e) keys
  /\ inOrderOf (uniqueB e) keys
  /\ exists full,
       expTopWeights e = firstn 3 full
       /\ Permutation full keys
       /\ StronglySorted (fun k1 k2 => heaviest k2 <= heaviest k1) full
       /\ forall v, filter (fun k => Qeq_bool (heaviest k) v) full
                    = filter (fun k => Qeq_bool (heaviest k) v) keys.
Proof.
  intros keys heaviest e. subst e keys. rewrite explainLens_eq.
  cbn [overlap uniqueA uniqueB expTopWeights].
  rewrite <- allKeysOf_order.
  set (ks := allKeysOf (collapse a) (collapse b)).
  set (sorted := sortBy byWeightDesc (map (weightEntry (collapse a) (collapse b)) ks)).
  pose proof (allKeysOf_NoDup a b) as ND. fold ks in ND.
  repeat (split; [now apply filter_has_self|]).
  exists (map fst sorted). split; [now rewrite firstn_map|].
  split; [apply sorted_keys|]. split.
  - apply StronglySorted_map with (R := heavierFirst); [|apply sortBy_sorted].
    intros x y Hx Hy H. unfold heavierFirst in H.
    apply sorted_entry in Hx. apply sorted_entry in Hy.
    destruct Hx as [_ Ex], Hy as [_ Ey]. unfold maxW in Ex, Ey.
    unfold heaviest. now rewrite <- Ex, <- Ey.
  - intro v. rewrite filter_map_swap.
    rewrite (filter_ext_in (fun x => Qeq_bool (heaviest (fst x)) v) (tiedAt v)).
    + subst sorted. rewrite sortBy_tied, filter_map_swap, map_map.
      cbn [weightEntry fst]. now rewrite map_id.
    + intros x Hx. apply sorted_entry in Hx. destruct Hx as [_ Ex].
      unfold tiedAt, heaviest. unfold maxW in Ex. now rewrite Ex.
Qed.

(** * The session code generator *)

Section CodeGeneratorFacts.

Import CodeGenerator.

Local Open Scope Q_scope.

Lemma get_In (s : string) (n : nat) (c : ascii) :
  String.get n s = Some c -> In c (list_ascii_of_string s).
Proof.
  revert n. induction s as [|d r IH]; intros n H; [discriminate|].
  destruct n as [|n]; simpl in H.
  - injection H as ->. now left.
  - right. now apply (IH n).
Qed.

Lemma get_Some (s : string) (n : nat) :
  (n < String.length s)%nat -> exists c, String.get n s = Some c.
Proof.
  revert n. induction s as [|d r IH]; intros n H; simpl in H; [lia|].
  destruct n as [|n]; simpl; [now exists d | apply IH; lia].
Qed.

Lemma charAt_length (s : string) (i : Z) : (String.length (charAt s i) <= 1)%nat.
Proof.
  unfold charAt. destruct (i <? 0)%Z; [simpl; lia|].
  destruct (String.get (Z.to_nat i) s); simpl; lia.
Qed.

Lemma charAt_alphabet (i : Z) :
  (0 <= i < 32)%Z ->
  exists c, charAt alphabet i = String c EmptyString /\ inAlphabet c = true.
Proof.
  intro H. unfold charAt.
  destruct (Z.ltb_spec i 0) as [L|_]; [lia|].
  destruct (get_Some alphabet (Z.to_nat i)) as [c Hc];
    [change (String.length alphabet) with 32%nat; lia|].
  rewrite Hc. exists c. split; [reflexivity|].
  apply existsb_exists. exists c. split; [now apply get_In in Hc|].
  apply Ascii.eqb_refl.
Qed.

Lemma draw_index (r : number) :
  0 <= r -> r < 1 -> (0 <= Qfloor (r * ofNat (String.length alphabet)) < 32)%Z.
Proof.
  intros L U. change (ofNat (String.length alphabet)) with (inject_Z 32).
  split.
  - change 0%Z with (Qfloor 0). apply Qfloor_resp_le.
    change (inject_Z 32) with 32. lra.
  - rewrite Zlt_Qlt.
    eapply Qle_lt_trans; [apply Qfloor_le|].
    change (inject_Z 32) with 32. lra.
Qed.

Lemma Qltb_iff (x y : number) : Qltb x y = true <-> x < y.
Proof.
  unfold Qltb. destruct (Qle_bool y x) eqn:E; simpl.
  - apply Qle_bool_iff in E. split; [discriminate | intro; lra].
  - split; [intros _ | reflexivity].
    destruct (Qlt_le_dec x y) as [L|G]; [exact L|].
    apply Qle_bool_iff in G. congruence.
Qed.

Variable random : nat -> number.
Variable safeLength : number.

Lemma codeLoop_length_le (fuel i : nat) (code : string) :
  (String.length (codeLoop fuel random safeLength i code)
   <= String.length code + fuel)%nat.
Proof.
  revert i code. induction fuel as [|f IH]; intros i code; cbn [codeLoop]; [lia|].
  destruct (Qltb (ofNat i) safeLength); [|lia].
  eapply Nat.le_trans; [apply IH|].
  rewrite length_append.
  pose proof (charAt_length alphabet
                (Qfloor (random i * ofNat (String.length alphabet)))).
  lia.
Qed.

(** More fuel than the loop needs changes nothing. *)
Lemma codeLoop_fuel (fuel extra i : nat) (code : string) :
  safeLength <= ofNat (i + fuel) ->
  codeLoop (fuel + extra) random safeLength i code
  = codeLoop fuel random safeLength i code.
Proof.
  revert i code. induction fuel as [|f IH]; intros i code H.
  - rewrite Nat.add_0_r in H. cbn [plus codeLoop].
    destruct extra as [|e]; [reflexivity|]. cbn [codeLoop].
    destruct (Qltb (ofNat i) safeLength) eqn:T; [|reflexivity].
    apply Qltb_iff in T. lra.
  - cbn [plus codeLoop].
    destruct (Qltb (ofNat i) safeLength); [|reflexivity].
    apply IH. now replace (S i + f)%nat with (i + S f)%nat by lia.
Qed.

Hypothesis random_valid : validRandom random.

Lemma codeLoop_alphabet (fuel i : nat) (code : string) :
  allChars inAlphabet code = true ->
  allChars inAlphabet (codeLoop fuel random safeLength i code) = true.
Proof.
  revert i code. induction fuel as [|f IH]; intros i code H; cbn [codeLoop];
    [exact H|].
  destruct (Qltb (ofNat i) safeLength); [|exact H].
  apply IH. rewrite allChars_app, H.
  destruct (random_valid i) as [L U].
  destruct (charAt_alphabet _ (draw_index _ L U)) as [c [-> Hc]].
  cbn [allChars]. now rewrite Hc.
Qed.

(** The loop runs once for every [i] below [count]. *)
Lemma codeLoop_length (count fuel i : nat) (code : string) :
  (forall j, ofNat j < safeLength <-> (j < count)%nat) ->
  (i <= count)%nat -> (count <= i + fuel)%nat ->
  String.length (codeLoop fuel random safeLength i code)
  = (String.length code + (count - i))%nat.
Proof.
  intro C. revert i code. induction fuel as [|f IH]; intros i code Li Lf.
  - simpl. lia.
  - cbn [codeLoop]. destruct (Qltb (ofNat i) safeLength) eqn:T.
    + apply Qltb_iff, C in T. rewrite IH by lia.
      rewrite length_append.
      destruct (random_valid i) as [L U].
      destruct (charAt_alphabet _ (draw_index _ L U)) as [c [-> _]].
      simpl. lia.
    + assert (~ (i < count)%nat).
      { intro Hi. apply C, Qltb_iff in Hi. congruence. }
      lia.
Qed.

End CodeGeneratorFacts.

Section SafeLengthFacts.

Import CodeGenerator.

Local Open Scope Q_scope.

Lemma safeLengthOf_bounds (length : number) :
  6 <= safeLengthOf length /\ safeLengthOf length <= 8.
Proof.
  unfold safeLengthOf. split.
  - apply Q.min_glb; [apply Q.le_max_r | discriminate].
  - apply Q.le_min_r.
Qed.

Lemma safeLengthOf_Z (n : Z) :
  safeLengthOf (inject_Z n) == inject_Z (Z.min (Z.max n 6) 8).
Proof.
  unfold safeLengthOf.
  change 6 with (inject_Z 6). change 8 with (inject_Z 8).
  destruct (Z_lt_le_dec n 6) as [L|L].
  - rewrite Z.max_r, Z.min_l by lia.
    rewrite Q.max_r by (rewrite <- Zle_Qle; lia).
    apply Q.min_l. rewrite <- Zle_Qle. lia.
  - rewrite Z.max_l by lia.
    rewrite Q.max_l by (rewrite <- Zle_Qle; lia).
    destruct (Z_le_gt_dec n 8) as [U|U].
    + rewrite Z.min_l by lia. apply Q.min_l. rewrite <- Zle_Qle. lia.
    + rewrite Z.min_r by lia. apply Q.min_r. rewrite <- Zle_Qle. lia.
Qed.

Lemma safeLengthOf_Z_alt (m : Z) :
  (6 <= m <= 8)%Z -> Qmin (Qmax (inject_Z m) 6) 8 == inject_Z m.
Proof.
  intro H. change 6 with (inject_Z 6). change 8 with (inject_Z 8).
  rewrite Q.max_l by (rewrite <- Zle_Qle; lia).
  apply Q.min_l. rewrite <- Zle_Qle. lia.
Qed.

(** How many turns the loop takes. *)
Lemma turns_ceiling (safeLength : number) (j : nat) :
  0 <= safeLength ->
  (ofNat j < safeLength <-> (j < Z.to_nat (Qceiling safeLength))%nat).
Proof.
  intro P.
  assert (Z0 : (0 <= Qceiling safeLength)%Z).
  { change 0%Z with (Qceiling 0). now apply Qceiling_resp_le. }
  pose proof (Qle_ceiling safeLength) as U.
  pose proof (Qceiling_lt safeLength) as L. unfold ofNat. split.
  - intro H. assert (T : inject_Z (Z.of_nat j) < inject_Z (Qceiling safeLength)) by lra.
    rewrite <- Zlt_Qlt in T. lia.
  - intro H.
    assert (T : (Z.of_nat j <= Qceiling safeLength - 1)%Z) by lia.
    rewrite Zle_Qle in T. lra.
Qed.

Lemma generateSessionCode_length (random : nat -> number) (length : option number) :
  validRandom random ->
  String.length (generateSessionCode random length)
  = Z.to_nat (Qceiling (safeLengthOf (nullish length 6))).
Proof.
  intro V. unfold generateSessionCode.
  destruct (safeLengthOf_bounds (nullish length 6)) as [L U].
  set (sl := safeLengthOf (nullish length 6)) in *.
  assert (C6 : (6 <= Qceiling sl)%Z)
    by (change 6%Z with (Qceiling 6); now apply Qceiling_resp_le).
  assert (C8 : (Qceiling sl <= 8)%Z)
    by (change 8%Z with (Qceiling 8); now apply Qceiling_resp_le).
  rewrite (codeLoop_length random sl V (Z.to_nat (Qceiling sl))); simpl; try lia.
  intro j. apply turns_ceiling. lra.
Qed.

End SafeLengthFacts.

(** X16. With [Math.random()] in [[0,1)], the code has as many characters
    as the requested length clamped to 6..8: 6 when the argument is
    omitted, and the request rounded up when it is not a whole number. *)
Theorem generateSessionCode_has_safe_length (random : nat -> number) :
  validRandom random ->
  (forall n : Z,
      String.length (CodeGenerator.generateSessionCode random (Some (inject_Z n)))
      = Z.to_nat (Z.min (Z.max n 6) 8))
  /\ String.length (CodeGenerator.generateSessionCode random None) = 6%nat
  /\ (forall length,
         String.length (CodeGenerator.generateSessionCode random length)
         = Z.to_nat (Qceiling (CodeGenerator.safeLengthOf (nullish length 6)))
         /\ (6 <= String.length (CodeGenerator.generateSessionCode random length) <= 8)%nat).
Proof.
  intro V. split; [|split].
  - intro n. rewrite generateSessionCode_length by exact V. cbn [nullish].
    now rewrite safeLengthOf_Z, Qceiling_Z.
  - now rewrite generateSessionCode_length by exact V.
  - intro length. rewrite generateSessionCode_length by exact V.
    split; [reflexivity|].
    destruct (safeLengthOf_bounds (nullish length 6)) as [L U].
    pose proof (Qceiling_resp_le _ _ L) as C6.
    pose proof (Qceiling_resp_le _ _ U) as C8.
    change (Qceiling 6) with 6%Z in C6. change (Qceiling 8) with 8%Z in C8.
    lia.
Qed.

Lemma validRandom_sample : validRandom sampleRandom.
Proof.
  intro n. unfold sampleRandom.
  assert (H : (n mod 7 < 7)%nat) by (apply Nat.mod_upper_bound; discriminate).
  split; [unfold Qle | unfold Qlt]; cbn [Qnum Qden]; lia.
Defined.

Lemma generateSessionCode_has_safe_length_witness :
  String.length (CodeGenerator.generateSessionCode sampleRandom (Some (inject_Z 7)))
  = 7%nat.
Proof.
  exact (proj1 (generateSessionCode_has_safe_length sampleRandom validRandom_sample) 7%Z).
Defined.

(** X17. With [Math.random()] in [[0,1)], every character of the code
    comes from the 32-character alphabet, so none of 0, O, 1 and I ever
    appears in a code. *)
Theorem generateSessionCode_alphabet (random : nat -> number) (length : option number) :
  validRandom random ->
  allChars inAlphabet (CodeGenerator.generateSessionCode random length) = true
  /\ forall c, In c ambiguousChars ->
               ~ In c (list_ascii_of_string
                         (CodeGenerator.generateSessionCode random length)).
Proof.
  intro V.
  assert (A : allChars inAlphabet (CodeGenerator.generateSessionCode random length) = true)
    by (apply codeLoop_alphabet; [exact V | reflexivity]).
  split; [exact A|].
  intros c Hc I.
  assert (B : inAlphabet c = true).
  { revert A I. generalize (CodeGenerator.generateSessionCode random length).
    intro s. induction s as [|d r IH]; intros A I; [destruct I|].
    cbn [allChars] in A. apply andb_true_iff in A. destruct A as [Ad Ar].
    destruct I as [->|I]; [exact Ad | now apply IH]. }
  destruct Hc as [<-|[<-|[<-|[<-|[]]]]]; discriminate B.
Qed.

Lemma generateSessionCode_alphabet_witness :
  allChars inAlphabet (CodeGenerator.generateSessionCode sampleRandom None) = true.
Proof.
  exact (proj1 (generateSessionCode_alphabet sampleRandom None validRandom_sample)).
Defined.

(** X18. Whatever [Math.random()] returns, a code never has more than 8
    characters (the width of the [sessions.code] column), and the loop
    always ends by its own test. *)
Theorem generateSessionCode_at_most_8 (random : nat -> number) (length : option number) :
  (String.length (CodeGenerator.generateSessionCode random length) <= 8)%nat
  /\ forall extra,
       CodeGenerator.codeLoop (8 + extra) random
         (CodeGenerator.safeLengthOf (nullish length 6)) 0 EmptyString
       = CodeGenerator.generateSessionCode random length.
Proof.
  split.
  - unfold CodeGenerator.generateSessionCode.
    apply (codeLoop_length_le random _ 8 0 EmptyString).
  - intro extra. apply codeLoop_fuel.
    destruct (safeLengthOf_bounds (nullish length 6)) as [_ U]. exact U.
Qed.

(** X19. The code [POST /api/session] picks has 6, 7 or 8 characters: 6
    plus the whole part of three times its first draw. *)
Theorem routeSessionCode_length (random : nat -> number) :
  validRandom random ->
  String.length (CodeGenerator.routeSessionCode random)
  = (6 + Z.to_nat (Qfloor (random 0%nat * 3)))%nat
  /\ (6 <= String.length (CodeGenerator.routeSessionCode random) <= 8)%nat.
Proof.
  intro V. unfold CodeGenerator.routeSessionCode.
  assert (V' : validRandom (fun n => random (S n))) by (intro n; apply V).
  rewrite (generateSessionCode_length _ _ V'). cbn [nullish].
  destruct (V 0%nat) as [L U].
  assert (F0 : (0 <= Qfloor (random 0%nat * 3))%Z).
  { change 0%Z with (Qfloor 0). apply Qfloor_resp_le. lra. }
  assert (F2 : (Qfloor (random 0%nat * 3) < 3)%Z).
  { rewrite Zlt_Qlt. eapply Qle_lt_trans; [apply Qfloor_le|].
    change (inject_Z 3) with 3. lra. }
  assert (E : 6 + inject_Z (Qfloor (random 0%nat * 3))
              == inject_Z (6 + Qfloor (random 0%nat * 3))).
  { rewrite inject_Z_plus. reflexivity. }
  assert (S : CodeGenerator.safeLengthOf (6 + inject_Z (Qfloor (random 0%nat * 3)))
              == inject_Z (6 + Qfloor (random 0%nat * 3))).
  { unfold CodeGenerator.safeLengthOf. rewrite E, safeLengthOf_Z_alt by lia.
    reflexivity. }
  rewrite S, Qceiling_Z. lia.
Qed.

Lemma routeSessionCode_length_witness :
  (6 <= String.length (CodeGenerator.routeSessionCode sampleRandom) <= 8)%nat.
Proof.
  exact (proj2 (routeSessionCode_length sampleRandom validRandom_sample)).
Defined.

(** * The People Map page *)

(** ** The stable sort, for any comparator that decides an order *)

Section GenericSort.

Local Open Scope list_scope.
Local Open Scope Q_scope.

Context {A : Type} (cmp : A -> A -> number) (R : A -> A -> Prop).

Hypothesis cmp_keeps : forall x y, Qle_bool (cmp x y) 0 = true -> R x y.
Hypothesis cmp_swaps : forall x y, Qle_bool (cmp x y) 0 = false -> R y x.
Hypothesis R_trans : forall x y z, R x y -> R y z -> R x z.

Lemma sortInsert_permutation (x : A) (l : list A) :
  Permutation (sortInsert cmp x l) (x :: l).
Proof.
  induction l as [|y r IH]; simpl; [reflexivity|].
  destruct (Qle_bool (cmp x y) 0); [reflexivity|].
  rewrite IH. apply perm_swap.
Qed.

Lemma sortBy_permutation (l : list A) : Permutation (sortBy cmp l) l.
Proof.
  induction l as [|x r IH]; simpl; [reflexivity|].
  rewrite sortInsert_permutation. now constructor.
Qed.

Lemma sortInsert_ordered (x : A) (l : list A) :
  StronglySorted R l -> StronglySorted R (sortInsert cmp x l).
Proof.
  induction 1 as [|y r S IH F]; simpl; [repeat constructor|].
  destruct (Qle_bool (cmp x y) 0) eqn:C.
  - constructor; [now constructor|].
    constructor; [now apply cmp_keeps|].
    eapply Forall_impl; [|exact F].
    intros z Hz. apply R_trans with y; [now apply cmp_keeps | exact Hz].
  - constructor; [exact IH|].
    apply (Permutation_Forall (Permutation_sym (sortInsert_permutation x r))).
    constructor; [now apply cmp_swaps | exact F].
Qed.

Lemma sortBy_ordered (l : list A) : StronglySorted R (sortBy cmp l).
Proof.
  induction l as [|x r IH]; simpl; [constructor | now apply sortInsert_ordered].
Qed.

(** The first [n] of the sorted list: what they are and what they leave
    out. *)
Lemma top_of_sorted (n : nat) (l : list A) :
  length (firstn n (sortBy cmp l)) = Nat.min n (length l)
  /\ (forall x, In x (firstn n (sortBy cmp l)) -> In x l)
  /\ StronglySorted R (firstn n (sortBy cmp l))
  /\ (forall x y, In x (firstn n (sortBy cmp l)) -> In y l ->
                  ~ In y (firstn n (sortBy cmp l)) -> R x y)
  /\ ((length l <= n)%nat -> Permutation (firstn n (sortBy cmp l)) l).
Proof.
  pose proof (sortBy_permutation l) as P.
  pose proof (sortBy_ordered l) as S.
  split; [|split; [|split; [|split]]].
  - now rewrite length_firstn, (Permutation_length P).
  - intros x Hx. apply (Permutation_in _ P). now apply (firstn_In n).
  - now apply StronglySorted_firstn.
  - intros x y Hx Hy Out.
    apply (Permutation_in _ (Permutation_sym P)) in Hy.
    rewrite <- (firstn_skipn n (sortBy cmp l)) in Hy.
    apply in_app_or in Hy. destruct Hy as [Hy|Hy]; [contradiction|].
    exact (StronglySorted_split R n _ S x y Hx Hy).
  - intro L. rewrite firstn_all2; [exact P|].
    now rewrite (Permutation_length P).
Qed.

End GenericSort.

Section UpdateMatchesFacts.

Import MapPage.

Local Open Scope list_scope.
Local Open Scope Q_scope.

Lemma byScoreDesc_keeps (x y : MatchResult) :
  Qle_bool (byScoreDesc x y) 0 = true ->
  toNumber (matchScore y) <= toNumber (matchScore x).
Proof. unfold byScoreDesc. intro H. apply Qle_bool_iff in H. lra. Qed.

Lemma byScoreDesc_swaps (x y : MatchResult) :
  Qle_bool (byScoreDesc x y) 0 = false ->
  toNumber (matchScore x) <= toNumber (matchScore y).
Proof.
  unfold byScoreDesc. intro H.
  destruct (Qlt_le_dec (toNumber (matchScore y)) (toNumber (matchScore x)))
    as [L|G]; [|exact G].
  assert (T : Qle_bool (toNumber (matchScore y) - toNumber (matchScore x)) 0 = true)
    by (apply Qle_bool_iff; lra).
  congruence.
Qed.

Lemma byScoreAsc_keeps (x y : MatchResult) :
  Qle_bool (byScoreAsc x y) 0 = true ->
  toNumber (matchScore x) <= toNumber (matchScore y).
Proof. unfold byScoreAsc. intro H. apply Qle_bool_iff in H. lra. Qed.

Lemma byScoreAsc_swaps (x y : MatchResult) :
  Qle_bool (byScoreAsc x y) 0 = false ->
  toNumber (matchScore y) <= toNumber (matchScore x).
Proof.
  unfold byScoreAsc. intro H.
  destruct (Qlt_le_dec (toNumber (matchScore x)) (toNumber (matchScore y)))
    as [L|G]; [|exact G].
  assert (T : Qle_bool (toNumber (matchScore x) - toNumber (matchScore y)) 0 = true)
    by (apply Qle_bool_iff; lra).
  congruence.
Qed.

End UpdateMatchesFacts.

(** X20. [updateMatches] ranks only the entries that have a score.  Both
    lists hold three of them, or all when there are fewer; the top similar
    are in descending and the top different in ascending order of score;
    no ranked entry left out of the top similar scores higher than one in
    it, and none left out of the top different scores lower; with at most
    three ranked entries the two lists hold the same entries. *)
Theorem updateMatches_top3 (list : list MapPage.MatchResult) :
  let score m := MapPage.toNumber (MapPage.matchScore m) in
  let valid := filter MapPage.hasScore list in
  let topSimilar := fst (MapPage.updateMatches list) in
  let topDifferent := snd (MapPage.updateMatches list) in
  length topSimilar = Nat.min 3 (length valid)
  /\ length topDifferent = Nat.min 3 (length valid)
  /\ (forall m, In m topSimilar \/ In m topDifferent ->
                In m list /\ MapPage.matchScore m <> None)
  /\ StronglySorted (fun m1 m2 => score m2 <= score m1) topSimilar
  /\ StronglySorted (fun m1 m2 => score m1 <= score m2) topDifferent
  /\ (forall m m', In m topSimilar -> In m' valid -> ~ In m' topSimilar ->
                   score m' <= score m)
  /\ (forall m m', In m topDifferent -> In m' valid -> ~ In m' topDifferent ->
                   score m <= score m')
  /\ ((length valid <= 3)%nat -> Permutation topSimilar topDifferent).
Proof.
  intros score valid topSimilar topDifferent.
  subst topSimilar topDifferent. unfold MapPage.updateMatches.
  cbn [fst snd]. fold valid.
  destruct (top_of_sorted MapPage.byScoreDesc
              (fun m1 m2 => score m2 <= score m1)
              byScoreDesc_keeps byScoreDesc_swaps
              (fun x y z H1 H2 => Qle_trans _ _ _ H2 H1) 3 valid)
    as (Ld & Id & Sd & Dd & Pd).
  destruct (top_of_sorted MapPage.byScoreAsc
              (fun m1 m2 => score m1 <= score m2)
              byScoreAsc_keeps byScoreAsc_swaps
              (fun x y z H1 H2 => Qle_trans _ _ _ H1 H2) 3 valid)
    as (La & Ia & Sa & Da & Pa).
  assert (V : forall m, In m valid -> In m list /\ MapPage.matchScore m <> None).
  { intros m Hm. apply filter_In in Hm. destruct Hm as [Hm S]. split; [exact Hm|].
    unfold MapPage.hasScore in S. destruct (MapPage.matchScore m); [discriminate|].
    discriminate S. }
  repeat split; try assumption.
  - destruct H as [H|H]; apply V; [now apply Id | now apply Ia].
  - destruct H as [H|H]; apply V; [now apply Id | now apply Ia].
  - intro L. rewrite (Pd L). symmetry. exact (Pa L).
Qed.

Lemma updateMatches_top3_witness :
  (length (filter MapPage.hasScore MapSample.matches) <= 3)%nat
  /\ Permutation (fst (MapPage.updateMatches MapSample.matches))
                 (snd (MapPage.updateMatches MapSample.matches)).
Proof.
  assert (L : (length (filter MapPage.hasScore MapSample.matches) <= 3)%nat)
    by (vm_compute; lia).
  split; [exact L|].
  destruct (updateMatches_top3 MapSample.matches) as (_ & _ & _ & _ & _ & _ & _ & P).
  exact (P L).
Defined.

Section LensScoresFacts.

Import MapPage.

Local Open Scope list_scope.
Local Open Scope Q_scope.

Lemma nonEmptyArray_false {T} (x : option (list T)) :
  nonEmptyArray x = false -> nullish x [] = [].
Proof.
  destruct x as [[|y l]|]; simpl; try reflexivity. discriminate.
Qed.

Lemma hasItems_false (i : Identity) (lens : Lens) :
  hasItems i lens = false -> tagsOf i lens = [] /\ textsOf i lens = [].
Proof.
  unfold hasItems. intro H. apply orb_false_iff in H. destruct H as [Ht Hx].
  split; [apply (nonEmptyArray_false _ Ht) | apply (nonEmptyArray_false _ Hx)].
Qed.

Lemma getLens_lensScoresOf (my other : Identity) (scores : PerLens number) (lens : Lens) :
  getLens (lensScoresOf my other scores) lens
  = if hasItems my lens || hasItems other lens
    then Some (getLens scores lens) else None.
Proof.
  unfold lensScoresOf. cbn [fold_left].
  destruct lens;
    destruct (hasItems my GIVEN || hasItems other GIVEN),
             (hasItems my CHOSEN || hasItems other CHOSEN),
             (hasItems my CORE || hasItems other CORE); reflexivity.
Qed.

End LensScoresFacts.

(** X21. The page shows a lens score as unavailable ([null]) exactly when
    neither participant has a tag or a text in that lens, and then the
    score the engine computed was 0; otherwise it shows the engine's
    score. *)
Theorem lensScores_null_hides_zero (my other : Identity) (lens : Lens) :
  let r := computeSimilarity my other in
  match getLens (MapPage.lensScoresOf my other (scores r)) lens with
  | None =>
      MapPage.hasItems my lens = false /\ MapPage.hasItems other lens = false
      /\ getLens (scores r) lens == 0
  | Some s =>
      s = getLens (scores r) lens
      /\ (MapPage.hasItems my lens = true \/ MapPage.hasItems other lens = true)
  end.
Proof.
  intro r. subst r. rewrite getLens_lensScoresOf.
  destruct (MapPage.hasItems my lens) eqn:Hm; cbn [orb].
  - split; [reflexivity | now left].
  - destruct (MapPage.hasItems other lens) eqn:Ho.
    + split; [reflexivity | now right].
    + repeat split.
      apply hasItems_false in Hm, Ho.
      destruct Hm as [Tm Xm], Ho as [To Xo].
      rewrite scores_computeSimilarity. unfold lensScore, tokensOf.
      rewrite Tm, Xm, To, Xo. reflexivity.
Qed.

(** ** Building the identities *)

Section BuildIdentitiesFacts.

Import MapPage.

Local Open Scope list_scope.

Lemma lensEqb_eq (l1 l2 : Lens) : lensEqb l1 l2 = true <-> l1 = l2.
Proof. destruct l1, l2; simpl; split; congruence. Qed.

Lemma getLens_setLens {T} (r : PerLens T) (l l' : Lens) (v : T) :
  getLens (setLens r l v) l' = if lensEqb l l' then v else getLens r l'.
Proof. destruct l, l'; reflexivity. Qed.

Lemma get_initIdentities (ids : list string) (m : JsMap.t Identity) (p : string) :
  (In p ids ->
   JsMap.get (fold_left (fun identities i => JsMap.set identities i emptyIdentity) ids m) p
   = Some emptyIdentity)
  /\ (~ In p ids ->
      JsMap.get (fold_left (fun identities i => JsMap.set identities i emptyIdentity) ids m) p
      = JsMap.get m p).
Proof.
  revert m. induction ids as [|i r IH]; intro m; cbn [fold_left].
  - split; [intros [] | reflexivity].
  - destruct (IH (JsMap.set m i emptyIdentity)) as [IHin IHout]. split.
    + intro H. destruct (in_dec string_dec p r) as [I|NI]; [now apply IHin|].
      rewrite (IHout NI). destruct H as [->|H]; [apply get_set_same | contradiction].
    + intro H. rewrite IHout by (intro I; apply H; now right).
      apply get_set_other. intro E. apply H. now left.
Qed.

Lemma identitiesHold_init (ids : list string) :
  identitiesHold ids [] (initIdentities ids).
Proof.
  intro p. unfold initIdentities.
  destruct (get_initIdentities ids [] p) as [Hin Hout]. split.
  - intro I. exists emptyIdentity. split; [now apply Hin|].
    intros []; split; reflexivity.
  - intro NI. now rewrite Hout.
Qed.

Lemma tagsFor_snoc (p : string) (lens : Lens) (done : list Item) (item : Item) :
  tagsFor p lens (done ++ [item])
  = tagsFor p lens done
    ++ (if isTagOf p lens item
        then [mkTagItem (item_value item) (item_weight item)] else []).
Proof.
  unfold tagsFor. rewrite filter_app, map_app. cbn [filter].
  now destruct (isTagOf p lens item).
Qed.

Lemma textsFor_snoc (p : string) (lens : Lens) (done : list Item) (item : Item) :
  textsFor p lens (done ++ [item])
  = textsFor p lens done
    ++ (if isTextOf p lens item then [item_value item] else []).
Proof.
  unfold textsFor. rewrite filter_app, map_app. cbn [filter].
  now destruct (isTextOf p lens item).
Qed.

Lemma addItem_holds (ids : list string) (done : list Item)
    (identities : JsMap.t Identity) (item : Item) :
  identitiesHold ids done identities -> In (participant_id item) ids ->
  exists identities',
    addItem identities item = Some identities'
    /\ identitiesHold ids (done ++ [item]) identities'.
Proof.
  intros H I. destruct (proj1 (H (participant_id item)) I) as [idn [G F]].
  unfold addItem. rewrite G.
  destruct (F (item_lens item)) as [Ft Fx].
  destruct (String.eqb_spec (item_type item) "tag") as [T|T].
  - rewrite Ft. eexists. split; [reflexivity|].
    intro p. split.
    + intro Ip. destruct (String.eqb_spec (participant_id item) p) as [E|NE].
      * subst p. rewrite get_set_same. eexists. split; [reflexivity|].
        intro lens. cbn [tags texts]. rewrite getLens_setLens.
        rewrite tagsFor_snoc, textsFor_snoc. unfold isTagOf, isTextOf.
        rewrite String.eqb_refl, T. cbn [andb negb].
        rewrite andb_false_r, app_nil_r.
        destruct (lensEqb (item_lens item) lens) eqn:L.
        -- apply lensEqb_eq in L. subst lens. split; [reflexivity | exact Fx].
        -- rewrite app_nil_r. apply F.
      * rewrite get_set_other by exact NE.
        destruct (proj1 (H p) Ip) as [idn' [G' F']].
        exists idn'. split; [exact G'|]. intro lens.
        rewrite tagsFor_snoc, textsFor_snoc. unfold isTagOf, isTextOf.
        apply String.eqb_neq in NE. rewrite NE. cbn [andb].
        rewrite !app_nil_r. apply F'.
    + intro NIp.
      rewrite get_set_other by (intro E; rewrite E in I; contradiction).
      now apply H.
  - apply String.eqb_neq in T.
    rewrite Fx. eexists. split; [reflexivity|].
    intro p. split.
    + intro Ip. destruct (String.eqb_spec (participant_id item) p) as [E|NE].
      * subst p. rewrite get_set_same. eexists. split; [reflexivity|].
        intro lens. cbn [tags texts]. rewrite getLens_setLens.
        rewrite tagsFor_snoc, textsFor_snoc. unfold isTagOf, isTextOf.
        rewrite String.eqb_refl, T. cbn [andb negb].
        rewrite andb_false_r, andb_true_r, app_nil_r.
        destruct (lensEqb (item_lens item) lens) eqn:L.
        -- apply lensEqb_eq in L. subst lens. split; [exact Ft | reflexivity].
        -- rewrite app_nil_r. apply F.
      * rewrite get_set_other by exact NE.
        destruct (proj1 (H p) Ip) as [idn' [G' F']].
        exists idn'. split; [exact G'|]. intro lens.
        rewrite tagsFor_snoc, textsFor_snoc. unfold isTagOf, isTextOf.
        apply String.eqb_neq in NE. rewrite NE. cbn [andb].
        rewrite !app_nil_r. apply F'.
    + intro NIp.
      rewrite get_set_other by (intro E; rewrite E in I; contradiction).
      now apply H.
Qed.

Lemma addItem_missing (ids : list string) (done : list Item)
    (identities : JsMap.t Identity) (item : Item) :
  identitiesHold ids done identities -> ~ In (participant_id item) ids ->
  addItem identities item = None.
Proof.
  intros H NI. unfold addItem. now rewrite (proj2 (H (participant_id item)) NI).
Qed.

Lemma build_None (items : list Item) :
  fold_left
    (fun acc item =>
       match acc with Some identities => addItem identities item | None => None end)
    items None = None.
Proof. induction items as [|item r IH]; [reflexivity | exact IH]. Qed.

Lemma build_holds (ids : list string) (rest done : list Item)
    (identities : JsMap.t Identity) :
  identitiesHold ids done identities -> itemsBelong ids rest ->
  exists identities',
    fold_left
      (fun acc item =>
         match acc with Some m => addItem m item | None => None end)
      rest (Some identities) = Some identities'
    /\ identitiesHold ids (done ++ rest) identities'.
Proof.
  revert done identities. induction rest as [|item r IH]; intros done m H B.
  - exists m. now rewrite app_nil_r.
  - inversion B as [|? ? Bi Br]; subst. cbn [fold_left].
    destruct (addItem_holds ids done m item H Bi) as [m' [E H']]. rewrite E.
    destruct (IH (done ++ [item]) m' H' Br) as [m'' [E'' H'']].
    exists m''. split; [exact E''|]. now rewrite <- app_assoc in H''.
Qed.

Lemma build_fails (ids : list string) (rest done : list Item)
    (identities : JsMap.t Identity) :
  identitiesHold ids done identities ->
  Exists (fun item => ~ In (participant_id item) ids) rest ->
  fold_left
    (fun acc item =>
       match acc with Some m => addItem m item | None => None end)
    rest (Some identities) = None.
Proof.
  revert done identities. induction rest as [|item r IH]; intros done m H E;
    [inversion E|].
  cbn [fold_left].
  destruct (in_dec string_dec (participant_id item) ids) as [I|NI].
  - destruct (addItem_holds ids done m item H I) as [m' [Em H']]. rewrite Em.
    apply (IH (done ++ [item]) m' H').
    inversion E as [? ? Bad|? ? Later]; subst; [contradiction | exact Later].
  - rewrite (addItem_missing ids done m item H NI). apply build_None.
Qed.

End BuildIdentitiesFacts.

Lemma buildIdentities_hold_or_fail (ids : list string) (items : list MapPage.Item) :
  (itemsBelong ids items ->
   exists identities,
     MapPage.buildIdentities ids items = Some identities
     /\ identitiesHold ids items identities)
  /\ (Exists (fun item => ~ In (MapPage.participant_id item) ids) items ->
      MapPage.buildIdentities ids items = None).
Proof.
  split.
  - intro B. exact (build_holds ids items [] _ (identitiesHold_init ids) B).
  - intro E. exact (build_fails ids items [] _ (identitiesHold_init ids) E).
Qed.

(** X22. When every row belongs to a listed participant, building the
    identities succeeds, and each listed participant gets, lens by lens,
    exactly their tag rows (value and weight) and their text rows, in the
    order of the rows; nobody else gets an identity.  A row of a
    participant who is not listed makes the loop throw. *)
Theorem buildIdentities_correct (ids : list string) (items : list MapPage.Item) :
  (itemsBelong ids items ->
   exists identities,
     MapPage.buildIdentities ids items = Some identities
     /\ forall p,
          (In p ids ->
           exists idn,
             JsMap.get identities p = Some idn
             /\ forall lens,
                  tagsOf idn lens = tagsFor p lens items
                  /\ textsOf idn lens = textsFor p lens items)
          /\ (~ In p ids -> JsMap.get identities p = None))
  /\ (Exists (fun item => ~ In (MapPage.participant_id item) ids) items ->
      MapPage.buildIdentities ids items = None).
Proof.
  split.
  - intro B.
    destruct (build_holds ids items [] _ (identitiesHold_init ids) B)
      as [m [E H]].
    exists m. split; [exact E|]. intro p. destruct (H p) as [Hin Hout].
    split; [|exact Hout].
    intro I. destruct (Hin I) as [idn [G F]]. exists idn. split; [exact G|].
    intro lens. destruct (F lens) as [Ft Fx].
    unfold tagsOf, textsOf. now rewrite Ft, Fx.
  - intro E. exact (build_fails ids items [] _ (identitiesHold_init ids) E).
Qed.

Lemma itemsBelong_sample :
  itemsBelong (MapPage.idsOf "a" MapSample.rows) MapSample.items.
Proof. repeat constructor; simpl; tauto. Defined.

Lemma buildIdentities_correct_witness :
  exists identities,
    MapPage.buildIdentities (MapPage.idsOf "a" MapSample.rows) MapSample.items
    = Some identities.
Proof.
  destruct (proj1 (buildIdentities_correct (MapPage.idsOf "a" MapSample.rows)
                     MapSample.items) itemsBelong_sample) as [m [E _]].
  exists m. exact E.
Defined.

(** ** Loading the page *)

Section LoadFacts.

Import MapPage.

Local Open Scope list_scope.

Lemma idsOf_self (participantId : string) (rows : list ParticipantInfo) :
  In participantId (idsOf participantId rows).
Proof.
  unfold idsOf.
  destruct (existsb (String.eqb participantId) (map id rows)) eqn:E.
  - apply existsb_exists in E. destruct E as [x [Hx Ex]].
    apply String.eqb_eq in Ex. now subst x.
  - apply in_or_app. right. now left.
Qed.

Lemma idsOf_rows (participantId : string) (rows : list ParticipantInfo)
    (p : ParticipantInfo) :
  In p rows -> In (id p) (idsOf participantId rows).
Proof.
  intro H. unfold idsOf.
  destruct (existsb (String.eqb participantId) (map id rows));
    [|apply in_or_app; left]; now apply in_map.
Qed.

Variables (participantId : string) (scope : Scope).
Variables (identities : JsMap.t Identity) (myIdentity : Identity).

Lemma fold_rowStep (rows : list ParticipantInfo)
    (simMap : JsMap.t SimEntry) (matchList : list MatchResult) :
  (forall p, In p rows -> JsMap.get identities (id p) <> None) ->
  exists simMap',
    fold_left (rowStep participantId scope identities myIdentity) rows
              (Some (simMap, matchList))
    = Some (simMap',
            matchList
            ++ map (matchOf scope identities myIdentity) (othersOf participantId rows)).
Proof.
  revert simMap matchList. induction rows as [|p r IH]; intros sm ml H.
  - exists sm. cbn. now rewrite app_nil_r.
  - cbn [fold_left othersOf filter]. unfold rowStep at 2.
    destruct (id p =? participantId)%string eqn:E; cbn [negb].
    + apply IH. intros q Hq. apply H. now right.
    + destruct (JsMap.get identities (id p)) as [other|] eqn:G;
        [|elim (H p (or_introl eq_refl) G)].
      edestruct IH as [sm' E']; [intros q Hq; apply H; now right|].
      exists sm'. rewrite E'. f_equal. f_equal. rewrite <- app_assoc.
      cbn [map app]. unfold matchOf at 2. now rewrite G.
Qed.

End LoadFacts.

Section LoadOutcome.

Import MapPage.

Local Open Scope list_scope.

Variables (participantId : string) (scope : Scope).
Variables (rows : list ParticipantInfo) (items : list Item).

Lemma load_loaded :
  itemsBelong (idsOf participantId rows) items ->
  exists identities myIdentity simMap,
    buildIdentities (idsOf participantId rows) items = Some identities
    /\ JsMap.get identities participantId = Some myIdentity
    /\ load participantId scope rows items
       = Loaded (mkPerLens (hasItems myIdentity GIVEN) (hasItems myIdentity CHOSEN)
                           (hasItems myIdentity CORE))
                simMap
                (fst (updateMatches
                        (map (matchOf scope identities myIdentity)
                             (othersOf participantId rows))))
                (snd (updateMatches
                        (map (matchOf scope identities myIdentity)
                             (othersOf participantId rows)))).
Proof.
  intro B.
  destruct (build_holds _ items [] _ (identitiesHold_init _) B) as [m [E H]].
  cbn [app] in H.
  destruct (proj1 (H participantId) (idsOf_self participantId rows))
    as [my [G _]].
  assert (R : forall p, In p rows -> JsMap.get m (id p) <> None).
  { intros p Hp.
    destruct (proj1 (H (id p)) (idsOf_rows participantId rows p Hp))
      as [idn [Gp _]]. congruence. }
  destruct (fold_rowStep participantId scope m my rows [] [] R) as [sm F].
  exists m, my, sm. split; [exact E|]. split; [exact G|].
  unfold load. change (buildIdentities (idsOf participantId rows) items)
    with (fold_left
            (fun acc item =>
               match acc with Some i => addItem i item | None => None end)
            items (Some (initIdentities (idsOf participantId rows)))).
  cbv zeta. rewrite E. cbv beta iota. rewrite G. cbv beta iota.
  unfold JsMap.t in *. rewrite F. cbn [app].
  now destruct (updateMatches
                  (map (matchOf scope m my) (othersOf participantId rows))).
Qed.

End LoadOutcome.

(** X23. Loading the page never ends in the "Current participant has no
    identity" error: the current participant always gets an identity,
    empty if need be.  It computes its lists whenever every row belongs to
    a fetched participant, and throws otherwise. *)
Theorem load_outcome (participantId : string) (scope : MapPage.Scope)
    (rows : list MapPage.ParticipantInfo) (items : list MapPage.Item) :
  MapPage.load participantId scope rows items <> MapPage.NoIdentity
  /\ (itemsBelong (MapPage.idsOf participantId rows) items ->
      exists hasMyItems similarities topSimilar topDifferent,
        MapPage.load participantId scope rows items
        = MapPage.Loaded hasMyItems similarities topSimilar topDifferent)
  /\ (Exists (fun item => ~ In (MapPage.participant_id item)
                               (MapPage.idsOf participantId rows)) items ->
      MapPage.load participantId scope rows items = MapPage.Thrown).
Proof.
  assert (T : Exists (fun item => ~ In (MapPage.participant_id item)
                                       (MapPage.idsOf participantId rows)) items ->
              MapPage.load participantId scope rows items = MapPage.Thrown).
  { intro E. unfold MapPage.load.
    now rewrite (proj2 (buildIdentities_hold_or_fail _ _) E). }
  assert (L : itemsBelong (MapPage.idsOf participantId rows) items ->
              exists hasMyItems similarities topSimilar topDifferent,
                MapPage.load participantId scope rows items
                = MapPage.Loaded hasMyItems similarities topSimilar topDifferent).
  { intro B.
    destruct (load_loaded participantId scope rows items B)
      as (m & my & sm & _ & _ & E).
    rewrite E. now repeat eexists. }
  split; [|split; assumption].
  destruct (Forall_Exists_dec
              (fun item => In (MapPage.participant_id item)
                              (MapPage.idsOf participantId rows))
              (fun item => in_dec string_dec _ _) items) as [B|E].
  - destruct (L B) as (h & s & ts & td & E). rewrite E. discriminate.
  - rewrite (T E). discriminate.
Qed.

Lemma load_outcome_witness :
  exists hasMyItems similarities topSimilar topDifferent,
    MapPage.load "a" MapPage.overall MapSample.rows MapSample.items
    = MapPage.Loaded hasMyItems similarities topSimilar topDifferent.
Proof.
  exact (proj1 (proj2 (load_outcome "a" MapPage.overall MapSample.rows
                         MapSample.items)) itemsBelong_sample).
Defined.

(** X24. When every row belongs to a fetched participant, the page ranks
    one entry per visible participant other than the current one, in the
    order of the rows, each scored by [computeSimilarity] against the
    current participant's identity; in the overall scope no entry is left
    unranked, so both top lists have three entries, or as many as there
    are other participants. *)
Theorem load_ranks_others (participantId : string) (scope : MapPage.Scope)
    (rows : list MapPage.ParticipantInfo) (items : list MapPage.Item) :
  itemsBelong (MapPage.idsOf participantId rows) items ->
  exists identities myIdentity hasMyItems similarities,
    MapPage.buildIdentities (MapPage.idsOf participantId rows) items = Some identities
    /\ JsMap.get identities participantId = Some myIdentity
    /\ (forall lens, getLens hasMyItems lens = MapPage.hasItems myIdentity lens)
    /\ let entries :=
         map (matchOf scope identities myIdentity) (othersOf participantId rows) in
       MapPage.load participantId scope rows items
       = MapPage.Loaded hasMyItems similarities
                        (fst (MapPage.updateMatches entries))
                        (snd (MapPage.updateMatches entries))
       /\ (scope = MapPage.overall ->
           length (fst (MapPage.updateMatches entries))
           = Nat.min 3 (length (othersOf participantId rows))
           /\ length (snd (MapPage.updateMatches entries))
              = Nat.min 3 (length (othersOf participantId rows))).
Proof.
  intro B.
  destruct (load_loaded participantId scope rows items B)
    as (m & my & sm & E & G & L).
  exists m, my,
    (mkPerLens (MapPage.hasItems my GIVEN) (MapPage.hasItems my CHOSEN)
               (MapPage.hasItems my CORE)), sm.
  split; [exact E|]. split; [exact G|].
  split; [intros []; reflexivity|].
  split; [exact L|].
  intros ->.
  assert (V : filter MapPage.hasScore
                (map (matchOf MapPage.overall m my) (othersOf participantId rows))
              = map (matchOf MapPage.overall m my) (othersOf participantId rows)).
  { apply forallb_filter_id, forallb_forall. intros x Hx.
    apply in_map_iff in Hx. destruct Hx as [p [<- _]]. reflexivity. }
  unfold MapPage.updateMatches. cbn [fst snd]. rewrite V.
  rewrite !length_firstn.
  rewrite (Permutation_length (sortBy_permutation MapPage.byScoreDesc _)).
  rewrite (Permutation_length (sortBy_permutation MapPage.byScoreAsc _)).
  now rewrite length_map.
Qed.

Lemma load_ranks_others_witness :
  exists identities,
    MapPage.buildIdentities (MapPage.idsOf "a" MapSample.rows) MapSample.items
    = Some identities.
Proof.
  destruct (load_ranks_others "a" MapPage.overall MapSample.rows MapSample.items
              itemsBelong_sample) as (m & _ & _ & _ & E & _).
  exists m. exact E.
Defined.

(** * The engine in binary64, within the data model *)

(** X25. For identities of the data model (tag weights among the
    integers 1, 2 and 3, fewer than 2^51 tags and 2^53 tokens in a lens)
    no number the engine computes in doubles is NaN or negative: every
    lens score and the overall score is +0, a positive double or
    +infinity, and so equal to itself under [==]. *)
Theorem computeSimilarity_no_NaN (a b : Identity) :
  integerIdentity a -> integerIdentity b -> ordinarySize a b ->
  let r := Doubles.computeSimilarity (inDoubles a) (inDoubles b) in
  nonNegative (Doubles.scoreOverall r)
  /\ Doubles.equal (Doubles.scoreOverall r) (Doubles.scoreOverall r) = true
  /\ forall lens,
       nonNegative (getLens (Doubles.scores r) lens)
       /\ Doubles.equal (getLens (Doubles.scores r) lens)
                        (getLens (Doubles.scores r) lens) = true.
Proof.
  intros Ia Ib Size r. subst r.
  pose proof (scoreOverall_nonNegative_in_doubles a b Ia Ib Size) as O.
  split; [exact O|]. split; [apply nonNegative_equal; exact O|].
  intro lens. rewrite scores_in_doubles.
  pose proof (lensScore_nonNegative_in_doubles a b Ia Ib Size lens) as L.
  split; [exact L | apply nonNegative_equal; exact L].
Qed.

Lemma computeSimilarity_no_NaN_witness :
  Doubles.equal
    (Doubles.scoreOverall
       (Doubles.computeSimilarity (inDoubles Sample.identityA)
                                  (inDoubles Sample.identityB)))
    (Doubles.scoreOverall
       (Doubles.computeSimilarity (inDoubles Sample.identityA)
                                  (inDoubles Sample.identityB))) = true.
Proof.
  exact (proj1 (proj2 (computeSimilarity_no_NaN Sample.identityA Sample.identityB
                         integerIdentity_identityA integerIdentity_identityB
                         ordinarySize_sample))).
Defined.

(** X26. Within the data model, the score of a lens in doubles is the
    0.7/0.3 blend of two quotients rounded once each: the documented sum
    of minima over the documented sum of maxima, both exact, and the
    number of shared tokens over the number of distinct tokens; a zero
    divisor gives 0. *)
Theorem lens_score_in_doubles (a b : Identity) (lens : Lens) :
  integerIdentity a -> integerIdentity b -> ordinarySize a b ->
  getLens (Doubles.scores (Doubles.computeSimilarity (inDoubles a) (inDoubles b)))
          lens
  = Binary64.blend
      (quotientOf (Spec.numerator (tagsOf a lens) (tagsOf b lens))
                  (Spec.denominator (tagsOf a lens) (tagsOf b lens)))
      (quotientOf (ofNat (length (common (tokensOf a lens) (tokensOf b lens))))
                  (ofNat (length (unionSet (tokensOf a lens) (tokensOf b lens))))).
Proof.
  intros Ia Ib Size.
  rewrite scores_in_doubles, lensScore_in_doubles
    by (auto; intro l; apply Size).
  f_equal. apply quotientOf_comp.
  - apply numeratorOf_spec; apply integerTags_valid; [apply Ia | apply Ib].
  - apply denominatorOf_spec; apply integerTags_valid; [apply Ia | apply Ib].
Qed.

Lemma lens_score_in_doubles_witness :
  getLens (Doubles.scores
             (Doubles.computeSimilarity (inDoubles Sample.halfA)
                                        (inDoubles Sample.halfB))) GIVEN
  = Binary64.blend (Binary64.literal 1 2) (Binary64.literal 1 2).
Proof.
  assert (Ia : integerIdentity Sample.halfA)
    by (intros []; repeat constructor; cbv; tauto).
  assert (Ib : integerIdentity Sample.halfB)
    by (intros []; repeat constructor; cbv; tauto).
  assert (Size : ordinarySize Sample.halfA Sample.halfB)
    by (intros []; split; vm_compute; reflexivity).
  rewrite (lens_score_in_doubles Sample.halfA Sample.halfB GIVEN Ia Ib Size).
  vm_compute. reflexivity.
Defined.
